(** * Todo list: optimistic client handlers and server actions

    A shallow embedding of [src/app/actions.ts] (the server actions), of
    the interaction handlers of [src/app/TodoApp.tsx] (the optimistic
    client), of [getSupabase] and of the page [Home], followed by the
    properties of insertion positions, placeholder filtering, the reorder
    fallback and error handling, and by those of the other actions, of the
    drag and touch handlers and of the view against the next read.

    Conventions of the embedding.
    - A JavaScript string is its sequence of UTF-16 code units ([list N]).
    - [position] is a [Z]: the column is an integer, and [minPos - 1] is
      exact on every value the column can hold.  The model does not bound
      it: the range of the column and the room an insert needs below the
      least position are hypotheses ([hasRoomBelow]) of the properties
      that depend on a row being inserted strictly below the others.
    - A server action is a function of the state of the store (the table
      [todos], whether the store answers, whether the [reorder_todos]
      function is installed) that returns how its promise settles and the
      store it leaves, in a small state-and-exception monad.  The store is
      the Supabase client that [getSupabase()] hands out.  The handlers run
      on a page that [readTodos()] has rendered, so the client has been
      built and cached by then.  How it is built from the environment is
      modelled on its own ([getSupabase] below) and is not threaded
      through the actions.
    - Every call made on the store and every [revalidatePath] is appended
      to a trace, so that "no store call is made" is a statement about the
      trace.
    - [setOptimisticTodos(next)] replaces the local view by [next], as its
      reducer [(_current, next) => next] says.  The new render that follows
      a [revalidatePath] (a fresh [initial]) is the next full read of the
      store and is outside the handlers.  The field [optimisticTodos] is
      the value the last handler has set; what React renders once the
      transition of that handler has ended ([useOptimistic] then returns
      [initial]) is not modelled, so after a call has landed the field is
      compared with the next full read only.
    - Identifiers are compared as the strings they are, in the view and in
      the store.  The column is [id uuid]: the answer of the store to a
      request for an identifier that is not in the durable format is not
      modelled, and the properties about such requests either take the
      identifier in the durable format or state that the call is rejected
      without the kind of the error. *)

From Stdlib Require Import ZArith NArith String Ascii DecimalPos DecimalN.
From stdpp Require Import base tactics option list numbers sorting relations.

Local Open Scope Z_scope.

(* ================================================================== *)
(** ** JavaScript strings *)
(* ================================================================== *)

Abbreviation JsString := (list N).

(** A string literal of the source, as code units. *)
Definition lit (s : string) : JsString :=
  N_of_ascii <$> list_ascii_of_string s.

(** [String.prototype.startsWith] without a position argument. *)
Fixpoint startsWith (s searchString : JsString) {struct searchString}
    : bool :=
  match searchString, s with
  | [], _ => true
  | _ :: _, [] => false
  | p :: searchString', c :: s' => (c =? p)%N && startsWith s' searchString'
  end.

(** The code units [String.prototype.trim] strips: ECMAScript's WhiteSpace
    (TAB, VT, FF, SP, NBSP, ZWNBSP and the category Zs) and LineTerminator
    (LF, CR, LS, PS). *)
Definition isWhiteSpace (c : N) : bool :=
  ((c =? 0x09) || (c =? 0x0A) || (c =? 0x0B) || (c =? 0x0C) || (c =? 0x0D)
   || (c =? 0x20) || (c =? 0xA0) || (c =? 0x1680)
   || ((0x2000 <=? c) && (c <=? 0x200A))
   || (c =? 0x2028) || (c =? 0x2029) || (c =? 0x202F) || (c =? 0x205F)
   || (c =? 0x3000) || (c =? 0xFEFF))%N.

Fixpoint trimStart (s : JsString) : JsString :=
  match s with
  | [] => []
  | c :: s' => if isWhiteSpace c then trimStart s' else s
  end.

Definition trimEnd (s : JsString) : JsString :=
  reverse (trimStart (reverse s)).

Definition trim (s : JsString) : JsString := trimEnd (trimStart s).

(** Number-to-string of a non-negative integer below [10^21]: its decimal
    digits, most significant first, ["0"] for zero. *)
Fixpoint digitsOfUint (d : Decimal.uint) : JsString :=
  match d with
  | Decimal.Nil => []
  | Decimal.D0 d' => 48%N :: digitsOfUint d'
  | Decimal.D1 d' => 49%N :: digitsOfUint d'
  | Decimal.D2 d' => 50%N :: digitsOfUint d'
  | Decimal.D3 d' => 51%N :: digitsOfUint d'
  | Decimal.D4 d' => 52%N :: digitsOfUint d'
  | Decimal.D5 d' => 53%N :: digitsOfUint d'
  | Decimal.D6 d' => 54%N :: digitsOfUint d'
  | Decimal.D7 d' => 55%N :: digitsOfUint d'
  | Decimal.D8 d' => 56%N :: digitsOfUint d'
  | Decimal.D9 d' => 57%N :: digitsOfUint d'
  end.

Definition numberToString (n : N) : JsString := digitsOfUint (N.to_uint n).

Definition isDecimalDigit (c : N) : bool := ((48 <=? c) && (c <=? 57))%N.

(* ================================================================== *)
(** ** The durable-identifier regular expression

    [/^(?:[0-9a-fA-F]{8}-[0-9a-fA-F]{4}-[1-5][0-9a-fA-F]{3}-[89abAB][0-9a-fA-F]{3}-[0-9a-fA-F]{12})$/]

    The expression is a sequence of one-character classes anchored at both
    ends (no [m] flag: [$] is the end of the input), so a string matches
    when it has one code unit per class, each in its class. *)
(* ================================================================== *)

Inductive CharClass :=
  | Hex        (* [0-9a-fA-F] *)
  | Dash       (* - *)
  | Version    (* [1-5] *)
  | Variant.   (* [89abAB] *)

Definition inRange (lo hi c : N) : bool := ((lo <=? c) && (c <=? hi))%N.

Definition classMatches (k : CharClass) (c : N) : bool :=
  match k with
  | Hex => inRange 48 57 c || inRange 97 102 c || inRange 65 70 c
  | Dash => (c =? 45)%N
  | Version => inRange 49 53 c
  | Variant => (c =? 56) || (c =? 57) || (c =? 97) || (c =? 98)
               || (c =? 65) || (c =? 66)
  end%N.

Fixpoint matchClasses (pat : list CharClass) (s : JsString) : bool :=
  match pat, s with
  | [], [] => true
  | k :: pat', c :: s' => classMatches k c && matchClasses pat' s'
  | _, _ => false
  end.

Definition uuidPattern : list CharClass :=
  replicate 8 Hex ++ [Dash] ++ replicate 4 Hex ++ [Dash]
  ++ [Version] ++ replicate 3 Hex ++ [Dash]
  ++ [Variant] ++ replicate 3 Hex ++ [Dash] ++ replicate 12 Hex.

(** [re.test(id)] for the expression of [reorderTodos]. *)
Definition isUuid (id : JsString) : bool := matchClasses uuidPattern id.

(* ================================================================== *)
(** ** Items *)
(* ================================================================== *)

Record Todo := mkTodo {
  id : JsString;
  text : JsString;
  completed : bool;
  position : Z
}.

#[global] Instance Todo_eq_dec : EqDecision Todo.
Proof. solve_decision. Defined.

(** [xs.length ? Math.min(...xs) : 0] on a list of positions. *)
Definition minOrZero (positions : list Z) : Z :=
  match positions with
  | [] => 0
  | p :: ps => foldl Z.min p ps
  end.

(** [t.position ?? 0]: the field has type [number], so the left operand is
    never nullish. *)
Definition nullish (v : option Z) (default : Z) : Z :=
  match v with Some x => x | None => default end.

(* ================================================================== *)
(** ** The store and the server-action monad *)
(* ================================================================== *)

(** What a store call can report (section 7 of the design). *)
Inductive StoreError :=
  | NotFoundError
  | StoreUnavailable
  | CapabilityUnavailable
  | ConstraintViolation.

#[global] Instance StoreError_eq_dec : EqDecision StoreError.
Proof. solve_decision. Defined.

(** A Supabase query resolves to [{ data, error }]. *)
Inductive Response (A : Type) :=
  | RespData (data : A)
  | RespError (error : StoreError).
Arguments RespData {A} data.
Arguments RespError {A} error.

(** The database function [reorder_todos] is optional: it may be installed,
    be absent, or the call may throw instead of resolving. *)
Inductive RpcMode := RpcInstalled | RpcMissing | RpcThrows.

Inductive Event :=
  | EvSelectOrdered
  | EvInsert (row : Todo)
  | EvRpcReorder (ids : list JsString)
  | EvUpdatePosition (target : JsString) (pos : Z)
  | EvSelectCompleted (target : JsString)
  | EvUpdateCompleted (target : JsString) (value : bool)
  | EvDeleteById (target : JsString)
  | EvDeleteCompleted
  | EvRevalidate.

Record World := mkWorld {
  rows : list Todo;        (* the table [todos] *)
  reachable : bool;        (* does the store answer queries *)
  rpcMode : RpcMode;
  trace : list Event       (* calls made so far, oldest first *)
}.

Inductive Settled (A : Type) :=
  | Fulfilled (value : A)
  | Rejected (reason : StoreError).
Arguments Fulfilled {A} value.
Arguments Rejected {A} reason.

Definition Action (A : Type) : Type := World → Settled A * World.

#[global] Instance Action_ret : MRet Action := λ A a w, (Fulfilled a, w).

#[global] Instance Action_bind : MBind Action := λ A B k m w,
  match m w with
  | (Fulfilled a, w') => k a w'
  | (Rejected e, w') => (Rejected e, w')
  end.

Definition ret {A} (a : A) : Action A := mret a.

Definition throw {A} (e : StoreError) : Action A := λ w, (Rejected e, w).

(** [try { m } catch { h }] *)
Definition tryCatch {A} (m : Action A) (h : Action A) : Action A :=
  λ w, match m w with
       | (Fulfilled a, w') => (Fulfilled a, w')
       | (Rejected _, w') => h w'
       end.

Definition emit (e : Event) : Action unit :=
  λ w, (Fulfilled tt,
        mkWorld (rows w) (reachable w) (rpcMode w) (trace w ++ [e])).

Definition getRows : Action (list Todo) := λ w, (Fulfilled (rows w), w).

Definition setRows (rs : list Todo) : Action unit :=
  λ w, (Fulfilled tt, mkWorld rs (reachable w) (rpcMode w) (trace w)).

Definition isReachable : Action bool := λ w, (Fulfilled (reachable w), w).

Definition getRpcMode : Action RpcMode := λ w, (Fulfilled (rpcMode w), w).

(** *** Table operations *)

Definition positionLe (a b : Todo) : Prop := position a ≤ position b.

#[global] Instance positionLe_dec : RelDecision positionLe.
Proof. intros a b. unfold positionLe. apply _. Defined.

(** [ORDER BY position ASC]. *)
Definition orderByPosition (rs : list Todo) : list Todo :=
  merge_sort positionLe rs.

Definition setPosition (pos : Z) (r : Todo) : Todo :=
  mkTodo (id r) (text r) (completed r) pos.

Definition setCompleted (value : bool) (r : Todo) : Todo :=
  mkTodo (id r) (text r) value (position r).

(** [UPDATE todos SET position = pos WHERE id = target]. *)
Definition updatePositionWhere (target : JsString) (pos : Z)
    (rs : list Todo) : list Todo :=
  (λ r, if decide (id r = target) then setPosition pos r else r) <$> rs.

Definition updateCompletedWhere (target : JsString) (value : bool)
    (rs : list Todo) : list Todo :=
  (λ r, if decide (id r = target) then setCompleted value r else r) <$> rs.

(** The body of the database function [reorder_todos(ids)]: a counter from
    zero, one position update per identifier in array order. *)
Fixpoint applyFullOrder (i : nat) (ids : list JsString)
    (rs : list Todo) : list Todo :=
  match ids with
  | [] => rs
  | x :: ids' => applyFullOrder (S i) ids' (updatePositionWhere x (Z.of_nat i) rs)
  end.

(** *** Store calls, each resolving to a [Response] *)

Definition selectOrdered : Action (Response (list Todo)) :=
  emit EvSelectOrdered ;;
  up ← isReachable ;
  if up : bool then rs ← getRows ; ret (RespData (orderByPosition rs))
  else ret (RespError StoreUnavailable).

Definition insertRow (row : Todo) : Action (Response unit) :=
  emit (EvInsert row) ;;
  up ← isReachable ;
  if up : bool then
    rs ← getRows ;
    if decide (id row ∈ id <$> rs) then ret (RespError ConstraintViolation)
    else setRows (rs ++ [row]) ;; ret (RespData tt)
  else ret (RespError StoreUnavailable).

Definition rpcReorderTodos (ids : list JsString) : Action (Response unit) :=
  emit (EvRpcReorder ids) ;;
  mode ← getRpcMode ;
  match mode with
  | RpcThrows => throw StoreUnavailable
  | RpcMissing =>
      up ← isReachable ;
      ret (RespError (if up : bool then CapabilityUnavailable else StoreUnavailable))
  | RpcInstalled =>
      up ← isReachable ;
      if up : bool then
        rs ← getRows ; setRows (applyFullOrder 0 ids rs) ;; ret (RespData tt)
      else ret (RespError StoreUnavailable)
  end.

Definition updatePosition (target : JsString) (pos : Z) : Action (Response unit) :=
  emit (EvUpdatePosition target pos) ;;
  up ← isReachable ;
  if up : bool then
    rs ← getRows ; setRows (updatePositionWhere target pos rs) ;; ret (RespData tt)
  else ret (RespError StoreUnavailable).

(** [.select("completed").eq("id", target).single()]: an error unless
    exactly one row matches. *)
Definition selectCompletedSingle (target : JsString) : Action (Response bool) :=
  emit (EvSelectCompleted target) ;;
  up ← isReachable ;
  if up : bool then
    rs ← getRows ;
    match filter (λ r, id r = target) rs with
    | [r] => ret (RespData (completed r))
    | _ => ret (RespError NotFoundError)
    end
  else ret (RespError StoreUnavailable).

Definition updateCompleted (target : JsString) (value : bool)
    : Action (Response unit) :=
  emit (EvUpdateCompleted target value) ;;
  up ← isReachable ;
  if up : bool then
    rs ← getRows ; setRows (updateCompletedWhere target value rs) ;; ret (RespData tt)
  else ret (RespError StoreUnavailable).

Definition deleteById (target : JsString) : Action (Response unit) :=
  emit (EvDeleteById target) ;;
  up ← isReachable ;
  if up : bool then
    rs ← getRows ; setRows (filter (λ r, id r ≠ target) rs) ;; ret (RespData tt)
  else ret (RespError StoreUnavailable).

Definition deleteCompleted : Action (Response unit) :=
  emit EvDeleteCompleted ;;
  up ← isReachable ;
  if up : bool then
    rs ← getRows ; setRows (filter (λ r, completed r = false) rs) ;; ret (RespData tt)
  else ret (RespError StoreUnavailable).

Definition revalidatePath : Action unit := emit EvRevalidate.

(** [await Promise.all(calls)] for calls that are issued in array order. *)
Fixpoint promiseAll {A} (calls : list (Action A)) : Action (list A) :=
  match calls with
  | [] => ret []
  | c :: calls' => x ← c ; xs ← promiseAll calls' ; ret (x :: xs)
  end.

(* ================================================================== *)
(** ** Server actions ([src/app/actions.ts]) *)
(* ================================================================== *)

(** [{ ok: true }] and [{ ok: false, error }]. *)
Inductive ActionResult :=
  | ResOk
  | ResFail (error : JsString).

(** What [formData.get("text")] can be. *)
Inductive FormDataEntryValue :=
  | FdString (s : JsString)
  | FdFile.

Record FormData := mkFormData {
  getText : option FormDataEntryValue   (* [null] when the field is absent *)
}.

(** [(formData.get("text") || "").toString().trim()] *)
Definition textOf (formData : FormData) : JsString :=
  trim match getText formData with
       | None => []
       | Some (FdString s) => s            (* [""] is falsy, and gives [""] *)
       | Some FdFile => lit "[object File]"
       end.

Definition fetchTodos : Action (list Todo) :=
  resp ← selectOrdered ;
  match resp with
  | RespError e => throw e
  | RespData data => ret data
  end.

Definition readTodos : Action (list Todo) := fetchTodos.

(** [const minPos = todos.length ? Math.min(...todos.map(t => t.position)) : 0] *)
Definition minPos (todos : list Todo) : Z := minOrZero (position <$> todos).

(** [const newPos = minPos - 1; // place on top] *)
Definition newPos (todos : list Todo) : Z := minPos todos - 1.

(** [newId] stands for the value [crypto.randomUUID()] returns. *)
Definition addTodo (newId : JsString) (formData : FormData)
    : Action ActionResult :=
  let text := textOf formData in
  if decide (text = []) then ret (ResFail (lit "Empty")) else
  todos ← fetchTodos ;
  resp ← insertRow (mkTodo newId text false (newPos todos)) ;
  match resp with
  | RespError e => throw e
  | RespData _ => revalidatePath ;; ret ResOk
  end.

(** The manual updates of [reorderTodos]:
    [uuidIds.map((id, index) => supabase.from("todos").update({ position: index }).eq("id", id))],
    first as the assignment it computes, then as the calls. *)
Definition manualPositions (uuidIds : list JsString) : list (JsString * Z) :=
  imap (λ index id, (id, Z.of_nat index)) uuidIds.

Definition manualUpdates (uuidIds : list JsString)
    : list (Action (Response unit)) :=
  (λ w, updatePosition w.1 w.2) <$> manualPositions uuidIds.

(** The [try { ... } catch { }] block of [reorderTodos].  [Some r]: the
    block returned [r]; [None]: control falls through to the manual
    updates. *)
Definition tryRpc (uuidIds : list JsString) : Action (option ActionResult) :=
  tryCatch
    (resp ← rpcReorderTodos uuidIds ;
     match resp with
     | RespData _ => revalidatePath ;; ret (Some ResOk)
     | RespError _ => ret None
     end)
    (ret None).

Definition reorderTodos (newOrderIds : list JsString) : Action ActionResult :=
  let uuidIds := filter (λ id, isUuid id = true) newOrderIds in
  if decide (length uuidIds = 0%nat) then ret ResOk else
  early ← tryRpc uuidIds ;
  match early with
  | Some r => ret r
  | None =>
      promiseAll (manualUpdates uuidIds) ;;
      revalidatePath ;;
      ret ResOk
  end.

Definition toggleTodo (target : JsString) : Action ActionResult :=
  fetched ← selectCompletedSingle target ;
  match fetched with
  | RespError fetchErr => throw fetchErr
  | RespData wasCompleted =>
      resp ← updateCompleted target (negb wasCompleted) ;
      match resp with
      | RespError e => throw e
      | RespData _ => revalidatePath ;; ret ResOk
      end
  end.

Definition deleteTodo (target : JsString) : Action ActionResult :=
  resp ← deleteById target ;
  match resp with
  | RespError e => throw e
  | RespData _ => revalidatePath ;; ret ResOk
  end.

Definition clearCompleted : Action ActionResult :=
  resp ← deleteCompleted ;
  match resp with
  | RespError e => throw e
  | RespData _ => revalidatePath ;; ret ResOk
  end.

(* ================================================================== *)
(** ** The optimistic client ([src/app/TodoApp.tsx]) *)
(* ================================================================== *)

Inductive ServerCall :=
  | CallAddTodo (formData : FormData)
  | CallReorderTodos (ids : list JsString)
  | CallToggleTodo (target : JsString)
  | CallDeleteTodo (target : JsString)
  | CallClearCompleted.

(** A server action the handler has called without awaiting it;
    [hasCatch] records whether the call site attaches [.catch(...)]. *)
Record Dispatch := mkDispatch {
  call : ServerCall;
  hasCatch : bool
}.

Record Client := mkClient {
  optimisticTodos : list Todo;           (* the local view *)
  inFlight : list Dispatch;              (* calls issued, oldest first *)
  unhandledRejections : list StoreError  (* rejections nobody observed *)
}.

Definition setOptimisticTodos (next : list Todo) (c : Client) : Client :=
  mkClient next (inFlight c) (unhandledRejections c).

Definition dispatch (d : Dispatch) (c : Client) : Client :=
  mkClient (optimisticTodos c) (inFlight c ++ [d]) (unhandledRejections c).

(** [`temp-${Date.now()}`] *)
Definition tempId (now : N) : JsString := lit "temp-" ++ numberToString now.

(** The position of the placeholder in [onAdd]:
    [optimisticTodos.length ? Math.min(...optimisticTodos.map(t => t.position ?? 0)) : 0],
    minus one. *)
Definition optimisticMinPos (todos : list Todo) : Z :=
  minOrZero ((λ t, nullish (Some (position t)) 0) <$> todos).

Definition onAdd (now : N) (formData : FormData) (c : Client) : Client :=
  let text := textOf formData in
  if decide (text = []) then c else
  let todos := optimisticTodos c in
  let temp := mkTodo (tempId now) text false (optimisticMinPos todos - 1) in
  let c := setOptimisticTodos (temp :: todos) c in
  dispatch (mkDispatch (CallAddTodo formData) true) c.

(** [arr.findIndex(t => t.id === x)], [None] for [-1]. *)
Fixpoint findIndex (x : JsString) (arr : list Todo) : option nat :=
  match arr with
  | [] => None
  | t :: arr' => if decide (id t = x) then Some 0%nat
                 else S <$> findIndex x arr'
  end.

(** The index [Array.prototype.splice] starts at: a negative [start]
    counts from the end, and the result is clamped to the array. *)
Definition spliceStart {A} (start : Z) (arr : list A) : nat :=
  let len := Z.of_nat (length arr) in
  Z.to_nat (if start <? 0 then Z.max (len + start) 0 else Z.min start len).

(** [const [moved] = arr.splice(start, 1)]: the element removed, if any, and
    the array it leaves. *)
Definition spliceOut {A} (start : Z) (arr : list A) : option A * list A :=
  let k := spliceStart start arr in
  (arr !! k, take k arr ++ drop (S k) arr).

(** [arr.splice(start, 0, item)] *)
Definition spliceIn {A} (start : Z) (item : A) (arr : list A) : list A :=
  let k := spliceStart start arr in
  take k arr ++ item :: drop k arr.

(** [current.map(t => t.id).filter(id => !id.startsWith('temp-'))] *)
Definition stableIdsOf (current : list Todo) : list JsString :=
  filter (λ i, startsWith i (lit "temp-") = false) (id <$> current).

(** [queueMicrotask(() => { if (stableIds.length) reorderTodos(stableIds); })] *)
Definition persistOrder (stableIds : list JsString) (c : Client) : Client :=
  if decide (length stableIds = 0%nat) then c
  else dispatch (mkDispatch (CallReorderTodos stableIds) false) c.

Definition reorderTodosById (draggedId targetId : JsString) (c : Client)
    : Client :=
  let current := optimisticTodos c in
  match findIndex draggedId current, findIndex targetId current with
  | Some fromIdx, Some toIdx =>
      match spliceOut (Z.of_nat fromIdx) current with
      | (Some moved, rest) =>
          let current := spliceIn (Z.of_nat toIdx) moved rest in
          let c := setOptimisticTodos current c in
          persistOrder (stableIdsOf current) c
      | (None, _) => c   (* not reached: [fromIdx] is an index of [current] *)
      end
  | _, _ => c
  end.

Definition handleDrop (draggedId targetId : JsString) (c : Client) : Client :=
  if decide (draggedId = [] ∨ draggedId = targetId) then c
  else reorderTodosById draggedId targetId c.

(** The part of [touchStartRef.current] that [handleTouchEnd] reads. *)
Record TouchState := mkTouchState {
  initialIndex : Z;   (* [findIndex] at touch start, [-1] when not found *)
  currentIndex : Z
}.

(** [handleTouchEnd], as far as the view and the store are concerned.
    [None]: [moved] is [undefined] and [t.id] throws on it. *)
Definition handleTouchEnd (touch : option TouchState) (c : Client)
    : option Client :=
  match touch with
  | None => Some c
  | Some t =>
      if decide (initialIndex t = currentIndex t) then Some c else
      match spliceOut (initialIndex t) (optimisticTodos c) with
      | (Some moved, rest) =>
          let current := spliceIn (currentIndex t) moved rest in
          let c := setOptimisticTodos current c in
          Some (persistOrder (stableIdsOf current) c)
      | (None, _) => None
      end
  end.

Definition onToggle (target : JsString) (c : Client) : Client :=
  let c := setOptimisticTodos
             ((λ t, if decide (id t = target)
                    then setCompleted (negb (completed t)) t else t)
                <$> optimisticTodos c) c in
  dispatch (mkDispatch (CallToggleTodo target) false) c.

Definition onDelete (target : JsString) (c : Client) : Client :=
  let c := setOptimisticTodos
             (filter (λ t, id t ≠ target) (optimisticTodos c)) c in
  dispatch (mkDispatch (CallDeleteTodo target) false) c.

Definition onClearCompleted (c : Client) : Client :=
  let c := setOptimisticTodos
             (filter (λ t, completed t = false) (optimisticTodos c)) c in
  dispatch (mkDispatch CallClearCompleted false) c.

(** *** Settling the calls in flight

    The handlers never await a call.  When its promise settles, the only
    code of the client that can run is the handler given to [.catch]; a
    rejection with no such handler is an unhandled rejection.  No code of
    the component writes the local view at that point: [settle] leaves the
    field [optimisticTodos] as the last handler has set it. *)

Definition runCall (newId : JsString) (sc : ServerCall) : Action ActionResult :=
  match sc with
  | CallAddTodo formData => addTodo newId formData
  | CallReorderTodos ids => reorderTodos ids
  | CallToggleTodo target => toggleTodo target
  | CallDeleteTodo target => deleteTodo target
  | CallClearCompleted => clearCompleted
  end.

Definition observe (d : Dispatch) (outcome : Settled ActionResult)
    (c : Client) : Client :=
  match outcome with
  | Fulfilled _ => c
  | Rejected e =>
      if hasCatch d then c
      else mkClient (optimisticTodos c) (inFlight c) (unhandledRejections c ++ [e])
  end.

(** Settle the call at index [k] of those in flight against the store
    (calls may land in any order). *)
Definition settle (newId : JsString) (k : nat) (c : Client) (w : World)
    : Client * World :=
  match inFlight c !! k with
  | None => (c, w)
  | Some d =>
      let '(outcome, w') := runCall newId (call d) w in
      (observe d outcome
         (mkClient (optimisticTodos c) (delete k (inFlight c))
            (unhandledRejections c)), w')
  end.

(* ================================================================== *)
(** ** Vocabulary of the properties *)
(* ================================================================== *)

(** The atomic call succeeds when the store answers and the database
    function is installed; it fails in every other case. *)
Definition rpcSucceeds (w : World) : bool :=
  match rpcMode w with
  | RpcInstalled => reachable w
  | RpcMissing | RpcThrows => false
  end.

(** The position writes of the fallback, as trace events. *)
Definition updateEvents (uuidIds : list JsString) : list Event :=
  (λ p, EvUpdatePosition p.1 p.2) <$> manualPositions uuidIds.

(** The identifiers an event writes a position for. *)
Definition positionWriteTargets (e : Event) : list JsString :=
  match e with
  | EvRpcReorder ids => ids
  | EvUpdatePosition target _ => [target]
  | _ => []
  end.

(** The per-item writes of the fallback are issued together and may land
    in any order; [applyWrites] applies them in a given order. *)
Definition applyWrites (writes : list (JsString * Z)) (rs : list Todo)
    : list Todo :=
  foldl (λ acc p, updatePositionWhere p.1 p.2 acc) rs writes.

(** What the user can do: each gesture runs one handler of the component. *)
Inductive Gesture :=
  | GAdd (now : N) (formData : FormData)
  | GDrop (draggedId targetId : JsString)
  | GTouchEnd (touch : option TouchState)
  | GToggle (target : JsString)
  | GDelete (target : JsString)
  | GClearCompleted.

(** The handler a gesture runs; [None] when the handler throws (only
    [handleTouchEnd] can, before it has called anything). *)
Definition handle (g : Gesture) (c : Client) : option Client :=
  match g with
  | GAdd now formData => Some (onAdd now formData c)
  | GDrop draggedId targetId => Some (handleDrop draggedId targetId c)
  | GTouchEnd touch => handleTouchEnd touch c
  | GToggle target => Some (onToggle target c)
  | GDelete target => Some (onDelete target c)
  | GClearCompleted => Some (onClearCompleted c)
  end.

(** A session moves when a handler runs or when a call in flight lands on
    the store. *)
Inductive sessionStep : relation (Client * World) :=
  | step_gesture (g : Gesture) (c c' : Client) (w : World) :
      handle g c = Some c' → sessionStep (c, w) (c', w)
  | step_settle (newId : JsString) (k : nat) (c : Client) (w : World) :
      sessionStep (c, w) (settle newId k c w).

(** A reorder request carries no identifier with the [temp-] prefix. *)
Definition stableDispatch (d : Dispatch) : Prop :=
  ∀ ids x, call d = CallReorderTodos ids → x ∈ ids →
           startsWith x (lit "temp-") = false.

Definition requestsAreStable (c : Client) : Prop :=
  Forall stableDispatch (inFlight c).

(** Every position written so far was for an identifier in durable
    format. *)
Definition writesAreDurable (w : World) : Prop :=
  ∀ e x, e ∈ trace w → x ∈ positionWriteTargets e → isUuid x = true.

(** The column [position integer] of the table (the schema of the README)
    holds the 32-bit signed integers.  On these the number arithmetic of
    the source ([Math.min], [minPos - 1]) is exact.  A position below
    [int4Min] is refused by the column, which [insertRow] does not model:
    the properties that rely on a row being inserted below the others ask
    for room below. *)
Definition int4Min : Z := -2147483648.

Definition int4Max : Z := 2147483647.

(** Every position is a value of the column, above its least one. *)
Definition hasRoomBelow (rs : list Todo) : Prop :=
  Forall (λ r, int4Min < position r ≤ int4Max) rs.

(* ================================================================== *)
(** ** Sample data *)
(* ================================================================== *)

Definition idA : JsString := lit "3f2b8c1e-9a4d-4e2b-8c1e-0123456789ab".
Definition idB : JsString := lit "AAAAAAAA-bbbb-1ccc-Bddd-eeeeeeeeeeee".
Definition idC : JsString := lit "00000000-0000-5000-9000-000000000000".
Definition idNew : JsString := lit "7c9e6679-7425-40de-944b-e07fc1f90ae7".

Definition buyMilk : FormData :=
  mkFormData (Some (FdString (lit "buy milk"))).

Definition freshClient : Client := mkClient [] [] [].

Definition emptyStore : World := mkWorld [] true RpcMissing [].

(** A store holding two rows, at positions 5 and 10. *)
Definition storeFiveTen : World :=
  mkWorld [mkTodo idA (lit "walk") false 5; mkTodo idB (lit "read") true 10]
    true RpcMissing [].

Definition milkAtFour : Todo := mkTodo idNew (textOf buyMilk) false 4.

(** A client whose view is the listing of [storeFiveTen]. *)
Definition clientFiveTen : Client := mkClient (rows storeFiveTen) [] [].

(** A store holding three rows in the order A, B, C. *)
Definition storeABC (mode : RpcMode) : World :=
  mkWorld [mkTodo idA (lit "walk") false 5; mkTodo idB (lit "read") true 10;
           mkTodo idC (lit "cook") false 11]
    true mode [].

(** A form whose text is only white space. *)
Definition blankForm : FormData :=
  mkFormData (Some (FdString (lit "   "))).

Definition busyClient : Client :=
  mkClient (rows storeFiveTen) [mkDispatch (CallToggleTodo idA) false] [].

(** The view and the store of the scenario "toggle, then at once delete, the
    same item": one row, shown by the client. *)
Definition storeOne : World :=
  mkWorld [mkTodo idA (lit "walk") false 5] true RpcMissing [].

Definition clientOne : Client := mkClient (rows storeOne) [] [].

(** Both intents applied locally; the calls in flight are the toggle (index
    0) and the delete (index 1). *)
Definition afterToggleDelete : Client := onDelete idA (onToggle idA clientOne).

(** The delete lands first, the toggle after it. *)
Definition deleteLanded : Client * World :=
  settle idNew 1 afterToggleDelete storeOne.

Definition toggleLanded : Client * World :=
  settle idNew 0 deleteLanded.1 deleteLanded.2.

(** An add whose durable call fails because the store does not answer. *)
Definition storeDown : World := mkWorld [] false RpcMissing [].

Definition addLanded : Client * World :=
  settle idNew 0 (onAdd 1700000000000 buyMilk freshClient) storeDown.

(** A session: the view shows the two rows of [storeFiveTen]; "buy milk" is
    added, the second row is dropped on the placeholder, then the add and
    the reorder land on the store in that order. *)
Definition afterAdd : Client := onAdd 1700000000000 buyMilk clientFiveTen.

Definition afterDrop : Client :=
  handleDrop idB (tempId 1700000000000) afterAdd.

Definition addThenReorderLanded : Client * World :=
  let s := settle idNew 0 afterDrop storeFiveTen in settle idNew 0 s.1 s.2.

(* ================================================================== *)
(** ** The rest of the component and of the library

    The page, the Supabase client, the counters of the footer and the
    touch handlers.  The numbers the browser supplies (coordinates of the
    touch, bounding rectangles) are floating-point values: they are kept
    abstract, with the comparison [<] on them as a parameter. *)
(* ================================================================== *)

(** [src/lib/supabaseClient.ts].  [process.env] as the function reads it. *)
Record ProcessEnv := mkProcessEnv {
  NEXT_PUBLIC_SUPABASE_URL : option JsString;       (* [None]: undefined *)
  NEXT_PUBLIC_SUPABASE_ANON_KEY : option JsString
}.

(** How a call of [getSupabase()] ends. *)
Inductive ClientResult (C : Type) :=
  | ClientReturned (client : C)
  | ThrowsEnvMissing               (* [throw new Error('Supabase env vars missing...')] *)
  | ThrowsInCreateClient.          (* an exception of [createClient] *)
Arguments ClientReturned {C} client.
Arguments ThrowsEnvMissing {C}.
Arguments ThrowsInCreateClient {C}.

(** [!v] for a value that is a string or [undefined]. *)
Definition isFalsy (v : option JsString) : bool :=
  match v with
  | None | Some [] => true
  | Some (_ :: _) => false
  end.

(** [getSupabase()], as a function of the module variable [cached]; the
    library function [createClient] is a parameter ([None]: it throws). *)
Definition getSupabase {C : Type}
    (createClient : JsString → JsString → option C)
    (env : ProcessEnv) (cached : option C) : ClientResult C * option C :=
  match cached with
  | Some client => (ClientReturned client, cached)
  | None =>
      let url := NEXT_PUBLIC_SUPABASE_URL env in
      let key := NEXT_PUBLIC_SUPABASE_ANON_KEY env in
      if isFalsy url || isFalsy key then (ThrowsEnvMissing, None) else
      match url, key with
      | Some url, Some key =>
          match createClient url key with
          | Some client => (ClientReturned client, Some client)
          | None => (ThrowsInCreateClient, None)
          end
      | _, _ => (ThrowsEnvMissing, None)   (* not reached: both are set *)
      end
  end.

(** Successive calls in one process, each with the environment it sees. *)
Fixpoint getSupabaseCalls {C : Type}
    (createClient : JsString → JsString → option C)
    (envs : list ProcessEnv) (cached : option C) : list (ClientResult C) :=
  match envs with
  | [] => []
  | env :: envs' =>
      let '(r, cached') := getSupabase createClient env cached in
      r :: getSupabaseCalls createClient envs' cached'
  end.

(** [Home] of the page: [const todos = await readTodos()], then
    [<TodoApp initial={todos} />]. *)
Definition Home : Action Client :=
  todos ← readTodos ; ret (mkClient todos [] []).

(** [const completedCount = optimisticTodos.filter((t) => t.completed).length] *)
Definition completedCount (todos : list Todo) : nat :=
  length (filter (λ t, completed t = true) todos).

(** [{optimisticTodos.length - completedCount} active] *)
Definition activeCount (todos : list Todo) : nat :=
  (length todos - completedCount todos)%nat.

(** [findIndex] as the number JavaScript returns. *)
Definition findIndexNumber (x : JsString) (arr : list Todo) : Z :=
  match findIndex x arr with
  | Some i => Z.of_nat i
  | None => -1
  end.

(** The indices [handleTouchStart] stores in [touchStartRef.current]. *)
Definition handleTouchStart (target : JsString) (c : Client) : TouchState :=
  let initialIndex := findIndexNumber target (optimisticTodos c) in
  mkTouchState initialIndex initialIndex.

(** An element of [document.querySelectorAll('[data-todo-id]')]:
    [isDragged] is [el === draggedElement], [centerY] is
    [rect.top + rect.height / 2]. *)
Record TodoElement (num : Type) := mkTodoElement {
  isDragged : bool;
  centerY : num
}.
Arguments mkTodoElement {num} isDragged centerY.
Arguments isDragged {num} _.
Arguments centerY {num} _.

(** The loop of [handleTouchMove] from index [i] on, [newIndex] being the
    value of the variable so far. *)
Fixpoint scanTodoElements {num : Type} (lessThan : num → num → bool)
    (draggedCenterY : num) (initialIndex : Z) (i : nat)
    (todoElements : list (TodoElement num)) (newIndex : Z) : Z :=
  match todoElements with
  | [] => newIndex
  | el :: rest =>
      if isDragged el then
        scanTodoElements lessThan draggedCenterY initialIndex (S i) rest newIndex
      else if lessThan draggedCenterY (centerY el) then
        Z.min (Z.of_nat i) initialIndex
      else
        scanTodoElements lessThan draggedCenterY initialIndex (S i) rest
          (Z.max (Z.of_nat i) initialIndex)
  end.

(** [let newIndex = initialIndex; for (let i = 0; ...) { ... }] *)
Definition targetIndex {num : Type} (lessThan : num → num → bool)
    (draggedCenterY : num) (initialIndex : Z)
    (todoElements : list (TodoElement num)) : Z :=
  scanTodoElements lessThan draggedCenterY initialIndex 0 todoElements
    initialIndex.

(** [handleTouchMove], as far as [touchStartRef.current] is concerned.
    [smallMove] is the value of [absDeltaY <= 10]. *)
Definition handleTouchMove {num : Type} (lessThan : num → num → bool)
    (smallMove isDeleteMode : bool) (draggedCenterY : num)
    (todoElements : list (TodoElement num)) (touch : option TouchState)
    : option TouchState :=
  if smallMove && negb isDeleteMode then touch else
  match touch with
  | None => None
  | Some t =>
      let newIndex :=
        targetIndex lessThan draggedCenterY (initialIndex t) todoElements in
      if decide (newIndex = currentIndex t) then Some t
      else Some (mkTouchState (initialIndex t) newIndex)
  end.

(** The [offset] [updateTodoPositions] gives the element at [index] (the
    dragged element itself is skipped): it is the number of slots the
    element is shown displaced by. *)
Definition shiftOffset (fromIndex toIndex index : Z) : Z :=
  if fromIndex <? toIndex then
    if (fromIndex <? index) && (index <=? toIndex) then -1 else 0
  else
    if (toIndex <=? index) && (index <? fromIndex) then 1 else 0.

(** A text as the data model wants it: not empty, with no white space at
    either end. *)
Definition trimmedText (t : JsString) : Prop :=
  t ≠ []
  ∧ (∀ c, head t = Some c → isWhiteSpace c = false)
  ∧ (∀ c, last t = Some c → isWhiteSpace c = false).

(** Two calls in flight settle: first the one at index [k], then the one
    that is left. *)
Definition settleBoth (newId : JsString) (k : nat) (c : Client) (w : World)
    : Client * World :=
  let '(c', w') := settle newId k c w in settle newId 0 c' w'.

(** More sample data. *)
Definition envReady : ProcessEnv :=
  mkProcessEnv (Some (lit "https://db.example")) (Some (lit "anon-key")).

Definition envNoKey : ProcessEnv :=
  mkProcessEnv (Some (lit "https://db.example")) None.

(** A [createClient] that never throws; the client is the pair it was
    made from. *)
Definition pairClient (url key : JsString) : option (JsString * JsString) :=
  Some (url, key).

Definition clientABC : Client :=
  mkClient (rows (storeABC RpcMissing)) [] [].

(** Three rendered elements, the dragged one last; the dragged centre
    (at 15) is above the centre of the second element only. *)
Definition elementsDragLast : list (TodoElement Z) :=
  [mkTodoElement false 10; mkTodoElement false 20; mkTodoElement true 30].

(** Three rendered elements, the dragged one first. *)
Definition elementsDragFirst : list (TodoElement Z) :=
  [mkTodoElement true 10; mkTodoElement false 20; mkTodoElement false 30].

(* ================================================================== *)
(** ** Insertion positions *)
(* ================================================================== *)

Lemma foldl_min_le_init (l : list Z) (a : Z) : foldl Z.min a l ≤ a.
Proof.
  revert a. induction l as [|x l IH]; intros a; simpl; [lia|].
  specialize (IH (Z.min a x)). lia.
Qed.

Lemma foldl_min_le_elem (l : list Z) (a x : Z) :
  x ∈ l → foldl Z.min a l ≤ x.
Proof.
  revert a. induction l as [|y l IH]; intros a Hx.
  - by apply elem_of_nil in Hx.
  - simpl. apply elem_of_cons in Hx as [->|Hx]; [|by apply IH].
    pose proof (foldl_min_le_init l (Z.min a y)). lia.
Qed.

Lemma foldl_min_elem (l : list Z) (a : Z) : foldl Z.min a l ∈ a :: l.
Proof.
  revert a. induction l as [|y l IH]; intros a; simpl; [left|].
  destruct (proj1 (elem_of_cons _ _ _) (IH (Z.min a y))) as [Heq|Hin].
  - rewrite Heq. destruct (Z.min_spec a y) as [[_ ->]|[_ ->]];
      [left | right; left].
  - by do 2 right.
Qed.

Lemma minOrZero_lower_bound (ps : list Z) (p : Z) :
  p ∈ ps → minOrZero ps ≤ p.
Proof.
  destruct ps as [|a l]; intros Hp; [by apply elem_of_nil in Hp|].
  simpl. apply elem_of_cons in Hp as [->|Hp].
  - apply foldl_min_le_init.
  - by apply foldl_min_le_elem.
Qed.

Lemma minOrZero_elem (ps : list Z) : ps ≠ [] → minOrZero ps ∈ ps.
Proof. destruct ps as [|a l]; [done|]. intros _. apply foldl_min_elem. Qed.

Lemma minOrZero_Permutation (ps qs : list Z) :
  ps ≡ₚ qs → minOrZero ps = minOrZero qs.
Proof.
  intros Hperm. destruct ps as [|a l].
  - by apply Permutation_nil in Hperm as ->.
  - assert (qs ≠ []) as Hq.
    { intros ->. by apply Permutation_nil_r in Hperm. }
    assert (minOrZero (a :: l) ∈ qs) as H1.
    { rewrite <- Hperm. by apply minOrZero_elem. }
    assert (minOrZero qs ∈ a :: l) as H2.
    { rewrite Hperm. by apply minOrZero_elem. }
    apply minOrZero_lower_bound in H1, H2. lia.
Qed.

Lemma minPos_Permutation (xs ys : list Todo) :
  xs ≡ₚ ys → minPos xs = minPos ys.
Proof. intros H. apply minOrZero_Permutation. by rewrite H. Qed.

Lemma optimisticMinPos_minPos (todos : list Todo) :
  optimisticMinPos todos = minPos todos.
Proof. reflexivity. Qed.

Lemma newPos_below (todos : list Todo) (t : Todo) :
  t ∈ todos → newPos todos < position t.
Proof.
  intros Ht. unfold newPos, minPos.
  assert (minOrZero (position <$> todos) ≤ position t); [|lia].
  apply minOrZero_lower_bound. by apply list_elem_of_fmap_2.
Qed.

(** With room below, the position of a new row is a value of the column. *)
Lemma newPos_in_column (todos : list Todo) :
  hasRoomBelow todos → int4Min ≤ newPos todos ≤ int4Max.
Proof.
  intros Hroom. unfold newPos, minPos.
  destruct (decide (todos = [])) as [->|Hne]; [by unfold int4Min, int4Max|].
  assert (minOrZero (position <$> todos) ∈ position <$> todos) as Hin
    by (apply minOrZero_elem; by destruct todos).
  apply list_elem_of_fmap in Hin as (t & -> & Ht).
  unfold hasRoomBelow in Hroom. rewrite Forall_forall in Hroom.
  specialize (Hroom t Ht). lia.
Qed.

(* ================================================================== *)
(** ** Running the actions *)
(* ================================================================== *)

Lemma bind_Fulfilled {A B} (m : Action A) (k : A → Action B)
    (w w' : World) (a : A) :
  m w = (Fulfilled a, w') → (m ≫= k) w = k a w'.
Proof. intros H. unfold mbind, Action_bind. by rewrite H. Qed.

Lemma bind_Rejected {A B} (m : Action A) (k : A → Action B)
    (w w' : World) (e : StoreError) :
  m w = (Rejected e, w') → (m ≫= k) w = (Rejected e, w').
Proof. intros H. unfold mbind, Action_bind. by rewrite H. Qed.

(** Unfold the monad and the store calls, then compute. *)
Ltac run_store :=
  unfold selectOrdered, insertRow, rpcReorderTodos, updatePosition,
    selectCompletedSingle, updateCompleted, deleteById, deleteCompleted,
    revalidatePath, tryCatch, throw, ret, emit, getRows, setRows,
    isReachable, getRpcMode, mbind, Action_bind, mret, Action_ret;
  simpl.

Lemma fetchTodos_run (w : World) :
  reachable w = true →
  fetchTodos w =
    (Fulfilled (orderByPosition (rows w)),
     mkWorld (rows w) true (rpcMode w) (trace w ++ [EvSelectOrdered])).
Proof.
  destruct w as [rs up mode tr]. simpl. intros ->.
  unfold fetchTodos. by run_store.
Qed.

Lemma fetchTodos_unreachable (w : World) :
  reachable w = false →
  fetchTodos w =
    (Rejected StoreUnavailable,
     mkWorld (rows w) false (rpcMode w) (trace w ++ [EvSelectOrdered])).
Proof.
  destruct w as [rs up mode tr]. simpl. intros ->.
  unfold fetchTodos. by run_store.
Qed.

Lemma addTodo_empty_text (newId : JsString) (formData : FormData) (w : World) :
  textOf formData = [] →
  addTodo newId formData w = (Fulfilled (ResFail (lit "Empty")), w).
Proof. intros H. unfold addTodo. rewrite decide_True by done. reflexivity. Qed.

Lemma addTodo_unreachable (newId : JsString) (formData : FormData) (w : World) :
  textOf formData ≠ [] → reachable w = false →
  (addTodo newId formData w).1 = Rejected StoreUnavailable.
Proof.
  intros Htext Hup. unfold addTodo. rewrite decide_False by done.
  destruct w as [rs up mode tr]. simpl in *. subst up.
  unfold fetchTodos. by run_store.
Qed.

Lemma addTodo_run (newId : JsString) (formData : FormData) (w : World) :
  textOf formData ≠ [] → reachable w = true → newId ∉ id <$> rows w →
  let row := mkTodo newId (textOf formData) false
               (newPos (orderByPosition (rows w))) in
  addTodo newId formData w =
    (Fulfilled ResOk,
     mkWorld (rows w ++ [row]) true (rpcMode w)
       (trace w ++ [EvSelectOrdered; EvInsert row; EvRevalidate])).
Proof.
  intros Htext Hup Hfresh row. unfold addTodo. rewrite decide_False by done.
  destruct w as [rs up mode tr]. simpl in *. subst up.
  unfold fetchTodos. run_store. rewrite decide_False by done.
  simpl. by rewrite <- !app_assoc.
Qed.

(** *** [ORDER BY position] *)

#[global] Instance positionLe_trans : Transitive positionLe.
Proof. intros a b c. unfold positionLe. lia. Qed.

#[global] Instance positionLe_total : Total positionLe.
Proof. intros a b. unfold positionLe. lia. Qed.

Lemma orderByPosition_Permutation (rs : list Todo) : orderByPosition rs ≡ₚ rs.
Proof. apply merge_sort_Permutation. Qed.

Lemma orderByPosition_Sorted (rs : list Todo) :
  StronglySorted positionLe (orderByPosition rs).
Proof. apply StronglySorted_merge_sort; apply _. Qed.

Lemma newPos_orderByPosition (rs : list Todo) :
  newPos (orderByPosition rs) = newPos rs.
Proof.
  unfold newPos. f_equal. apply minPos_Permutation, orderByPosition_Permutation.
Qed.

(** A row strictly below every other row is the first of any listing in
    position order. *)
Lemma sorted_head_least (l rs : list Todo) (row : Todo) :
  StronglySorted positionLe l → l ≡ₚ rs ++ [row] →
  (∀ t, t ∈ rs → position row < position t) →
  head l = Some row.
Proof.
  intros Hsorted Hperm Hbelow.
  destruct l as [|x l'].
  { apply Permutation_nil in Hperm. by destruct rs. }
  simpl. f_equal.
  destruct (decide (x = row)) as [|Hne]; [done|exfalso].
  apply StronglySorted_inv in Hsorted as [_ Hhd].
  rewrite Forall_forall in Hhd.
  assert (row ∈ x :: l') as Hrow.
  { rewrite Hperm. apply elem_of_app. right. by left. }
  assert (x ∈ rs ++ [row]) as Hx.
  { rewrite <- Hperm. by left. }
  apply elem_of_cons in Hrow as [|Hrow]; [done|].
  apply elem_of_app in Hx as [Hx|Hx].
  - specialize (Hhd _ Hrow). specialize (Hbelow _ Hx).
    unfold positionLe in Hhd. lia.
  - apply list_elem_of_singleton in Hx. done.
Qed.

(* ================================================================== *)
(** ** Reordering *)
(* ================================================================== *)

Lemma promiseAll_updates (i : nat) (ids : list JsString) (w : World) :
  promiseAll ((λ p, updatePosition p.1 p.2)
                <$> imap (λ k x, (x, Z.of_nat (i + k))) ids) w =
  (Fulfilled (replicate (length ids)
                (if reachable w then RespData tt
                 else RespError StoreUnavailable)),
   mkWorld (if reachable w then applyFullOrder i ids (rows w) else rows w)
     (reachable w) (rpcMode w)
     (trace w ++ ((λ p, EvUpdatePosition p.1 p.2)
                    <$> imap (λ k x, (x, Z.of_nat (i + k))) ids))).
Proof.
  revert i w. induction ids as [|x ids IH]; intros i w.
  - destruct w as [rs up mode tr]. simpl. rewrite app_nil_r.
    unfold mret, Action_ret. by destruct up.
  - rewrite imap_cons.
    rewrite (imap_ext _ (λ k y, (y, Z.of_nat (S i + k)))).
    2:{ intros k y _. simpl. do 2 f_equal. lia. }
    rewrite !fmap_cons. cbn [promiseAll].
    set (w1 := mkWorld
                 (if reachable w then updatePositionWhere x (Z.of_nat i) (rows w)
                  else rows w)
                 (reachable w) (rpcMode w)
                 (trace w ++ [EvUpdatePosition x (Z.of_nat i)])).
    assert (updatePosition x (Z.of_nat (i + 0)) w =
            (Fulfilled (if reachable w then RespData tt
                        else RespError StoreUnavailable), w1)) as Hfirst.
    { rewrite Nat.add_0_r. subst w1. destruct w as [rs [] mode tr];
        by run_store. }
    erewrite bind_Fulfilled by exact Hfirst.
    erewrite bind_Fulfilled by apply IH.
    unfold ret, mret, Action_ret. subst w1. simpl.
    rewrite Nat.add_0_r, <- app_assoc. simpl.
    by destruct (reachable w).
Qed.

Lemma promiseAll_manualUpdates (ids : list JsString) (w : World) :
  promiseAll (manualUpdates ids) w =
  (Fulfilled (replicate (length ids)
                (if reachable w then RespData tt
                 else RespError StoreUnavailable)),
   mkWorld (if reachable w then applyFullOrder 0 ids (rows w) else rows w)
     (reachable w) (rpcMode w) (trace w ++ updateEvents ids)).
Proof. apply (promiseAll_updates 0). Qed.

Lemma tryRpc_succeeds (u : list JsString) (w : World) :
  rpcSucceeds w = true →
  tryRpc u w =
    (Fulfilled (Some ResOk),
     mkWorld (applyFullOrder 0 u (rows w)) (reachable w) (rpcMode w)
       (trace w ++ [EvRpcReorder u; EvRevalidate])).
Proof.
  destruct w as [rs up mode tr]. unfold rpcSucceeds. simpl.
  destruct mode; try done. intros ->.
  unfold tryRpc. run_store. by rewrite <- app_assoc.
Qed.

Lemma tryRpc_fails (u : list JsString) (w : World) :
  rpcSucceeds w = false →
  tryRpc u w =
    (Fulfilled None,
     mkWorld (rows w) (reachable w) (rpcMode w) (trace w ++ [EvRpcReorder u])).
Proof.
  destruct w as [rs up mode tr]. unfold rpcSucceeds. simpl.
  destruct mode; [intros ->|intros _..]; unfold tryRpc; by run_store.
Qed.

Lemma reorderTodos_nothing_durable (ids : list JsString) (w : World) :
  filter (λ x, isUuid x = true) ids = [] →
  reorderTodos ids w = (Fulfilled ResOk, w).
Proof. intros H. unfold reorderTodos. rewrite H. reflexivity. Qed.

Lemma reorderTodos_atomic (ids : list JsString) (w : World) :
  let u := filter (λ x, isUuid x = true) ids in
  u ≠ [] → rpcSucceeds w = true →
  reorderTodos ids w =
    (Fulfilled ResOk,
     mkWorld (applyFullOrder 0 u (rows w)) (reachable w) (rpcMode w)
       (trace w ++ [EvRpcReorder u; EvRevalidate])).
Proof.
  intros u Hu Hrpc. unfold reorderTodos. fold u.
  rewrite decide_False by (by destruct u).
  erewrite bind_Fulfilled by (by apply tryRpc_succeeds).
  reflexivity.
Qed.

Lemma reorderTodos_fallback (ids : list JsString) (w : World) :
  let u := filter (λ x, isUuid x = true) ids in
  u ≠ [] → rpcSucceeds w = false →
  reorderTodos ids w =
    (Fulfilled ResOk,
     mkWorld (if reachable w then applyFullOrder 0 u (rows w) else rows w)
       (reachable w) (rpcMode w)
       (trace w ++ EvRpcReorder u :: updateEvents u ++ [EvRevalidate])).
Proof.
  intros u Hu Hrpc. unfold reorderTodos. fold u.
  rewrite decide_False by (by destruct u).
  erewrite bind_Fulfilled by (by apply tryRpc_fails).
  cbv beta iota.
  erewrite bind_Fulfilled by apply promiseAll_manualUpdates.
  run_store. rewrite <- !app_assoc. reflexivity.
Qed.

(** *** What the position writes do to the table *)

Lemma updatePositionWhere_ids (x : JsString) (p : Z) (rs : list Todo) :
  id <$> updatePositionWhere x p rs = id <$> rs.
Proof.
  unfold updatePositionWhere. rewrite <- list_fmap_compose.
  apply list_fmap_ext. intros _ r _. simpl. by case_decide.
Qed.

Lemma applyFullOrder_ids (i : nat) (ids : list JsString) (rs : list Todo) :
  id <$> applyFullOrder i ids rs = id <$> rs.
Proof.
  revert i rs. induction ids as [|x ids IH]; intros i rs; simpl; [done|].
  by rewrite IH, updatePositionWhere_ids.
Qed.

Lemma applyFullOrder_untouched (i : nat) (ids : list JsString)
    (rs : list Todo) (j : nat) (r : Todo) :
  id r ∉ ids → rs !! j = Some r → applyFullOrder i ids rs !! j = Some r.
Proof.
  revert i rs. induction ids as [|x ids IH]; intros i rs Hnot Hj; simpl; [done|].
  apply not_elem_of_cons in Hnot as [Hne Hnot].
  apply IH; [done|]. unfold updatePositionWhere.
  rewrite list_lookup_fmap, Hj. simpl. by rewrite decide_False.
Qed.

(** With distinct identifiers, the row whose identifier is the [k]-th of the
    list ends at position [i + k], its other fields unchanged. *)
Lemma applyFullOrder_assigned (i : nat) (ids : list JsString)
    (rs : list Todo) (j k : nat) (r : Todo) :
  NoDup ids → rs !! j = Some r → ids !! k = Some (id r) →
  applyFullOrder i ids rs !! j = Some (setPosition (Z.of_nat (i + k)) r).
Proof.
  revert i rs k r. induction ids as [|x ids IH]; intros i rs k r Hnd Hj Hk;
    [done|].
  apply NoDup_cons in Hnd as [Hx Hnd]. simpl. destruct k as [|k].
  - simpl in Hk. injection Hk as ->. rewrite Nat.add_0_r.
    apply applyFullOrder_untouched; [done|].
    unfold updatePositionWhere. rewrite list_lookup_fmap, Hj. simpl.
    by rewrite decide_True.
  - simpl in Hk. replace (i + S k)%nat with (S i + k)%nat by lia.
    apply IH; [done| |done].
    unfold updatePositionWhere. rewrite list_lookup_fmap, Hj. simpl.
    rewrite decide_False; [done|].
    intros Heq. apply Hx. rewrite <- Heq. by eapply list_elem_of_lookup_2.
Qed.

(** *** A listing in position order follows the assigned positions *)

Lemma NoDup_fmap_elem_inj {A B} (f : A → B) (l : list A) (x y : A) :
  NoDup (f <$> l) → x ∈ l → y ∈ l → f x = f y → x = y.
Proof.
  intros Hnd Hx Hy Hf.
  apply list_elem_of_lookup_1 in Hx as [i Hi].
  apply list_elem_of_lookup_1 in Hy as [j Hj].
  assert (i = j) as ->; [|congruence].
  eapply (NoDup_lookup _ _ _ (f x) Hnd).
  - by rewrite list_lookup_fmap, Hi.
  - by rewrite list_lookup_fmap, Hj, Hf.
Qed.

Lemma StronglySorted_le_seq (i n : nat) : StronglySorted le (seq i n).
Proof.
  revert i. induction n as [|n IH]; intros i; simpl; constructor; [apply IH|].
  apply Forall_forall. intros k Hk. apply elem_of_seq in Hk. lia.
Qed.

Lemma listing_in_given_order (ids : list JsString) (l : list Todo) :
  NoDup (id <$> l) → length l = length ids →
  StronglySorted positionLe l →
  (∀ r, r ∈ l → ∃ k, ids !! k = Some (id r) ∧ position r = Z.of_nat k) →
  id <$> l = ids.
Proof.
  intros Hnd Hlen Hsorted Hpos.
  set (P := (λ r, Z.to_nat (position r)) <$> l).
  assert (P = seq 0 (length ids)) as HP.
  { apply (StronglySorted_unique le).
    - apply (StronglySorted_fmap _ positionLe); [|done].
      unfold positionLe. intros x y Hxy. lia.
    - apply StronglySorted_le_seq.
    - apply submseteq_length_Permutation.
      + apply NoDup_submseteq.
        * apply NoDup_fmap_2_strong; [|by eapply NoDup_fmap_1].
          intros x y Hx Hy Hxy.
          destruct (Hpos x Hx) as (kx & Hkx & Hpx).
          destruct (Hpos y Hy) as (ky & Hky & Hpy).
          apply (NoDup_fmap_elem_inj id l); [done..|].
          assert (kx = ky) by lia. congruence.
        * intros p Hp. apply list_elem_of_fmap in Hp as (r & -> & Hr).
          destruct (Hpos r Hr) as (k & Hk & Hpk).
          apply lookup_lt_Some in Hk. apply elem_of_seq. lia.
      + unfold P. rewrite length_fmap, length_seq. lia. }
  apply list_eq. intros j. rewrite list_lookup_fmap.
  destruct (l !! j) as [r|] eqn:Hj; simpl.
  - destruct (Hpos r) as (k & Hk & Hpk); [by eapply list_elem_of_lookup_2|].
    assert (P !! j = Some (Z.to_nat (position r))) as HPj.
    { unfold P. by rewrite list_lookup_fmap, Hj. }
    rewrite HP in HPj. apply lookup_seq in HPj as [HPj _].
    assert (k = j) as -> by lia. done.
  - symmetry. apply lookup_ge_None. apply lookup_ge_None in Hj. lia.
Qed.

(* ================================================================== *)
(** ** Properties of insertion *)
(* ================================================================== *)

(** C1, as stated, fails: inserting "buy milk" into an empty list gives the
    new item position -1, not 0, in the local view and in the store. *)
Lemma insert_into_empty_is_not_zero :
  newPos [] ≠ 0
  ∧ position <$> optimisticTodos (onAdd 1700000000000 buyMilk freshClient) ≠ [0]
  ∧ position <$> rows (addTodo idNew buyMilk emptyStore).2 ≠ [0].
Proof. vm_compute. repeat split; discriminate. Qed.

(** C1 (amended): an insert into an empty list assigns position -1 (the
    minimum defaults to 0 on the empty list and the new position is that
    minus one): the placeholder of the local view has position -1, and so
    has the single row a later [fetchTodos] returns. *)
Theorem insert_into_empty_list (now : N) (newId : JsString)
    (formData : FormData) (c : Client) (w : World) :
  textOf formData ≠ [] → optimisticTodos c = [] →
  rows w = [] → reachable w = true →
  newPos [] = -1
  ∧ optimisticTodos (onAdd now formData c)
    = [mkTodo (tempId now) (textOf formData) false (-1)]
  ∧ (addTodo newId formData w).1 = Fulfilled ResOk
  ∧ (fetchTodos (addTodo newId formData w).2).1
    = Fulfilled [mkTodo newId (textOf formData) false (-1)].
Proof.
  intros Htext Hview Hrows Hup. split; [done|]. split.
  - unfold onAdd. rewrite decide_False by done. simpl. by rewrite Hview.
  - rewrite addTodo_run; [|done|done|].
    2:{ rewrite Hrows. apply not_elem_of_nil. }
    cbn [fst snd]. split; [done|]. rewrite fetchTodos_run by done.
    cbn [fst snd rows]. by rewrite Hrows.
Qed.

Lemma insert_into_empty_list_witness :
  newPos [] = -1
  ∧ optimisticTodos (onAdd 1700000000000 buyMilk freshClient)
    = [mkTodo (tempId 1700000000000) (textOf buyMilk) false (-1)]
  ∧ (addTodo idNew buyMilk emptyStore).1 = Fulfilled ResOk
  ∧ (fetchTodos (addTodo idNew buyMilk emptyStore).2).1
    = Fulfilled [mkTodo idNew (textOf buyMilk) false (-1)].
Proof.
  apply (insert_into_empty_list 1700000000000 idNew buyMilk freshClient
           emptyStore); [vm_compute; discriminate|reflexivity..].
Defined.

(** C4: on a non-empty list whose positions are values of the column, with
    room below the least, the position given to a new item is strictly
    below every position present (it is the minimum present minus one) and
    is a value of the column; the existing rows keep their positions, and
    the new row comes first in position order; with positions 5 and 10 the
    new item gets 4. *)
Theorem insert_below_minimum (newId : JsString) (formData : FormData)
    (w : World) :
  rows w ≠ [] → reachable w = true →
  textOf formData ≠ [] → newId ∉ id <$> rows w →
  hasRoomBelow (rows w) →
  let row := mkTodo newId (textOf formData) false (newPos (rows w)) in
  (∀ t, t ∈ rows w → position row < position t)
  ∧ position row + 1 ∈ position <$> rows w
  ∧ int4Min ≤ position row ≤ int4Max
  ∧ (addTodo newId formData w).1 = Fulfilled ResOk
  ∧ rows (addTodo newId formData w).2 = rows w ++ [row]
  ∧ (∃ rest, (fetchTodos (addTodo newId formData w).2).1
             = Fulfilled (row :: rest))
  ∧ (∀ a b, position a = 5 → position b = 10 → newPos [a; b] = 4).
Proof.
  intros Hne Hup Htext Hfresh Hroom row.
  split; [intros t Ht; by apply newPos_below|].
  split.
  { unfold row, newPos, minPos. simpl.
    replace (minOrZero (position <$> rows w) - 1 + 1)
      with (minOrZero (position <$> rows w)) by lia.
    apply minOrZero_elem. by destruct (rows w). }
  split; [by apply newPos_in_column|].
  rewrite addTodo_run by done. cbn [fst snd rows].
  rewrite newPos_orderByPosition. fold row.
  split; [done|]. split; [done|]. split.
  - rewrite fetchTodos_run by done. cbn [fst snd rows].
    pose proof (sorted_head_least (orderByPosition (rows w ++ [row]))
                  (rows w) row (orderByPosition_Sorted _)
                  (orderByPosition_Permutation _)) as Hhead.
    destruct (orderByPosition (rows w ++ [row])) as [|x rest].
    + discriminate Hhead. intros t Ht. by apply newPos_below.
    + exists rest. do 2 f_equal.
      assert (Some x = Some row) as [= ->]; [|done].
      apply Hhead. intros t Ht. by apply newPos_below.
  - intros a b Ha Hb. unfold newPos, minPos. simpl. rewrite Ha, Hb. done.
Qed.

Lemma insert_below_minimum_witness :
  (∀ t, t ∈ rows storeFiveTen → position milkAtFour < position t)
  ∧ position milkAtFour + 1 ∈ position <$> rows storeFiveTen
  ∧ int4Min ≤ position milkAtFour ≤ int4Max
  ∧ (addTodo idNew buyMilk storeFiveTen).1 = Fulfilled ResOk
  ∧ rows (addTodo idNew buyMilk storeFiveTen).2
    = rows storeFiveTen ++ [milkAtFour]
  ∧ (∃ rest, (fetchTodos (addTodo idNew buyMilk storeFiveTen).2).1
             = Fulfilled (milkAtFour :: rest))
  ∧ (∀ a b, position a = 5 → position b = 10 → newPos [a; b] = 4).
Proof.
  apply (insert_below_minimum idNew buyMilk storeFiveTen).
  - discriminate.
  - reflexivity.
  - vm_compute. discriminate.
  - apply (bool_decide_unpack _). vm_compute. exact I.
  - apply (bool_decide_unpack _). vm_compute. exact I.
Defined.

(** C9: for the same list state the position the client gives the
    placeholder equals the position the server gives the durable row; both
    are the minimum present (0 on the empty list) minus one. *)
Theorem optimistic_position_is_durable_position (now : N)
    (newId : JsString) (formData : FormData) (c : Client) (w : World) :
  textOf formData ≠ [] → reachable w = true → newId ∉ id <$> rows w →
  optimisticTodos c ≡ₚ rows w →
  (∀ todos, optimisticMinPos todos - 1 = newPos todos)
  ∧ ∃ temp row,
      head (optimisticTodos (onAdd now formData c)) = Some temp
      ∧ last (rows (addTodo newId formData w).2) = Some row
      ∧ id temp = tempId now ∧ id row = newId
      ∧ position temp = position row
      ∧ (rows w = [] → position row = -1)
      ∧ (rows w ≠ [] →
         position row + 1 ∈ position <$> rows w
         ∧ ∀ t, t ∈ rows w → position row + 1 ≤ position t).
Proof.
  intros Htext Hup Hfresh Hperm. split; [done|].
  exists (mkTodo (tempId now) (textOf formData) false
            (optimisticMinPos (optimisticTodos c) - 1)),
         (mkTodo newId (textOf formData) false (newPos (rows w))).
  split.
  { unfold onAdd. by rewrite decide_False by done. }
  split.
  { rewrite addTodo_run by done. cbn [fst snd rows].
    by rewrite newPos_orderByPosition, last_snoc. }
  do 2 (split; [done|]). simpl. split.
  { rewrite optimisticMinPos_minPos. unfold newPos. f_equal.
    by apply minPos_Permutation. }
  split.
  - intros ->. done.
  - intros Hne. unfold newPos, minPos.
    replace (minOrZero (position <$> rows w) - 1 + 1)
      with (minOrZero (position <$> rows w)) by lia.
    split.
    + apply minOrZero_elem. by destruct (rows w).
    + intros t Ht. apply minOrZero_lower_bound. by apply list_elem_of_fmap_2.
Qed.

Lemma optimistic_position_is_durable_position_witness :
  (∀ todos, optimisticMinPos todos - 1 = newPos todos)
  ∧ ∃ temp row,
      head (optimisticTodos (onAdd 1700000000000 buyMilk clientFiveTen))
      = Some temp
      ∧ last (rows (addTodo idNew buyMilk storeFiveTen).2) = Some row
      ∧ id temp = tempId 1700000000000 ∧ id row = idNew
      ∧ position temp = position row
      ∧ (rows storeFiveTen = [] → position row = -1)
      ∧ (rows storeFiveTen ≠ [] →
         position row + 1 ∈ position <$> rows storeFiveTen
         ∧ ∀ t, t ∈ rows storeFiveTen → position row + 1 ≤ position t).
Proof.
  apply (optimistic_position_is_durable_position 1700000000000 idNew buyMilk
           clientFiveTen storeFiveTen).
  - vm_compute. discriminate.
  - reflexivity.
  - apply (bool_decide_unpack _). vm_compute. exact I.
  - reflexivity.
Defined.

(* ================================================================== *)
(** ** Placeholder identifiers *)
(* ================================================================== *)

Lemma startsWith_app (p s : JsString) : startsWith (p ++ s) p = true.
Proof. induction p as [|c p IH]; [done|]. simpl. by rewrite N.eqb_refl. Qed.

(** No string that begins with [temp-] matches the expression: [t] is not a
    hexadecimal digit. *)
Lemma temp_prefix_not_uuid (s : JsString) :
  startsWith s (lit "temp-") = true → isUuid s = false.
Proof.
  change (lit "temp-") with [116; 101; 109; 112; 45]%N.
  destruct s as [|c s]; [done|]. simpl.
  destruct (N.eqb_spec c 116) as [->|]; [|done]. intros _. reflexivity.
Qed.

Lemma digitsOfUint_digits (d : Decimal.uint) :
  Forall (λ c, isDecimalDigit c = true) (digitsOfUint d).
Proof. induction d; simpl; constructor; done. Qed.

Lemma numberToString_nonempty (n : N) : numberToString n ≠ [].
Proof.
  unfold numberToString. destruct n as [|p]; [done|]. simpl.
  pose proof (DecimalPos.Unsigned.to_uint_nonnil p) as Hnil.
  by destruct (Pos.to_uint p).
Qed.

Lemma updateEvents_targets (u : list JsString) (e : Event) (x : JsString) :
  e ∈ updateEvents u → x ∈ positionWriteTargets e → x ∈ u.
Proof.
  unfold updateEvents, manualPositions. intros He Hx.
  apply list_elem_of_fmap in He as ([y p] & -> & Hin).
  apply list_elem_of_lookup_1 in Hin as [i Hi].
  rewrite list_lookup_imap in Hi.
  destruct (u !! i) as [z|] eqn:Hz; [|done]. simpl in Hi, Hx.
  injection Hi as <- <-. apply list_elem_of_singleton in Hx as ->.
  by eapply list_elem_of_lookup_2.
Qed.

(** Whatever the request and the store, [reorderTodos] resolves to
    [{ ok: true }], and each position it writes is for an identifier of the
    request that matches the expression. *)
Lemma reorderTodos_writes (ids : list JsString) (w : World) :
  (reorderTodos ids w).1 = Fulfilled ResOk
  ∧ ∃ evs, trace (reorderTodos ids w).2 = trace w ++ evs
      ∧ ∀ e x, e ∈ evs → x ∈ positionWriteTargets e →
               x ∈ filter (λ y, isUuid y = true) ids.
Proof.
  destruct (decide (filter (λ y, isUuid y = true) ids = [])) as [Hnil|Hne].
  - rewrite reorderTodos_nothing_durable by done. split; [done|].
    exists []. split; [by rewrite app_nil_r|]. intros e x He.
    by apply elem_of_nil in He.
  - destruct (rpcSucceeds w) eqn:Hrpc.
    + rewrite reorderTodos_atomic by done. split; [done|].
      eexists. split; [reflexivity|]. intros e x He Hx.
      apply elem_of_cons in He as [->|He]; [done|].
      apply list_elem_of_singleton in He as ->. by apply elem_of_nil in Hx.
    + rewrite reorderTodos_fallback by done. split; [done|].
      eexists. split; [reflexivity|]. intros e x He Hx.
      apply elem_of_cons in He as [->|He]; [done|].
      apply elem_of_app in He as [He|He].
      * by eapply updateEvents_targets.
      * apply list_elem_of_singleton in He as ->. by apply elem_of_nil in Hx.
Qed.

(* ================================================================== *)
(** ** What a reorder sends to the store *)
(* ================================================================== *)

Lemma stableIdsOf_no_temp (current : list Todo) (x : JsString) :
  x ∈ stableIdsOf current → startsWith x (lit "temp-") = false.
Proof. intros Hx. by apply list_elem_of_filter in Hx as [? _]. Qed.

Lemma persistOrder_view (stable : list JsString) (c : Client) :
  optimisticTodos (persistOrder stable c) = optimisticTodos c.
Proof. unfold persistOrder. by case_decide. Qed.

Lemma persistOrder_inFlight (stable : list JsString) (c : Client) :
  (stable = [] ∧ inFlight (persistOrder stable c) = inFlight c)
  ∨ (stable ≠ []
     ∧ inFlight (persistOrder stable c)
       = inFlight c ++ [mkDispatch (CallReorderTodos stable) false]).
Proof.
  unfold persistOrder. destruct stable as [|x stable]; [by left|by right].
Qed.

(** A drop either sends nothing, or sends one reorder request that carries
    the identifiers of the new view that do not start with [temp-]. *)
Lemma reorderTodosById_inFlight (draggedId targetId : JsString) (c : Client) :
  let c' := reorderTodosById draggedId targetId c in
  let stable := stableIdsOf (optimisticTodos c') in
  inFlight c' = inFlight c
  ∨ (stable ≠ []
     ∧ inFlight c' = inFlight c ++ [mkDispatch (CallReorderTodos stable) false]).
Proof.
  unfold reorderTodosById.
  destruct (findIndex draggedId (optimisticTodos c)) as [fromIdx|]; [|by left].
  destruct (findIndex targetId (optimisticTodos c)) as [toIdx|]; [|by left].
  destruct (spliceOut (Z.of_nat fromIdx) (optimisticTodos c))
    as [[moved|] rest]; [|by left].
  cbv zeta. rewrite persistOrder_view. cbn [setOptimisticTodos optimisticTodos].
  destruct (persistOrder_inFlight
              (stableIdsOf (spliceIn (Z.of_nat toIdx) moved rest))
              (setOptimisticTodos (spliceIn (Z.of_nat toIdx) moved rest) c))
    as [[_ H]|[Hne H]]; [by left|by right].
Qed.

(** C5: of a reorder request, only the identifiers in durable format are
    written to the store, and all of them are; when none is left after the
    filter, [reorderTodos] returns [{ ok: true }] and leaves the store and
    the trace as they were.  The client sends a request only when an
    identifier without the [temp-] prefix remains. *)
Theorem reorder_persists_only_durable_ids (ids : list JsString) (w : World) :
  let durable := filter (λ x, isUuid x = true) ids in
  (reorderTodos ids w).1 = Fulfilled ResOk
  ∧ (∃ evs, trace (reorderTodos ids w).2 = trace w ++ evs
       ∧ ∀ e x, e ∈ evs → x ∈ positionWriteTargets e →
                x ∈ ids ∧ isUuid x = true)
  ∧ (durable = [] → reorderTodos ids w = (Fulfilled ResOk, w))
  ∧ (durable ≠ [] →
     (∃ evs, trace (reorderTodos ids w).2
             = trace w ++ EvRpcReorder durable :: evs)
     ∧ (reachable w = true →
        rows (reorderTodos ids w).2 = applyFullOrder 0 durable (rows w)))
  ∧ (∀ (draggedId targetId : JsString) (c : Client),
       let c' := reorderTodosById draggedId targetId c in
       let stable := stableIdsOf (optimisticTodos c') in
       (∀ x, x ∈ stable → startsWith x (lit "temp-") = false)
       ∧ (stable = [] → inFlight c' = inFlight c)
       ∧ (inFlight c' = inFlight c
          ∨ inFlight c'
            = inFlight c ++ [mkDispatch (CallReorderTodos stable) false])).
Proof.
  intros durable. destruct (reorderTodos_writes ids w) as (Hok & evs & Htr & Hev).
  split; [done|]. split.
  { exists evs. split; [done|]. intros e x He Hx.
    specialize (Hev e x He Hx). apply list_elem_of_filter in Hev. tauto. }
  split; [apply reorderTodos_nothing_durable|]. split.
  - intros Hne. destruct (rpcSucceeds w) eqn:Hrpc.
    + rewrite reorderTodos_atomic by done. cbn [fst snd trace rows]. split.
      * by eexists.
      * done.
    + rewrite reorderTodos_fallback by done. cbn [fst snd trace rows]. split.
      * by eexists.
      * by intros ->.
  - intros draggedId targetId c c' stable.
    split; [apply stableIdsOf_no_temp|].
    destruct (reorderTodosById_inFlight draggedId targetId c) as [H|[Hne H]].
    + split; [done|by left].
    + split; [done|by right].
Qed.

Lemma reorder_persists_only_durable_ids_witness :
  reorderTodos [tempId 5; lit "b"] storeFiveTen
  = (Fulfilled ResOk, storeFiveTen)
  ∧ rows (reorderTodos [idB; tempId 5; idA] storeFiveTen).2
    = applyFullOrder 0 [idB; idA] (rows storeFiveTen).
Proof.
  split.
  - pose proof (reorder_persists_only_durable_ids [tempId 5; lit "b"]
                  storeFiveTen) as H.
    cbv zeta in H. destruct H as (_ & _ & Hnone & _). by apply Hnone.
  - pose proof (reorder_persists_only_durable_ids [idB; tempId 5; idA]
                  storeFiveTen) as H.
    cbv zeta in H. destruct H as (_ & _ & _ & Hsome & _).
    apply Hsome; [vm_compute; discriminate|reflexivity].
Defined.

(** C7: with at least one durable identifier, the first store call is the
    single atomic [reorder_todos] call.  If it succeeds there is no per-item
    write; if it fails, whatever the reason (function absent, store
    unreachable, call throwing), each identifier's position is written on
    its own, the [k]-th identifier getting position [k]. *)
Theorem reorder_atomic_then_fallback (ids : list JsString) (w : World) :
  let durable := filter (λ x, isUuid x = true) ids in
  durable ≠ [] →
  (reorderTodos ids w).1 = Fulfilled ResOk
  ∧ ∃ evs,
      trace (reorderTodos ids w).2 = trace w ++ EvRpcReorder durable :: evs
      ∧ (rpcMode w = RpcInstalled → reachable w = true →
         evs = [EvRevalidate])
      ∧ (rpcMode w = RpcMissing ∨ rpcMode w = RpcThrows
         ∨ reachable w = false →
         evs = imap (λ k x, EvUpdatePosition x (Z.of_nat k)) durable
               ++ [EvRevalidate]).
Proof.
  intros durable Hne.
  assert (updateEvents durable
          = imap (λ k x, EvUpdatePosition x (Z.of_nat k)) durable) as Hupd.
  { unfold updateEvents, manualPositions. by rewrite fmap_imap. }
  subst durable. destruct (rpcSucceeds w) eqn:Hrpc.
  - rewrite reorderTodos_atomic by done. cbn [fst snd trace].
    split; [done|]. eexists. split; [reflexivity|]. split; [done|].
    unfold rpcSucceeds in Hrpc. intros [H|[H|H]].
    + by rewrite H in Hrpc.
    + by rewrite H in Hrpc.
    + rewrite H in Hrpc. by destruct (rpcMode w).
  - rewrite reorderTodos_fallback by done. cbn [fst snd trace].
    split; [done|]. eexists. split; [reflexivity|]. split.
    + unfold rpcSucceeds in Hrpc. intros Hmode Hup.
      rewrite Hmode, Hup in Hrpc. done.
    + intros _. by rewrite Hupd.
Qed.

Lemma reorder_atomic_then_fallback_witness :
  (reorderTodos [idB; tempId 5; idA; idC] (storeABC RpcMissing)).1
  = Fulfilled ResOk
  ∧ ∃ evs,
      trace (reorderTodos [idB; tempId 5; idA; idC] (storeABC RpcMissing)).2
      = trace (storeABC RpcMissing) ++ EvRpcReorder [idB; idA; idC] :: evs
      ∧ (rpcMode (storeABC RpcMissing) = RpcInstalled →
         reachable (storeABC RpcMissing) = true →
         evs = [EvRevalidate])
      ∧ (rpcMode (storeABC RpcMissing) = RpcMissing
         ∨ rpcMode (storeABC RpcMissing) = RpcThrows
         ∨ reachable (storeABC RpcMissing) = false →
         evs = imap (λ k x, EvUpdatePosition x (Z.of_nat k)) [idB; idA; idC]
               ++ [EvRevalidate]).
Proof.
  apply (reorder_atomic_then_fallback [idB; tempId 5; idA; idC]
           (storeABC RpcMissing)).
  vm_compute. discriminate.
Defined.

(* ================================================================== *)
(** ** The positions of the fallback *)
(* ================================================================== *)

Lemma filter_all_durable (ids : list JsString) :
  Forall (λ x, isUuid x = true) ids →
  filter (λ x, isUuid x = true) ids = ids.
Proof.
  induction 1 as [|x ids Hx _ IH]; [done|].
  rewrite filter_cons_True by done. by rewrite IH.
Qed.

Lemma manualPositions_lookup (ids : list JsString) (i : nat) :
  manualPositions ids !! i = (λ x, (x, Z.of_nat i)) <$> ids !! i.
Proof. unfold manualPositions. apply list_lookup_imap. Qed.

Lemma manualPositions_fst (ids : list JsString) :
  (manualPositions ids).*1 = ids.
Proof.
  apply list_eq. intros i.
  rewrite list_lookup_fmap, manualPositions_lookup. by destruct (ids !! i).
Qed.

Lemma manualPositions_snd (ids : list JsString) :
  (manualPositions ids).*2 = Z.of_nat <$> seq 0 (length ids).
Proof.
  apply list_eq. intros i.
  rewrite !list_lookup_fmap, manualPositions_lookup.
  destruct (ids !! i) as [x|] eqn:Hi; simpl.
  - apply lookup_lt_Some in Hi. by rewrite lookup_seq_lt.
  - apply lookup_ge_None in Hi. by rewrite lookup_seq_ge.
Qed.

(** C3: for N distinct durable identifiers the fallback gives the i-th
    identifier position i: the positions are 0..N-1 in input order, without
    duplicates, one per identifier, and these are the writes [reorderTodos]
    issues when the atomic call fails; [b, a, c] gets b→0, a→1, c→2. *)
Theorem fallback_positions_are_sequential (ids : list JsString) (w : World) :
  NoDup ids → Forall (λ x, isUuid x = true) ids →
  (∀ i x, ids !! i = Some x →
          manualPositions ids !! i = Some (x, Z.of_nat i))
  ∧ (manualPositions ids).*1 = ids
  ∧ (manualPositions ids).*2 = Z.of_nat <$> seq 0 (length ids)
  ∧ NoDup ((manualPositions ids).*2)
  ∧ (∀ x p q, (x, p) ∈ manualPositions ids →
              (x, q) ∈ manualPositions ids → p = q)
  ∧ (ids ≠ [] → rpcSucceeds w = false →
     trace (reorderTodos ids w).2
     = trace w ++ EvRpcReorder ids
         :: ((λ p, EvUpdatePosition p.1 p.2) <$> manualPositions ids)
         ++ [EvRevalidate])
  ∧ (∀ b a c : JsString,
       manualPositions [b; a; c] = [(b, 0); (a, 1); (c, 2)]).
Proof.
  intros Hnd Hall.
  split. { intros i x Hi. by rewrite manualPositions_lookup, Hi. }
  split; [apply manualPositions_fst|].
  split; [apply manualPositions_snd|].
  split.
  { rewrite manualPositions_snd. apply NoDup_fmap_2; [apply _|apply NoDup_seq]. }
  split.
  { intros x p q Hp Hq.
    apply list_elem_of_lookup_1 in Hp as [i Hi].
    apply list_elem_of_lookup_1 in Hq as [j Hj].
    rewrite manualPositions_lookup in Hi, Hj.
    destruct (ids !! i) as [y|] eqn:Hyi; [|done].
    destruct (ids !! j) as [z|] eqn:Hzj; [|done].
    simpl in Hi, Hj. injection Hi as -> <-. injection Hj as -> <-.
    f_equal. by eapply NoDup_lookup. }
  split; [|done].
  intros Hne Hrpc. rewrite reorderTodos_fallback.
  - by rewrite filter_all_durable.
  - by rewrite filter_all_durable.
  - done.
Qed.

Lemma fallback_positions_are_sequential_witness :
  (∀ i x, [idB; idA; idC] !! i = Some x →
          manualPositions [idB; idA; idC] !! i = Some (x, Z.of_nat i))
  ∧ (manualPositions [idB; idA; idC]).*1 = [idB; idA; idC]
  ∧ (manualPositions [idB; idA; idC]).*2
    = Z.of_nat <$> seq 0 (length [idB; idA; idC])
  ∧ NoDup ((manualPositions [idB; idA; idC]).*2)
  ∧ (∀ x p q, (x, p) ∈ manualPositions [idB; idA; idC] →
              (x, q) ∈ manualPositions [idB; idA; idC] → p = q)
  ∧ ([idB; idA; idC] ≠ [] → rpcSucceeds (storeABC RpcMissing) = false →
     trace (reorderTodos [idB; idA; idC] (storeABC RpcMissing)).2
     = trace (storeABC RpcMissing) ++ EvRpcReorder [idB; idA; idC]
         :: ((λ p, EvUpdatePosition p.1 p.2)
               <$> manualPositions [idB; idA; idC])
         ++ [EvRevalidate])
  ∧ (∀ b a c : JsString,
       manualPositions [b; a; c] = [(b, 0); (a, 1); (c, 2)]).
Proof.
  apply (fallback_positions_are_sequential [idB; idA; idC]
           (storeABC RpcMissing)).
  - apply (bool_decide_unpack _). vm_compute. exact I.
  - repeat constructor.
Defined.

(* ================================================================== *)
(** ** Reorder, then list *)
(* ================================================================== *)

Lemma updatePositionWhere_comm (x y : JsString) (p q : Z) (rs : list Todo) :
  x ≠ y →
  updatePositionWhere x p (updatePositionWhere y q rs)
  = updatePositionWhere y q (updatePositionWhere x p rs).
Proof.
  intros Hne. unfold updatePositionWhere. rewrite <- !list_fmap_compose.
  apply list_fmap_ext. intros _ r _. simpl.
  repeat (case_decide; simpl in *); congruence.
Qed.

Lemma applyWrites_Permutation (ws ws' : list (JsString * Z)) :
  ws ≡ₚ ws' → NoDup ws.*1 →
  ∀ rs, applyWrites ws rs = applyWrites ws' rs.
Proof.
  induction 1 as [|x l l' Hperm IH|x y l|l l' l'' H1 IH1 H2 IH2];
    intros Hnd rs.
  - done.
  - rewrite fmap_cons in Hnd. apply NoDup_cons in Hnd as [_ Hnd].
    unfold applyWrites in *. simpl. by apply IH.
  - rewrite !fmap_cons in Hnd. apply NoDup_cons in Hnd as [Hy _].
    unfold applyWrites. simpl. f_equal. apply updatePositionWhere_comm.
    intros Heq. apply Hy. rewrite Heq. left.
  - rewrite IH1 by done. apply IH2. by rewrite <- H1.
Qed.

Lemma applyFullOrder_applyWrites (i : nat) (ids : list JsString)
    (rs : list Todo) :
  applyFullOrder i ids rs
  = applyWrites (imap (λ k x, (x, Z.of_nat (i + k))) ids) rs.
Proof.
  revert i rs. induction ids as [|x ids IH]; intros i rs; [done|].
  rewrite imap_cons.
  rewrite (imap_ext _ (λ k y, (y, Z.of_nat (S i + k)))).
  2:{ intros k y _. simpl. do 2 f_equal. lia. }
  simpl. rewrite IH. unfold applyWrites. simpl. by rewrite Nat.add_0_r.
Qed.

(** With distinct identifiers the table the writes leave does not depend on
    the order in which they land. *)
Lemma applyWrites_any_order (ids : list JsString) (ws : list (JsString * Z))
    (rs : list Todo) :
  NoDup ids → ws ≡ₚ manualPositions ids →
  applyWrites ws rs = applyFullOrder 0 ids rs.
Proof.
  intros Hnd Hperm.
  rewrite (applyFullOrder_applyWrites 0). symmetry.
  apply applyWrites_Permutation; [done|].
  change (NoDup (manualPositions ids).*1). by rewrite manualPositions_fst.
Qed.

(** After the positions of [ids] have been written, a store whose rows are
    exactly those identified by [ids] lists them in the order of [ids],
    whichever way a listing in position order breaks ties. *)
Lemma assigned_rows_listing (ids : list JsString) (rs l : list Todo) :
  NoDup ids → ids ≡ₚ id <$> rs →
  l ≡ₚ applyFullOrder 0 ids rs → StronglySorted positionLe l →
  id <$> l = ids
  ∧ ∀ r, r ∈ l → ∃ r0, r0 ∈ rs ∧ r = setPosition (position r) r0.
Proof.
  intros Hnd Hperm Hl Hsorted.
  set (rs' := applyFullOrder 0 ids rs) in *.
  assert (∀ r, r ∈ rs' →
            ∃ r0 k, r0 ∈ rs ∧ ids !! k = Some (id r0)
                    ∧ r = setPosition (Z.of_nat k) r0) as Hrows.
  { intros r Hr. apply list_elem_of_lookup_1 in Hr as [j Hj].
    assert (is_Some (rs !! j)) as [r0 Hr0].
    { apply lookup_lt_is_Some. apply lookup_lt_Some in Hj.
      assert (length (id <$> rs') = length (id <$> rs)) as Hlen
        by (unfold rs'; by rewrite applyFullOrder_ids).
      rewrite !length_fmap in Hlen. lia. }
    assert (id r0 ∈ ids) as Hin.
    { rewrite Hperm. apply list_elem_of_fmap_2.
      by eapply list_elem_of_lookup_2. }
    apply list_elem_of_lookup_1 in Hin as [k Hk].
    exists r0, k. split; [by eapply list_elem_of_lookup_2|]. split; [done|].
    pose proof (applyFullOrder_assigned 0 ids rs j k r0 Hnd Hr0 Hk) as Hassigned.
    fold rs' in Hassigned. rewrite Hj in Hassigned. by injection Hassigned. }
  split.
  - apply listing_in_given_order.
    + rewrite Hl. unfold rs'. rewrite applyFullOrder_ids. by rewrite <- Hperm.
    + rewrite (Permutation_length Hl).
      transitivity (length (id <$> rs')); [by rewrite length_fmap|].
      unfold rs'. rewrite applyFullOrder_ids. by rewrite <- Hperm.
    + done.
    + intros r Hr. rewrite Hl in Hr.
      destruct (Hrows r Hr) as (r0 & k & _ & Hk & ->). by exists k.
  - intros r Hr. rewrite Hl in Hr.
    destruct (Hrows r Hr) as (r0 & k & Hr0 & _ & ->). by exists r0.
Qed.

(** C6: with the store reachable and [ids] listing the durable identifiers
    of its rows once each, [reorderTodos ids] followed by [fetchTodos]
    returns the rows in exactly the order of [ids], whether the atomic call
    or the fallback did the writes and in whichever order the fallback's
    writes land; only positions have changed.  The same holds of any listing
    of the table in position order. *)
Theorem reorder_then_list_round_trip (ids : list JsString) (w : World) :
  NoDup ids → Forall (λ x, isUuid x = true) ids →
  ids ≡ₚ id <$> rows w → reachable w = true →
  (reorderTodos ids w).1 = Fulfilled ResOk
  ∧ (∃ listing,
       (fetchTodos (reorderTodos ids w).2).1 = Fulfilled listing
       ∧ id <$> listing = ids
       ∧ ∀ r, r ∈ listing →
              ∃ r0, r0 ∈ rows w ∧ r = setPosition (position r) r0)
  ∧ (∀ ws, ws ≡ₚ manualPositions ids →
           applyWrites ws (rows w) = rows (reorderTodos ids w).2)
  ∧ (∀ l, l ≡ₚ rows (reorderTodos ids w).2 → StronglySorted positionLe l →
          id <$> l = ids).
Proof.
  intros Hnd Hall Hperm Hup.
  assert (rows (reorderTodos ids w).2 = applyFullOrder 0 ids (rows w)
          ∧ reachable (reorderTodos ids w).2 = true
          ∧ (reorderTodos ids w).1 = Fulfilled ResOk) as (Hrows & Hup' & Hok).
  { destruct (decide (ids = [])) as [->|Hne].
    - by rewrite reorderTodos_nothing_durable by done.
    - destruct (rpcSucceeds w) eqn:Hrpc.
      + rewrite reorderTodos_atomic by (by rewrite ?filter_all_durable).
        by rewrite filter_all_durable.
      + rewrite reorderTodos_fallback by (by rewrite ?filter_all_durable).
        rewrite filter_all_durable by done. by rewrite Hup. }
  split; [done|]. split.
  { rewrite fetchTodos_run by done. cbn [fst]. rewrite Hrows.
    destruct (assigned_rows_listing ids (rows w)
                (orderByPosition (applyFullOrder 0 ids (rows w))) Hnd Hperm
                (orderByPosition_Permutation _) (orderByPosition_Sorted _))
      as [Hids Hsame].
    eexists. split; [reflexivity|]. by split. }
  split.
  { intros ws Hws. rewrite Hrows. by apply applyWrites_any_order. }
  intros l Hl Hsorted. rewrite Hrows in Hl.
  by destruct (assigned_rows_listing ids (rows w) l Hnd Hperm Hl Hsorted).
Qed.

Lemma reorder_then_list_round_trip_witness :
  (reorderTodos [idC; idA; idB] (storeABC RpcMissing)).1 = Fulfilled ResOk
  ∧ (∃ listing,
       (fetchTodos (reorderTodos [idC; idA; idB] (storeABC RpcMissing)).2).1
       = Fulfilled listing
       ∧ id <$> listing = [idC; idA; idB]
       ∧ ∀ r, r ∈ listing →
              ∃ r0, r0 ∈ rows (storeABC RpcMissing)
                    ∧ r = setPosition (position r) r0)
  ∧ (∀ ws, ws ≡ₚ manualPositions [idC; idA; idB] →
           applyWrites ws (rows (storeABC RpcMissing))
           = rows (reorderTodos [idC; idA; idB] (storeABC RpcMissing)).2)
  ∧ (∀ l, l ≡ₚ rows (reorderTodos [idC; idA; idB] (storeABC RpcMissing)).2 →
          StronglySorted positionLe l →
          id <$> l = [idC; idA; idB]).
Proof.
  apply (reorder_then_list_round_trip [idC; idA; idB] (storeABC RpcMissing)).
  - apply (bool_decide_unpack _). vm_compute. exact I.
  - repeat constructor.
  - apply (bool_decide_unpack _). vm_compute. exact I.
  - reflexivity.
Defined.

(* ================================================================== *)
(** ** Validation of the text *)
(* ================================================================== *)

(** C8: when the text is empty after trimming, [onAdd] returns at once and
    leaves the client as it was (no placeholder, no server action called),
    and [addTodo] returns [{ ok: false, error: "Empty" }] before any store
    call, leaving the store and the trace as they were. *)
Theorem empty_text_is_rejected (now : N) (newId : JsString)
    (formData : FormData) (c : Client) (w : World) :
  textOf formData = [] →
  onAdd now formData c = c
  ∧ addTodo newId formData w = (Fulfilled (ResFail (lit "Empty")), w).
Proof.
  intros Hempty. split.
  - unfold onAdd. by rewrite decide_True.
  - by apply addTodo_empty_text.
Qed.

Lemma empty_text_is_rejected_witness :
  onAdd 1700000000000 blankForm busyClient = busyClient
  ∧ addTodo idNew blankForm storeFiveTen
    = (Fulfilled (ResFail (lit "Empty")), storeFiveTen).
Proof.
  apply (empty_text_is_rejected 1700000000000 idNew blankForm busyClient
           storeFiveTen).
  reflexivity.
Defined.

(* ================================================================== *)
(** ** Failed durable calls *)
(* ================================================================== *)

(** Settling a call never writes the local view: nothing is rolled back. *)
Lemma settle_keeps_view (newId : JsString) (k : nat) (c : Client) (w : World) :
  optimisticTodos (settle newId k c w).1 = optimisticTodos c.
Proof.
  unfold settle. destruct (inFlight c !! k) as [d|]; [|done].
  destruct (runCall newId (call d) w) as [[r|e] w']; simpl; [done|].
  by destruct (hasCatch d).
Qed.

(** A rejection is observed only where the call site attached [.catch]. *)
Lemma settle_rejection (newId : JsString) (k : nat) (c : Client) (w : World)
    (d : Dispatch) (e : StoreError) :
  inFlight c !! k = Some d → (runCall newId (call d) w).1 = Rejected e →
  unhandledRejections (settle newId k c w).1
  = unhandledRejections c ++ (if hasCatch d then [] else [e]).
Proof.
  intros Hd Hrej. unfold settle. rewrite Hd.
  destruct (runCall newId (call d) w) as [[r|e'] w']; simpl in *; [done|].
  injection Hrej as ->. destruct (hasCatch d); simpl; [|done].
  by rewrite app_nil_r.
Qed.

Lemma toggleTodo_missing_row (target : JsString) (w : World) :
  reachable w = true → target ∉ id <$> rows w →
  (toggleTodo target w).1 = Rejected NotFoundError.
Proof.
  intros Hup Hmissing. destruct w as [rs up mode tr]. simpl in *. subst up.
  unfold toggleTodo. run_store.
  assert (filter (λ r, id r = target) rs = []) as ->; [|done].
  destruct (filter (λ r, id r = target) rs) as [|r rest] eqn:Hfilter; [done|].
  exfalso. assert (r ∈ filter (λ r, id r = target) rs) as Hr
    by (rewrite Hfilter; left).
  apply list_elem_of_filter in Hr as [Heq Hr].
  apply Hmissing. rewrite <- Heq. by apply list_elem_of_fmap_2.
Qed.

(** Whatever the view and the store, when the row is gone the rejection of
    the toggle's call is left unhandled, and the view keeps the flip. *)
Lemma onToggle_missing_row (newId target : JsString) (c : Client) (w : World) :
  inFlight c = [] → reachable w = true → target ∉ id <$> rows w →
  unhandledRejections (settle newId 0 (onToggle target c) w).1
  = unhandledRejections c ++ [NotFoundError]
  ∧ optimisticTodos (settle newId 0 (onToggle target c) w).1
    = optimisticTodos (onToggle target c).
Proof.
  intros Hc Hup Hmissing. split; [|apply settle_keeps_view].
  rewrite (settle_rejection newId 0 (onToggle target c) w
             (mkDispatch (CallToggleTodo target) false) NotFoundError).
  - done.
  - unfold onToggle, dispatch. simpl. by rewrite Hc.
  - simpl. by apply toggleTodo_missing_row.
Qed.

(** The failed call of [onAdd] is observed by its [.catch]. *)
Lemma onAdd_failure_caught (now : N) (newId : JsString) (formData : FormData)
    (c : Client) (w : World) :
  inFlight c = [] → textOf formData ≠ [] → reachable w = false →
  unhandledRejections (settle newId 0 (onAdd now formData c) w).1
  = unhandledRejections c.
Proof.
  intros Hc Htext Hdown.
  rewrite (settle_rejection newId 0 (onAdd now formData c) w
             (mkDispatch (CallAddTodo formData) true) StoreUnavailable).
  - unfold onAdd. rewrite decide_False by done. simpl. by rewrite app_nil_r.
  - unfold onAdd. rewrite decide_False by done. simpl. by rewrite Hc.
  - simpl. by apply addTodo_unreachable.
Qed.

(** C2, on the code: in the scenario, the toggle's durable call finds no row
    and its promise rejects with the not-found error.  The handler has
    finished and the store ends with the row deleted, but the rejection is
    not caught: [onToggle] calls [toggleTodo(id)] without [.catch], so it
    is left as an unhandled rejection, where the failed call of [onAdd] is
    caught by its [.catch]. *)
Theorem toggle_rejection_is_unhandled :
  inFlight afterToggleDelete
  = [mkDispatch (CallToggleTodo idA) false; mkDispatch (CallDeleteTodo idA) false]
  ∧ (toggleTodo idA deleteLanded.2).1 = Rejected NotFoundError
  ∧ rows toggleLanded.2 = []
  ∧ unhandledRejections toggleLanded.1 = [NotFoundError]
  ∧ (addTodo idNew buyMilk storeDown).1 = Rejected StoreUnavailable
  ∧ unhandledRejections addLanded.1 = [].
Proof. vm_compute. repeat split. Qed.

(* ================================================================== *)
(** ** The session as a transition system *)
(* ================================================================== *)

Lemma dispatch_stable (d : Dispatch) (c : Client) :
  stableDispatch d → requestsAreStable c → requestsAreStable (dispatch d c).
Proof.
  intros Hd Hc. unfold requestsAreStable, dispatch. simpl.
  apply Forall_app. split; [done|]. by repeat constructor.
Qed.

Lemma persistOrder_stable (current : list Todo) (c : Client) :
  requestsAreStable c → requestsAreStable (persistOrder (stableIdsOf current) c).
Proof.
  intros Hc. unfold persistOrder. case_decide; [done|].
  apply dispatch_stable; [|done].
  intros ids x [= <-] Hx. by eapply stableIdsOf_no_temp.
Qed.

Lemma reorderTodosById_stable (draggedId targetId : JsString) (c : Client) :
  requestsAreStable c → requestsAreStable (reorderTodosById draggedId targetId c).
Proof.
  intros Hc. unfold reorderTodosById.
  destruct (findIndex draggedId (optimisticTodos c)); [|done].
  destruct (findIndex targetId (optimisticTodos c)); [|done].
  destruct (spliceOut _ _) as [[moved|] rest]; [|done].
  by apply persistOrder_stable.
Qed.

Lemma handle_stable (g : Gesture) (c c' : Client) :
  handle g c = Some c' → requestsAreStable c → requestsAreStable c'.
Proof.
  intros Hg Hc. destruct g as [now fd|d t|touch|t|t|]; simpl in Hg.
  - injection Hg as <-. unfold onAdd. case_decide; [done|].
    by apply dispatch_stable.
  - injection Hg as <-. unfold handleDrop. case_decide; [done|].
    by apply reorderTodosById_stable.
  - unfold handleTouchEnd in Hg. destruct touch as [t|]; [|by injection Hg as <-].
    case_decide; [by injection Hg as <-|].
    destruct (spliceOut _ _) as [[moved|] rest]; [|done].
    injection Hg as <-. by apply persistOrder_stable.
  - injection Hg as <-. by apply dispatch_stable.
  - injection Hg as <-. by apply dispatch_stable.
  - injection Hg as <-. by apply dispatch_stable.
Qed.

(** The store calls of the other actions write no position of an existing
    row. *)
Ltac trace_of_action :=
  first
    [ by (exists []; split; [by rewrite app_nil_r|constructor])
    | eexists; split;
      [rewrite <- ?app_assoc; reflexivity|by repeat constructor] ].

Lemma addTodo_trace (newId : JsString) (formData : FormData) (w : World) :
  ∃ evs, trace (addTodo newId formData w).2 = trace w ++ evs
         ∧ Forall (λ e, positionWriteTargets e = []) evs.
Proof.
  unfold addTodo. case_decide; [trace_of_action|].
  destruct w as [rs [] mode tr]; unfold fetchTodos; run_store;
    [|trace_of_action].
  case_decide; simpl; trace_of_action.
Qed.

Lemma toggleTodo_trace (target : JsString) (w : World) :
  ∃ evs, trace (toggleTodo target w).2 = trace w ++ evs
         ∧ Forall (λ e, positionWriteTargets e = []) evs.
Proof.
  destruct w as [rs [] mode tr]; unfold toggleTodo; run_store;
    [|trace_of_action].
  destruct (filter (λ r, id r = target) rs) as [|r [|r' rest]]; simpl;
    trace_of_action.
Qed.

Lemma deleteTodo_trace (target : JsString) (w : World) :
  ∃ evs, trace (deleteTodo target w).2 = trace w ++ evs
         ∧ Forall (λ e, positionWriteTargets e = []) evs.
Proof.
  destruct w as [rs [] mode tr]; unfold deleteTodo; run_store;
    trace_of_action.
Qed.

Lemma clearCompleted_trace (w : World) :
  ∃ evs, trace (clearCompleted w).2 = trace w ++ evs
         ∧ Forall (λ e, positionWriteTargets e = []) evs.
Proof.
  destruct w as [rs [] mode tr]; unfold clearCompleted; run_store;
    trace_of_action.
Qed.

Lemma runCall_durable (newId : JsString) (sc : ServerCall) (w : World) :
  writesAreDurable w → writesAreDurable (runCall newId sc w).2.
Proof.
  intros Hw.
  assert (∃ evs, trace (runCall newId sc w).2 = trace w ++ evs
                 ∧ ∀ e x, e ∈ evs → x ∈ positionWriteTargets e →
                          isUuid x = true) as (evs & Htr & Hevs).
  { destruct sc as [fd|ids|t|t|]; simpl.
    - destruct (addTodo_trace newId fd w) as (evs & Htr & Hno).
      exists evs. split; [done|]. intros e x He Hx.
      rewrite Forall_forall in Hno. rewrite (Hno e He) in Hx.
      by apply elem_of_nil in Hx.
    - destruct (reorderTodos_writes ids w) as (_ & evs & Htr & Hev).
      exists evs. split; [done|]. intros e x He Hx.
      specialize (Hev e x He Hx). by apply list_elem_of_filter in Hev as [? _].
    - destruct (toggleTodo_trace t w) as (evs & Htr & Hno).
      exists evs. split; [done|]. intros e x He Hx.
      rewrite Forall_forall in Hno. rewrite (Hno e He) in Hx.
      by apply elem_of_nil in Hx.
    - destruct (deleteTodo_trace t w) as (evs & Htr & Hno).
      exists evs. split; [done|]. intros e x He Hx.
      rewrite Forall_forall in Hno. rewrite (Hno e He) in Hx.
      by apply elem_of_nil in Hx.
    - destruct (clearCompleted_trace w) as (evs & Htr & Hno).
      exists evs. split; [done|]. intros e x He Hx.
      rewrite Forall_forall in Hno. rewrite (Hno e He) in Hx.
      by apply elem_of_nil in Hx. }
  intros e x He Hx. rewrite Htr in He. apply elem_of_app in He as [He|He].
  - by eapply Hw.
  - by eapply Hevs.
Qed.

Lemma settle_invariant (newId : JsString) (k : nat) (c : Client) (w : World) :
  requestsAreStable c → writesAreDurable w →
  requestsAreStable (settle newId k c w).1
  ∧ writesAreDurable (settle newId k c w).2.
Proof.
  intros Hc Hw. unfold settle.
  destruct (inFlight c !! k) as [d|] eqn:Hd; [|done].
  pose proof (runCall_durable newId (call d) w Hw) as Hw'.
  destruct (runCall newId (call d) w) as [outcome w']. simpl in *.
  split; [|done].
  assert (requestsAreStable
            (mkClient (optimisticTodos c) (delete k (inFlight c))
               (unhandledRejections c))) as Hrest.
  { unfold requestsAreStable in *. simpl. apply Forall_forall.
    intros d' Hd'. rewrite Forall_forall in Hc.
    by eapply Hc, list_elem_of_delete_inv. }
  unfold observe. destruct outcome; [done|]. by destruct (hasCatch d).
Qed.

Lemma sessionStep_invariant (s s' : Client * World) :
  sessionStep s s' →
  requestsAreStable s.1 ∧ writesAreDurable s.2 →
  requestsAreStable s'.1 ∧ writesAreDurable s'.2.
Proof.
  intros Hstep [Hc Hw]. destruct Hstep as [g c c' w Hg|newId k c w]; simpl in *.
  - split; [by eapply handle_stable|done].
  - by apply settle_invariant.
Qed.

(** From a client with no call in flight and a store whose trace is empty,
    every state a session reaches keeps both invariants. *)
Lemma session_invariant (c0 c : Client) (w0 w : World) :
  inFlight c0 = [] → trace w0 = [] →
  rtc sessionStep (c0, w0) (c, w) →
  requestsAreStable c ∧ writesAreDurable w.
Proof.
  intros Hc0 Hw0 Hrun.
  assert (∀ s, rtc sessionStep (c0, w0) s →
               requestsAreStable s.1 ∧ writesAreDurable s.2) as Hall.
  { apply (rtc_ind_r
             (λ s, requestsAreStable s.1 ∧ writesAreDurable s.2) (c0, w0)).
    - simpl. split.
      + unfold requestsAreStable. rewrite Hc0. constructor.
      + intros e x He. rewrite Hw0 in He. by apply elem_of_nil in He.
    - intros s1 s2 _ Hstep IH. by eapply sessionStep_invariant. }
  by apply (Hall (c, w)).
Qed.

(** C10: a placeholder identifier is [temp-] followed by decimal digits; it
    fails the server's expression and is removed by the client's prefix
    filter, so both discriminators reject it, and no position write of
    [reorderTodos] is ever made for it: in every state a session reaches, no
    reorder request in flight carries it and no position write in the trace
    of the store targets it. *)
Theorem placeholder_never_reaches_store (now : N) :
  (∃ digits, tempId now = lit "temp-" ++ digits ∧ digits ≠ []
             ∧ Forall (λ c, isDecimalDigit c = true) digits)
  ∧ isUuid (tempId now) = false
  ∧ startsWith (tempId now) (lit "temp-") = true
  ∧ (∀ current : list Todo, tempId now ∉ stableIdsOf current)
  ∧ (∀ ids : list JsString, tempId now ∉ filter (λ x, isUuid x = true) ids)
  ∧ (∀ (ids : list JsString) (w : World), ∃ evs,
       trace (reorderTodos ids w).2 = trace w ++ evs
       ∧ ∀ e, e ∈ evs → tempId now ∉ positionWriteTargets e)
  ∧ (∀ (c0 c : Client) (w0 w : World),
       inFlight c0 = [] → trace w0 = [] →
       rtc sessionStep (c0, w0) (c, w) →
       (∀ d ids, d ∈ inFlight c → call d = CallReorderTodos ids →
                 tempId now ∉ ids)
       ∧ (∀ e, e ∈ trace w → tempId now ∉ positionWriteTargets e)).
Proof.
  assert (startsWith (tempId now) (lit "temp-") = true) as Hprefix
    by apply startsWith_app.
  assert (isUuid (tempId now) = false) as Hre
    by by apply temp_prefix_not_uuid.
  assert (∀ ids : list JsString,
            tempId now ∉ filter (λ x, isUuid x = true) ids) as Hfilter.
  { intros ids Hin. apply list_elem_of_filter in Hin as [Hyes _]. congruence. }
  split.
  { exists (numberToString now). split; [done|].
    split; [apply numberToString_nonempty | apply digitsOfUint_digits]. }
  do 2 (split; [done|]). split.
  { intros current Hin. unfold stableIdsOf in Hin.
    apply list_elem_of_filter in Hin as [Hno _]. congruence. }
  split; [done|]. split.
  { intros ids w.
    destruct (reorderTodos_writes ids w) as (_ & evs & Htr & Hev).
    exists evs. split; [done|]. intros e He Hin.
    by apply (Hfilter ids), (Hev e). }
  intros c0 c w0 w Hc0 Hw0 Hrun.
  destruct (session_invariant c0 c w0 w Hc0 Hw0 Hrun) as [Hstable Hdurable].
  split.
  - intros d ids Hd Hcall Hin. unfold requestsAreStable in Hstable.
    rewrite Forall_forall in Hstable.
    specialize (Hstable d Hd ids (tempId now) Hcall Hin). congruence.
  - intros e He Hin. specialize (Hdurable e (tempId now) He Hin). congruence.
Qed.

Lemma placeholder_never_reaches_store_witness :
  id <$> optimisticTodos afterDrop = [idB; tempId 1700000000000; idA]
  ∧ inFlight afterDrop
    = [mkDispatch (CallAddTodo buyMilk) true;
       mkDispatch (CallReorderTodos [idB; idA]) false]
  ∧ trace addThenReorderLanded.2
    = [EvSelectOrdered; EvInsert milkAtFour; EvRevalidate;
       EvRpcReorder [idB; idA]; EvUpdatePosition idB 0;
       EvUpdatePosition idA 1; EvRevalidate]
  ∧ (∀ e, e ∈ trace addThenReorderLanded.2 →
          tempId 1700000000000 ∉ positionWriteTargets e).
Proof.
  do 3 (split; [reflexivity|]).
  destruct (placeholder_never_reaches_store 1700000000000)
    as (_ & _ & _ & _ & _ & _ & Hsession).
  apply (Hsession clientFiveTen addThenReorderLanded.1
           storeFiveTen addThenReorderLanded.2); [reflexivity..|].
  eapply rtc_l.
  { by apply (step_gesture (GAdd 1700000000000 buyMilk)). }
  eapply rtc_l.
  { by apply (step_gesture (GDrop idB (tempId 1700000000000))). }
  eapply rtc_l; [apply (step_settle idNew 0)|].
  eapply rtc_l; [apply (step_settle idNew 0)|].
  apply rtc_refl.
Defined.

(* ================================================================== *)
(** ** Toggle, delete and clear on the store *)
(* ================================================================== *)

Lemma filter_id_unique (rs : list Todo) (r : Todo) :
  NoDup (id <$> rs) → r ∈ rs → filter (λ r', id r' = id r) rs = [r].
Proof.
  induction rs as [|x rs IH]; intros Hnd Hr; [by apply elem_of_nil in Hr|].
  rewrite fmap_cons in Hnd. apply NoDup_cons in Hnd as [Hx Hnd].
  apply elem_of_cons in Hr as [->|Hr].
  - rewrite filter_cons_True by done. f_equal.
    destruct (filter (λ r', id r' = id x) rs) as [|y l] eqn:Hf; [done|].
    exfalso. assert (y ∈ filter (λ r', id r' = id x) rs) as Hy
      by (rewrite Hf; left).
    apply list_elem_of_filter in Hy as [Heq Hy]. apply Hx.
    rewrite <- Heq. by apply list_elem_of_fmap_2.
  - rewrite filter_cons_False; [by apply IH|].
    intros Heq. apply Hx. rewrite Heq. by apply list_elem_of_fmap_2.
Qed.

Lemma toggleTodo_run (target : JsString) (w : World) (r : Todo) :
  reachable w = true → filter (λ r', id r' = target) (rows w) = [r] →
  toggleTodo target w =
    (Fulfilled ResOk,
     mkWorld (updateCompletedWhere target (negb (completed r)) (rows w))
       true (rpcMode w)
       (trace w ++ [EvSelectCompleted target;
                    EvUpdateCompleted target (negb (completed r));
                    EvRevalidate])).
Proof.
  destruct w as [rs up mode tr]. simpl. intros -> Hone.
  unfold toggleTodo. run_store. rewrite Hone. simpl.
  by rewrite <- !app_assoc.
Qed.

Lemma toggleTodo_no_row (target : JsString) (w : World) :
  reachable w = true → target ∉ id <$> rows w →
  toggleTodo target w =
    (Rejected NotFoundError,
     mkWorld (rows w) true (rpcMode w) (trace w ++ [EvSelectCompleted target])).
Proof.
  destruct w as [rs up mode tr]. simpl. intros -> Hmissing.
  unfold toggleTodo. run_store.
  assert (filter (λ r, id r = target) rs = []) as ->; [|done].
  destruct (filter (λ r, id r = target) rs) as [|r rest] eqn:Hfilter; [done|].
  exfalso. assert (r ∈ filter (λ r, id r = target) rs) as Hr
    by (rewrite Hfilter; left).
  apply list_elem_of_filter in Hr as [Heq Hr].
  apply Hmissing. rewrite <- Heq. by apply list_elem_of_fmap_2.
Qed.

Lemma deleteTodo_run (target : JsString) (w : World) :
  reachable w = true →
  deleteTodo target w =
    (Fulfilled ResOk,
     mkWorld (filter (λ r, id r ≠ target) (rows w)) true (rpcMode w)
       (trace w ++ [EvDeleteById target; EvRevalidate])).
Proof.
  destruct w as [rs up mode tr]. simpl. intros ->.
  unfold deleteTodo. run_store. by rewrite <- !app_assoc.
Qed.

Lemma clearCompleted_run (w : World) :
  reachable w = true →
  clearCompleted w =
    (Fulfilled ResOk,
     mkWorld (filter (λ r, completed r = false) (rows w)) true (rpcMode w)
       (trace w ++ [EvDeleteCompleted; EvRevalidate])).
Proof.
  destruct w as [rs up mode tr]. simpl. intros ->.
  unfold clearCompleted. run_store. by rewrite <- !app_assoc.
Qed.

(** The view's toggle and the store's toggle are the same map when one row
    carries the identifier. *)
Lemma updateCompletedWhere_flip (target : JsString) (rs : list Todo) (r : Todo) :
  NoDup (id <$> rs) → r ∈ rs → id r = target →
  updateCompletedWhere target (negb (completed r)) rs
  = (λ t, if decide (id t = target)
          then setCompleted (negb (completed t)) t else t) <$> rs.
Proof.
  intros Hnd Hr Hid. unfold updateCompletedWhere.
  apply list_fmap_ext. intros i t Ht. simpl.
  apply list_elem_of_lookup_2 in Ht.
  case_decide as Heq; [|done].
  assert (t = r) as ->; [|done].
  apply (NoDup_fmap_elem_inj id rs); [done..|congruence].
Qed.

Lemma flip_twice (target : JsString) (rs : list Todo) :
  (λ t, if decide (id t = target)
        then setCompleted (negb (completed t)) t else t)
    <$> ((λ t, if decide (id t = target)
               then setCompleted (negb (completed t)) t else t) <$> rs)
  = rs.
Proof.
  rewrite <- list_fmap_compose.
  rewrite <- (list_fmap_id rs) at 2. apply list_fmap_ext.
  intros _ [i t b p] _. unfold compose, setCompleted. simpl.
  destruct (decide (i = target)) as [Heq|Hne]; simpl.
  - rewrite decide_True by done. by rewrite negb_involutive.
  - by rewrite decide_False.
Qed.

Lemma list_filter_all {A} (P : A → Prop) `{!∀ x, Decision (P x)} (l : list A) :
  Forall P l → filter P l = l.
Proof.
  induction 1 as [|x l Hx _ IH]; [done|].
  rewrite filter_cons_True by done. by rewrite IH.
Qed.

Lemma filter_idem {A} (P : A → Prop) `{!∀ x, Decision (P x)} (l : list A) :
  filter P (filter P l) = filter P l.
Proof. apply list_filter_filter_l. done. Qed.

(** X1: with the store reachable and the identifier carried by exactly one
    row, [toggleTodo] resolves to ok after one read and one write; the
    [completed] flag of that row is negated and nothing else changes (no
    other row, no identifier, text or position). *)
Theorem toggle_flips_one_row (target : JsString) (w : World) :
  reachable w = true → NoDup (id <$> rows w) → target ∈ id <$> rows w →
  (toggleTodo target w).1 = Fulfilled ResOk
  ∧ rows (toggleTodo target w).2
    = (λ t, if decide (id t = target)
            then setCompleted (negb (completed t)) t else t) <$> rows w
  ∧ (∃ r, r ∈ rows w ∧ id r = target
          ∧ trace (toggleTodo target w).2
            = trace w ++ [EvSelectCompleted target;
                          EvUpdateCompleted target (negb (completed r));
                          EvRevalidate])
  ∧ id <$> rows (toggleTodo target w).2 = id <$> rows w
  ∧ position <$> rows (toggleTodo target w).2 = position <$> rows w
  ∧ text <$> rows (toggleTodo target w).2 = text <$> rows w.
Proof.
  intros Hup Hnd Hin.
  apply list_elem_of_fmap in Hin as (r & -> & Hr).
  rewrite (toggleTodo_run (id r) w r Hup (filter_id_unique _ _ Hnd Hr)).
  cbn [fst snd rows trace].
  rewrite (updateCompletedWhere_flip (id r) (rows w) r Hnd Hr eq_refl).
  split; [done|]. split; [done|]. split; [by exists r|].
  repeat split; rewrite <- list_fmap_compose; apply list_fmap_ext;
    intros i t _; simpl; by case_decide.
Qed.

Lemma toggle_flips_one_row_witness :
  (toggleTodo idA storeFiveTen).1 = Fulfilled ResOk
  ∧ rows (toggleTodo idA storeFiveTen).2
    = (λ t, if decide (id t = idA)
            then setCompleted (negb (completed t)) t else t)
        <$> rows storeFiveTen
  ∧ (∃ r, r ∈ rows storeFiveTen ∧ id r = idA
          ∧ trace (toggleTodo idA storeFiveTen).2
            = trace storeFiveTen
              ++ [EvSelectCompleted idA;
                  EvUpdateCompleted idA (negb (completed r));
                  EvRevalidate])
  ∧ id <$> rows (toggleTodo idA storeFiveTen).2 = id <$> rows storeFiveTen
  ∧ position <$> rows (toggleTodo idA storeFiveTen).2
    = position <$> rows storeFiveTen
  ∧ text <$> rows (toggleTodo idA storeFiveTen).2 = text <$> rows storeFiveTen.
Proof.
  apply (toggle_flips_one_row idA storeFiveTen).
  - reflexivity.
  - apply (bool_decide_unpack _). vm_compute. exact I.
  - apply (bool_decide_unpack _). vm_compute. exact I.
Defined.

(** X2: toggling the same item twice is a round trip: two [toggleTodo]
    calls leave the table as it was, and two [onToggle] leave the local view
    as it was. *)
Theorem toggle_twice_restores (target : JsString) (w : World) (c : Client) :
  reachable w = true → NoDup (id <$> rows w) → target ∈ id <$> rows w →
  (toggleTodo target (toggleTodo target w).2).1 = Fulfilled ResOk
  ∧ rows (toggleTodo target (toggleTodo target w).2).2 = rows w
  ∧ optimisticTodos (onToggle target (onToggle target c)) = optimisticTodos c.
Proof.
  intros Hup Hnd Hin.
  apply list_elem_of_fmap in Hin as (r & -> & Hr).
  rewrite (toggleTodo_run (id r) w r Hup (filter_id_unique _ _ Hnd Hr)).
  cbn [fst snd].
  rewrite (updateCompletedWhere_flip (id r) (rows w) r Hnd Hr eq_refl).
  set (flip := λ t : Todo, if decide (id t = id r)
                           then setCompleted (negb (completed t)) t else t).
  assert (id <$> (flip <$> rows w) = id <$> rows w) as Hids.
  { rewrite <- list_fmap_compose. apply list_fmap_ext.
    intros i t _. unfold flip. simpl. by case_decide. }
  assert (flip r ∈ flip <$> rows w) as Hr' by by apply list_elem_of_fmap_2.
  assert (id (flip r) = id r) as Hidr by (unfold flip; by case_decide).
  rewrite (toggleTodo_run (id r) _ (flip r)); cbn [rows reachable].
  - cbn [fst snd rows]. split; [done|]. split.
    + rewrite (updateCompletedWhere_flip (id r) _ (flip r));
        [apply flip_twice|by rewrite Hids|done|done].
    + unfold onToggle. simpl. apply flip_twice.
  - done.
  - pose proof (filter_id_unique (flip <$> rows w) (flip r)) as Hone.
    rewrite Hidr in Hone. apply Hone; [by rewrite Hids|done].
Qed.

Lemma toggle_twice_restores_witness :
  (toggleTodo idA (toggleTodo idA storeFiveTen).2).1 = Fulfilled ResOk
  ∧ rows (toggleTodo idA (toggleTodo idA storeFiveTen).2).2
    = rows storeFiveTen
  ∧ optimisticTodos (onToggle idA (onToggle idA clientFiveTen))
    = optimisticTodos clientFiveTen.
Proof.
  apply (toggle_twice_restores idA storeFiveTen clientFiveTen).
  - reflexivity.
  - apply (bool_decide_unpack _). vm_compute. exact I.
  - apply (bool_decide_unpack _). vm_compute. exact I.
Defined.



(** X4: with the store reachable, [deleteTodo] on an identifier in the
    durable format (one the column [id uuid] can be asked for) resolves to
    ok, also when no row carries it (the table is then unchanged); the rows
    left are exactly the rows with another identifier, in their order, and
    a second delete changes nothing more. *)
Theorem delete_removes_exactly_that_row (target : JsString) (w : World) :
  reachable w = true → isUuid target = true →
  (deleteTodo target w).1 = Fulfilled ResOk
  ∧ (target ∉ id <$> rows (deleteTodo target w).2)
  ∧ (∀ r, r ∈ rows (deleteTodo target w).2 ↔ (r ∈ rows w ∧ id r ≠ target))
  ∧ rows (deleteTodo target w).2 `sublist_of` rows w
  ∧ (target ∉ id <$> rows w → rows (deleteTodo target w).2 = rows w)
  ∧ (deleteTodo target (deleteTodo target w).2).1 = Fulfilled ResOk
  ∧ rows (deleteTodo target (deleteTodo target w).2).2
    = rows (deleteTodo target w).2.
Proof.
  intros Hup _. rewrite deleteTodo_run by done. cbn [fst snd rows].
  split; [done|]. split.
  { intros Hin. apply list_elem_of_fmap in Hin as (r & -> & Hr).
    by apply list_elem_of_filter in Hr as [Hne _]. }
  split.
  { intros r. rewrite list_elem_of_filter. tauto. }
  split; [apply sublist_filter|]. split.
  { intros Hno. apply list_filter_all. apply Forall_forall.
    intros r Hr Heq. apply Hno. rewrite <- Heq. by apply list_elem_of_fmap_2. }
  rewrite deleteTodo_run by done. cbn [fst snd rows].
  split; [done|]. apply filter_idem.
Qed.

Lemma delete_removes_exactly_that_row_witness :
  (deleteTodo idA storeFiveTen).1 = Fulfilled ResOk
  ∧ (idA ∉ id <$> rows (deleteTodo idA storeFiveTen).2)
  ∧ (∀ r, r ∈ rows (deleteTodo idA storeFiveTen).2
          ↔ (r ∈ rows storeFiveTen ∧ id r ≠ idA))
  ∧ rows (deleteTodo idA storeFiveTen).2 `sublist_of` rows storeFiveTen
  ∧ (idA ∉ id <$> rows storeFiveTen →
     rows (deleteTodo idA storeFiveTen).2 = rows storeFiveTen)
  ∧ (deleteTodo idA (deleteTodo idA storeFiveTen).2).1 = Fulfilled ResOk
  ∧ rows (deleteTodo idA (deleteTodo idA storeFiveTen).2).2
    = rows (deleteTodo idA storeFiveTen).2.
Proof.
  apply (delete_removes_exactly_that_row idA storeFiveTen); reflexivity.
Defined.

(** X5: with the store reachable [clearCompleted] resolves to ok and leaves
    exactly the rows that are not completed, in their order; a second call
    changes nothing more. *)
Theorem clear_leaves_active_rows (w : World) :
  reachable w = true →
  (clearCompleted w).1 = Fulfilled ResOk
  ∧ Forall (λ r, completed r = false) (rows (clearCompleted w).2)
  ∧ (∀ r, r ∈ rows (clearCompleted w).2
          ↔ (r ∈ rows w ∧ completed r = false))
  ∧ rows (clearCompleted w).2 `sublist_of` rows w
  ∧ (Forall (λ r, completed r = false) (rows w) →
     rows (clearCompleted w).2 = rows w)
  ∧ rows (clearCompleted (clearCompleted w).2).2 = rows (clearCompleted w).2.
Proof.
  intros Hup. rewrite clearCompleted_run by done. cbn [fst snd rows].
  split; [done|]. split.
  { apply Forall_forall. intros r Hr.
    by apply list_elem_of_filter in Hr as [? _]. }
  split.
  { intros r. rewrite list_elem_of_filter. tauto. }
  split; [apply sublist_filter|]. split; [apply list_filter_all|].
  rewrite clearCompleted_run by done. cbn [fst snd rows]. apply filter_idem.
Qed.

Lemma clear_leaves_active_rows_witness :
  (clearCompleted storeFiveTen).1 = Fulfilled ResOk
  ∧ Forall (λ r, completed r = false) (rows (clearCompleted storeFiveTen).2)
  ∧ (∀ r, r ∈ rows (clearCompleted storeFiveTen).2
          ↔ (r ∈ rows storeFiveTen ∧ completed r = false))
  ∧ rows (clearCompleted storeFiveTen).2 `sublist_of` rows storeFiveTen
  ∧ (Forall (λ r, completed r = false) (rows storeFiveTen) →
     rows (clearCompleted storeFiveTen).2 = rows storeFiveTen)
  ∧ rows (clearCompleted (clearCompleted storeFiveTen).2).2
    = rows (clearCompleted storeFiveTen).2.
Proof. apply (clear_leaves_active_rows storeFiveTen). reflexivity. Defined.

(* ================================================================== *)
(** ** What the actions leave alone *)
(* ================================================================== *)

Lemma rpcSucceeds_reachable (w : World) :
  rpcSucceeds w = true → reachable w = true.
Proof. unfold rpcSucceeds. by destruct (rpcMode w). Qed.

Lemma reorderTodos_rows (ids : list JsString) (w : World) :
  rows (reorderTodos ids w).2
  = (if reachable w
     then applyFullOrder 0 (filter (λ x, isUuid x = true) ids) (rows w)
     else rows w)
  ∧ reachable (reorderTodos ids w).2 = reachable w
  ∧ rpcMode (reorderTodos ids w).2 = rpcMode w.
Proof.
  destruct (decide (filter (λ x, isUuid x = true) ids = [])) as [Hnil|Hne].
  - rewrite reorderTodos_nothing_durable by done. rewrite Hnil. simpl.
    by destruct (reachable w).
  - destruct (rpcSucceeds w) eqn:Hrpc.
    + rewrite reorderTodos_atomic by done. cbn [fst snd rows reachable rpcMode].
      by rewrite (rpcSucceeds_reachable w Hrpc).
    + by rewrite reorderTodos_fallback by done.
Qed.

Lemma updatePositionWhere_fields (x : JsString) (p : Z) (rs : list Todo) :
  (λ r, (id r, text r, completed r)) <$> updatePositionWhere x p rs
  = (λ r, (id r, text r, completed r)) <$> rs.
Proof.
  unfold updatePositionWhere. rewrite <- list_fmap_compose.
  apply list_fmap_ext. intros _ r _. simpl. by case_decide.
Qed.

Lemma applyFullOrder_fields (i : nat) (ids : list JsString) (rs : list Todo) :
  (λ r, (id r, text r, completed r)) <$> applyFullOrder i ids rs
  = (λ r, (id r, text r, completed r)) <$> rs.
Proof.
  revert i rs. induction ids as [|x ids IH]; intros i rs; simpl; [done|].
  by rewrite IH, updatePositionWhere_fields.
Qed.

(** X6: when the store does not answer, [fetchTodos], [toggleTodo],
    [deleteTodo], [clearCompleted] and [addTodo] (on a non-empty text)
    reject with the store's error, while [reorderTodos] still resolves to
    ok: the errors of its writes are never looked at.  None of them changes
    the table. *)
Theorem unreachable_store_outcomes (newId target : JsString)
    (formData : FormData) (ids : list JsString) (w : World) :
  reachable w = false →
  (fetchTodos w).1 = Rejected StoreUnavailable
  ∧ (toggleTodo target w).1 = Rejected StoreUnavailable
  ∧ (deleteTodo target w).1 = Rejected StoreUnavailable
  ∧ (clearCompleted w).1 = Rejected StoreUnavailable
  ∧ (textOf formData ≠ [] →
     (addTodo newId formData w).1 = Rejected StoreUnavailable)
  ∧ (reorderTodos ids w).1 = Fulfilled ResOk
  ∧ rows (toggleTodo target w).2 = rows w
  ∧ rows (deleteTodo target w).2 = rows w
  ∧ rows (clearCompleted w).2 = rows w
  ∧ rows (addTodo newId formData w).2 = rows w
  ∧ rows (reorderTodos ids w).2 = rows w.
Proof.
  intros Hdown.
  split; [by rewrite fetchTodos_unreachable|].
  destruct (reorderTodos_writes ids w) as [Hok _].
  destruct (reorderTodos_rows ids w) as [Hrows _]. rewrite Hdown in Hrows.
  destruct w as [rs up mode tr]. simpl in Hdown. subst up.
  split; [unfold toggleTodo; by run_store|].
  split; [unfold deleteTodo; by run_store|].
  split; [unfold clearCompleted; by run_store|].
  split; [intros Htext; by apply addTodo_unreachable|].
  split; [done|].
  split; [unfold toggleTodo; by run_store|].
  split; [unfold deleteTodo; by run_store|].
  split; [unfold clearCompleted; by run_store|].
  split; [|done].
  unfold addTodo, fetchTodos. case_decide; by run_store.
Qed.

Lemma unreachable_store_outcomes_witness :
  (fetchTodos storeDown).1 = Rejected StoreUnavailable
  ∧ (toggleTodo idA storeDown).1 = Rejected StoreUnavailable
  ∧ (deleteTodo idA storeDown).1 = Rejected StoreUnavailable
  ∧ (clearCompleted storeDown).1 = Rejected StoreUnavailable
  ∧ (textOf buyMilk ≠ [] →
     (addTodo idNew buyMilk storeDown).1 = Rejected StoreUnavailable)
  ∧ (reorderTodos [idB; idA] storeDown).1 = Fulfilled ResOk
  ∧ rows (toggleTodo idA storeDown).2 = rows storeDown
  ∧ rows (deleteTodo idA storeDown).2 = rows storeDown
  ∧ rows (clearCompleted storeDown).2 = rows storeDown
  ∧ rows (addTodo idNew buyMilk storeDown).2 = rows storeDown
  ∧ rows (reorderTodos [idB; idA] storeDown).2 = rows storeDown.
Proof.
  apply (unreachable_store_outcomes idNew idA buyMilk [idB; idA] storeDown).
  reflexivity.
Defined.

(** X7: whatever the request and the store, [reorderTodos] adds no row and
    removes none, and changes no identifier, text or [completed] flag; a row
    whose identifier is not a durable identifier of the request keeps its
    position as well. *)
Theorem reorder_changes_positions_only (ids : list JsString) (w : World) :
  (λ r, (id r, text r, completed r)) <$> rows (reorderTodos ids w).2
  = (λ r, (id r, text r, completed r)) <$> rows w
  ∧ length (rows (reorderTodos ids w).2) = length (rows w)
  ∧ (∀ i r, rows w !! i = Some r →
            id r ∉ filter (λ x, isUuid x = true) ids →
            rows (reorderTodos ids w).2 !! i = Some r).
Proof.
  destruct (reorderTodos_rows ids w) as [Hrows _]. rewrite Hrows.
  destruct (reachable w).
  - assert ((λ r, (id r, text r, completed r))
              <$> applyFullOrder 0 (filter (λ x, isUuid x = true) ids) (rows w)
            = (λ r, (id r, text r, completed r)) <$> rows w) as Hfields
      by apply applyFullOrder_fields.
    split; [done|]. split.
    + apply (f_equal length) in Hfields. by rewrite !length_fmap in Hfields.
    + intros i r Hi Hnot. by apply applyFullOrder_untouched.
  - done.
Qed.

(** *** The table after any call *)

Lemma addTodo_rows_cases (newId : JsString) (formData : FormData) (w : World) :
  rows (addTodo newId formData w).2 = rows w
  ∨ rows (addTodo newId formData w).2
    = rows w ++ [mkTodo newId (textOf formData) false (newPos (rows w))].
Proof.
  unfold addTodo, fetchTodos. case_decide; [by left|].
  destruct w as [rs [] mode tr]; run_store; [|by left].
  case_decide; simpl; [by left|]. right.
  by rewrite newPos_orderByPosition.
Qed.

Lemma toggleTodo_rows_cases (target : JsString) (w : World) :
  rows (toggleTodo target w).2 = rows w
  ∨ ∃ value, rows (toggleTodo target w).2
             = updateCompletedWhere target value (rows w).
Proof.
  unfold toggleTodo. destruct w as [rs [] mode tr]; run_store; [|by left].
  destruct (filter (λ r, id r = target) rs) as [|r [|r' rest]]; simpl;
    [by left| |by left].
  right. by eexists.
Qed.

Lemma deleteTodo_rows_cases (target : JsString) (w : World) :
  rows (deleteTodo target w).2 = rows w
  ∨ rows (deleteTodo target w).2 = filter (λ r, id r ≠ target) (rows w).
Proof.
  unfold deleteTodo. destruct w as [rs [] mode tr]; run_store;
    [by right|by left].
Qed.

Lemma clearCompleted_rows_cases (w : World) :
  rows (clearCompleted w).2 = rows w
  ∨ rows (clearCompleted w).2 = filter (λ r, completed r = false) (rows w).
Proof.
  unfold clearCompleted. destruct w as [rs [] mode tr]; run_store;
    [by right|by left].
Qed.

Lemma updateCompletedWhere_positions (target : JsString) (value : bool)
    (rs : list Todo) :
  position <$> updateCompletedWhere target value rs = position <$> rs.
Proof.
  unfold updateCompletedWhere. rewrite <- list_fmap_compose.
  apply list_fmap_ext. intros _ r _. simpl. by case_decide.
Qed.

Lemma NoDup_positions_filter (P : Todo → Prop) `{!∀ x, Decision (P x)}
    (rs : list Todo) :
  NoDup (position <$> rs) → NoDup (position <$> filter P rs).
Proof.
  intros Hnd. eapply sublist_NoDup; [exact Hnd|].
  apply fmap_sublist, sublist_filter.
Qed.

Lemma NoDup_positions_add (rs : list Todo) (row : Todo) :
  NoDup (position <$> rs) → position row = newPos rs →
  NoDup (position <$> rs ++ [row]).
Proof.
  intros Hnd Hpos. rewrite fmap_app. apply NoDup_app.
  split; [done|]. split; [|apply NoDup_singleton].
  intros p Hp Hin. apply list_elem_of_singleton in Hin.
  apply list_elem_of_fmap in Hp as (t & -> & Ht).
  pose proof (newPos_below rs t Ht). simpl in Hin. lia.
Qed.

(** X8: positions that are pairwise distinct values of the column, with
    room below the least, stay pairwise distinct values of the column under
    every server action other than a reorder, however the call ends: an
    insert takes the position just below all others, a toggle writes no
    position, the deletes only remove rows. *)
Theorem positions_stay_distinct (newId : JsString) (sc : ServerCall)
    (w : World) :
  NoDup (position <$> rows w) → hasRoomBelow (rows w) →
  (∀ ids, sc ≠ CallReorderTodos ids) →
  NoDup (position <$> rows (runCall newId sc w).2)
  ∧ Forall (λ p, int4Min ≤ p ≤ int4Max)
      (position <$> rows (runCall newId sc w).2).
Proof.
  intros Hnd Hroom Hsc.
  assert (Forall (λ p, int4Min ≤ p ≤ int4Max) (position <$> rows w)) as Hcol.
  { apply Forall_fmap. eapply Forall_impl; [exact Hroom|].
    simpl. intros r Hr. lia. }
  assert (∀ (P : Todo → Prop) `{!∀ x, Decision (P x)},
            Forall (λ p, int4Min ≤ p ≤ int4Max)
              (position <$> filter P (rows w))) as Hsub.
  { intros P HP. rewrite Forall_forall in *. intros p Hp.
    apply list_elem_of_fmap in Hp as (r & -> & Hr).
    apply list_elem_of_filter in Hr as [_ Hr].
    apply Hcol. by apply list_elem_of_fmap_2. }
  destruct sc as [fd|ids|t|t|]; simpl.
  - destruct (addTodo_rows_cases newId fd w) as [->| ->]; [done|].
    split; [by apply NoDup_positions_add|].
    rewrite fmap_app. apply Forall_app. split; [done|].
    constructor; [|constructor]. simpl. by apply newPos_in_column.
  - by destruct (Hsc ids).
  - destruct (toggleTodo_rows_cases t w) as [->|[value ->]]; [done|].
    by rewrite updateCompletedWhere_positions.
  - destruct (deleteTodo_rows_cases t w) as [->| ->]; [done|].
    split; [by apply NoDup_positions_filter|apply Hsub].
  - destruct (clearCompleted_rows_cases w) as [->| ->]; [done|].
    split; [by apply NoDup_positions_filter|apply Hsub].
Qed.

Lemma positions_stay_distinct_witness :
  NoDup (position
           <$> rows (runCall idNew (CallAddTodo buyMilk) storeFiveTen).2)
  ∧ Forall (λ p, int4Min ≤ p ≤ int4Max)
      (position <$> rows (runCall idNew (CallAddTodo buyMilk) storeFiveTen).2).
Proof.
  apply (positions_stay_distinct idNew (CallAddTodo buyMilk) storeFiveTen).
  - apply (bool_decide_unpack _). vm_compute. exact I.
  - apply (bool_decide_unpack _). vm_compute. exact I.
  - discriminate.
Defined.

(** *** An add, then the next read *)

Lemma listing_cons_least (rs : list Todo) (row : Todo) :
  NoDup (position <$> rs) → position row = newPos rs →
  orderByPosition (rs ++ [row]) = row :: orderByPosition rs.
Proof.
  intros Hnd Hpos.
  apply (StronglySorted_unique_strong positionLe).
  - intros x y Hx Hy Hxy Hyx.
    rewrite orderByPosition_Permutation in Hx.
    assert (y ∈ rs ++ [row]) as Hy'.
    { apply elem_of_cons in Hy as [->|Hy].
      - apply elem_of_app. right. left.
      - rewrite orderByPosition_Permutation in Hy. apply elem_of_app. by left. }
    apply (NoDup_fmap_elem_inj position (rs ++ [row]));
      [by apply NoDup_positions_add|done|done|].
    unfold positionLe in *. lia.
  - apply orderByPosition_Sorted.
  - constructor; [apply orderByPosition_Sorted|].
    apply Forall_forall. intros t Ht.
    rewrite orderByPosition_Permutation in Ht.
    pose proof (newPos_below rs t Ht). unfold positionLe. lia.
  - rewrite !orderByPosition_Permutation.
    by rewrite Permutation_app_comm.
Qed.

Lemma settle_only_call (newId : JsString) (c : Client) (w : World)
    (d : Dispatch) :
  inFlight c = [d] →
  settle newId 0 c w
  = (observe d (runCall newId (call d) w).1
       (mkClient (optimisticTodos c) [] (unhandledRejections c)),
     (runCall newId (call d) w).2).
Proof.
  intros Hd. unfold settle. rewrite Hd. simpl.
  by destruct (runCall newId (call d) w).
Qed.

(** X9: an add on a view that is the listing of the store, with distinct
    positions that are values of the column with room below: the view the
    handler sets is the placeholder followed by the listing; once the
    durable call has landed, the next [fetchTodos] returns the new row
    followed by the previous listing, which is that view with the
    placeholder's identifier replaced by the durable one (same text, flag
    and position); nothing was rejected. *)
Theorem add_then_refresh_matches_view (now : N) (newId : JsString)
    (formData : FormData) (c : Client) (w : World) :
  textOf formData ≠ [] → reachable w = true → newId ∉ id <$> rows w →
  NoDup (position <$> rows w) → hasRoomBelow (rows w) →
  inFlight c = [] → optimisticTodos c = orderByPosition (rows w) →
  let landed := settle newId 0 (onAdd now formData c) w in
  let p := newPos (rows w) in
  optimisticTodos (onAdd now formData c)
  = mkTodo (tempId now) (textOf formData) false p :: orderByPosition (rows w)
  ∧ (fetchTodos landed.2).1
    = Fulfilled (mkTodo newId (textOf formData) false p
                   :: orderByPosition (rows w))
  ∧ int4Min ≤ p ≤ int4Max
  ∧ inFlight landed.1 = []
  ∧ unhandledRejections landed.1 = unhandledRejections c.
Proof.
  intros Htext Hup Hfresh Hnd Hroom Hflight Hview landed p. subst landed.
  assert (inFlight (onAdd now formData c)
          = [mkDispatch (CallAddTodo formData) true]) as Hd.
  { unfold onAdd. rewrite decide_False by done. simpl. by rewrite Hflight. }
  rewrite (settle_only_call _ _ _ _ Hd). cbn [fst snd call runCall].
  rewrite addTodo_run by done. cbn [fst snd observe].
  cbn [optimisticTodos inFlight unhandledRejections].
  split.
  { unfold onAdd. rewrite decide_False by done. simpl.
    rewrite Hview, optimisticMinPos_minPos.
    fold (newPos (orderByPosition (rows w))).
    by rewrite newPos_orderByPosition. }
  split.
  { rewrite fetchTodos_run by done. cbn [fst rows].
    rewrite newPos_orderByPosition. by rewrite listing_cons_least. }
  split; [by apply newPos_in_column|].
  split; [done|].
  unfold onAdd. by rewrite decide_False by done.
Qed.

Lemma add_then_refresh_matches_view_witness :
  optimisticTodos (onAdd 1700000000000 buyMilk clientFiveTen)
  = mkTodo (tempId 1700000000000) (textOf buyMilk) false
      (newPos (rows storeFiveTen))
      :: orderByPosition (rows storeFiveTen)
  ∧ (fetchTodos (settle idNew 0
                   (onAdd 1700000000000 buyMilk clientFiveTen)
                   storeFiveTen).2).1
    = Fulfilled (mkTodo idNew (textOf buyMilk) false
                   (newPos (rows storeFiveTen))
                   :: orderByPosition (rows storeFiveTen))
  ∧ int4Min ≤ newPos (rows storeFiveTen) ≤ int4Max
  ∧ inFlight (settle idNew 0
                (onAdd 1700000000000 buyMilk clientFiveTen)
                storeFiveTen).1 = []
  ∧ unhandledRejections (settle idNew 0
                           (onAdd 1700000000000 buyMilk clientFiveTen)
                           storeFiveTen).1
    = unhandledRejections clientFiveTen.
Proof.
  apply (add_then_refresh_matches_view 1700000000000 idNew buyMilk
           clientFiveTen storeFiveTen).
  - vm_compute. discriminate.
  - reflexivity.
  - apply (bool_decide_unpack _). vm_compute. exact I.
  - apply (bool_decide_unpack _). vm_compute. exact I.
  - apply (bool_decide_unpack _). vm_compute. exact I.
  - reflexivity.
  - reflexivity.
Defined.

(* ================================================================== *)
(** ** The text that is stored *)
(* ================================================================== *)

Lemma trimStart_split (s : JsString) :
  ∃ pre, s = pre ++ trimStart s ∧ Forall (λ c, isWhiteSpace c = true) pre.
Proof.
  induction s as [|c s (pre & Hs & Hpre)]; [by exists []|].
  simpl. destruct (isWhiteSpace c) eqn:Hc.
  - exists (c :: pre). split; [simpl; by rewrite <- Hs|by constructor].
  - by exists [].
Qed.

Lemma trimStart_head (s : JsString) (c : N) :
  head (trimStart s) = Some c → isWhiteSpace c = false.
Proof.
  induction s as [|x s IH]; [done|]. simpl.
  destruct (isWhiteSpace x) eqn:Hx; [done|]. simpl. by intros [= <-].
Qed.

Lemma trimEnd_split (s : JsString) :
  ∃ post, s = trimEnd s ++ post ∧ Forall (λ c, isWhiteSpace c = true) post.
Proof.
  destruct (trimStart_split (reverse s)) as (pre & Hs & Hpre).
  exists (reverse pre). split.
  - unfold trimEnd. rewrite <- reverse_app, <- Hs.
    by rewrite reverse_involutive.
  - by apply Forall_reverse.
Qed.

Lemma trimEnd_last (s : JsString) (c : N) :
  last (trimEnd s) = Some c → isWhiteSpace c = false.
Proof. unfold trimEnd. rewrite last_reverse. apply trimStart_head. Qed.

Lemma trim_head (s : JsString) (c : N) :
  head (trim s) = Some c → isWhiteSpace c = false.
Proof.
  unfold trim. intros Hhead.
  destruct (trimEnd_split (trimStart s)) as (post & Hsplit & _).
  apply (trimStart_head s). rewrite Hsplit.
  by destruct (trimEnd (trimStart s)).
Qed.

(** What [trim] removes is white space, at the two ends. *)
Lemma trim_split (s : JsString) :
  ∃ pre post, s = pre ++ trim s ++ post
              ∧ Forall (λ c, isWhiteSpace c = true) pre
              ∧ Forall (λ c, isWhiteSpace c = true) post.
Proof.
  destruct (trimStart_split s) as (pre & Hs & Hpre).
  destruct (trimEnd_split (trimStart s)) as (post & Ht & Hpost).
  exists pre, post. split; [|done]. unfold trim. by rewrite <- Ht.
Qed.

Lemma trim_trimmedText (s : JsString) : trim s ≠ [] → trimmedText (trim s).
Proof.
  intros Hne. split; [done|]. split.
  - apply trim_head.
  - apply trimEnd_last.
Qed.

Lemma addTodo_rows_inserted (newId : JsString) (formData : FormData)
    (w : World) :
  rows (addTodo newId formData w).2 = rows w
  ∨ (textOf formData ≠ []
     ∧ rows (addTodo newId formData w).2
       = rows w ++ [mkTodo newId (textOf formData) false (newPos (rows w))]).
Proof.
  destruct (decide (textOf formData = [])) as [Hempty|Hne].
  - left. by rewrite addTodo_empty_text.
  - destruct (addTodo_rows_cases newId formData w) as [H|H]; [by left|by right].
Qed.

Lemma updateCompletedWhere_texts (target : JsString) (value : bool)
    (rs : list Todo) :
  text <$> updateCompletedWhere target value rs = text <$> rs.
Proof.
  unfold updateCompletedWhere. rewrite <- list_fmap_compose.
  apply list_fmap_ext. intros _ r _. simpl. by case_decide.
Qed.

Lemma reorderTodos_texts (ids : list JsString) (w : World) :
  text <$> rows (reorderTodos ids w).2 = text <$> rows w.
Proof.
  destruct (reorderTodos_rows ids w) as [-> _].
  destruct (reachable w); [|done].
  pose proof (applyFullOrder_fields 0 (filter (λ x, isUuid x = true) ids)
                (rows w)) as Hfields.
  apply (f_equal (fmap (λ x : JsString * JsString * bool, x.1.2))) in Hfields.
  by rewrite <- !list_fmap_compose in Hfields.
Qed.

Lemma Forall_texts_filter (Q : JsString → Prop) (P : Todo → Prop)
    `{!∀ x, Decision (P x)} (rs : list Todo) :
  Forall Q (text <$> rs) → Forall Q (text <$> filter P rs).
Proof.
  rewrite !Forall_fmap, !Forall_forall. intros Hall r Hr.
  apply list_elem_of_filter in Hr as [_ Hr]. by apply Hall.
Qed.

(** X10: the text of a row is never empty and never starts or ends with
    white space: what the form carries is trimmed, a text that trims to
    nothing is not inserted, and no server action rewrites a text, so the
    property is kept by every call, however it ends. *)
Theorem stored_text_is_trimmed (newId : JsString) (sc : ServerCall)
    (w : World) :
  Forall trimmedText (text <$> rows w) →
  Forall trimmedText (text <$> rows (runCall newId sc w).2).
Proof.
  intros Hinv. destruct sc as [fd|ids|t|t|]; simpl.
  - destruct (addTodo_rows_inserted newId fd w) as [->|[Hne ->]]; [done|].
    rewrite fmap_app. apply Forall_app. split; [done|].
    constructor; [|constructor]. simpl. unfold textOf in *.
    by apply trim_trimmedText.
  - by rewrite reorderTodos_texts.
  - destruct (toggleTodo_rows_cases t w) as [->|[value ->]]; [done|].
    by rewrite updateCompletedWhere_texts.
  - destruct (deleteTodo_rows_cases t w) as [->| ->]; [done|].
    by apply Forall_texts_filter.
  - destruct (clearCompleted_rows_cases w) as [->| ->]; [done|].
    by apply Forall_texts_filter.
Qed.

(** A form whose text has white space at both ends. *)
Lemma stored_text_is_trimmed_witness :
  Forall trimmedText
    (text <$> rows (runCall idNew
                      (CallAddTodo
                         (mkFormData (Some (FdString (lit "  buy milk ")))))
                      emptyStore).2)
  ∧ text <$> rows (runCall idNew
                     (CallAddTodo
                        (mkFormData (Some (FdString (lit "  buy milk ")))))
                     emptyStore).2
    = [lit "buy milk"].
Proof.
  split; [|reflexivity].
  apply (stored_text_is_trimmed idNew _ emptyStore). constructor.
Defined.

(* ================================================================== *)
(** ** The view and the next read *)
(* ================================================================== *)

Lemma orderByPosition_unique (rs l : list Todo) :
  NoDup (position <$> rs) → l ≡ₚ rs → StronglySorted positionLe l →
  l = orderByPosition rs.
Proof.
  intros Hnd Hperm Hsorted.
  apply (StronglySorted_unique_strong positionLe).
  - intros x y Hx Hy Hxy Hyx.
    rewrite Hperm in Hx. rewrite orderByPosition_Permutation in Hy.
    apply (NoDup_fmap_elem_inj position rs); [done..|].
    unfold positionLe in *. lia.
  - done.
  - apply orderByPosition_Sorted.
  - by rewrite orderByPosition_Permutation.
Qed.

Lemma StronglySorted_filter {A} (R : relation A) (P : A → Prop)
    `{!∀ x, Decision (P x)} (l : list A) :
  StronglySorted R l → StronglySorted R (filter P l).
Proof.
  induction 1 as [|x l Hl IH Hx]; [constructor|].
  rewrite filter_cons. case_decide; [|done].
  constructor; [done|].
  rewrite Forall_forall in *. intros y Hy.
  apply list_elem_of_filter in Hy as [_ Hy]. by apply Hx.
Qed.

Lemma orderByPosition_filter (P : Todo → Prop) `{!∀ x, Decision (P x)}
    (rs : list Todo) :
  NoDup (position <$> rs) →
  orderByPosition (filter P rs) = filter P (orderByPosition rs).
Proof.
  intros Hnd. symmetry. apply orderByPosition_unique.
  - by apply NoDup_positions_filter.
  - by rewrite orderByPosition_Permutation.
  - apply StronglySorted_filter, orderByPosition_Sorted.
Qed.

Lemma orderByPosition_fmap (f : Todo → Todo) (rs : list Todo) :
  (∀ r, position (f r) = position r) → NoDup (position <$> rs) →
  orderByPosition (f <$> rs) = f <$> orderByPosition rs.
Proof.
  intros Hf Hnd. symmetry. apply orderByPosition_unique.
  - rewrite <- list_fmap_compose.
    rewrite (list_fmap_ext (position ∘ f) position rs); [done|].
    intros _ r _. apply Hf.
  - by rewrite orderByPosition_Permutation.
  - eapply (StronglySorted_fmap _ positionLe positionLe);
      [|apply orderByPosition_Sorted].
    intros x y. unfold positionLe. by rewrite !Hf.
Qed.

(** X11: a toggle on a view that is the listing of the store (distinct
    identifiers and positions, the item present): once the durable call has
    landed, the next [fetchTodos] returns exactly the local view, and
    nothing was rejected. *)
Theorem toggle_lands_on_the_view (newId target : JsString) (c : Client)
    (w : World) :
  inFlight c = [] → optimisticTodos c = orderByPosition (rows w) →
  reachable w = true → NoDup (id <$> rows w) →
  NoDup (position <$> rows w) → target ∈ id <$> rows w →
  (fetchTodos (settle newId 0 (onToggle target c) w).2).1
  = Fulfilled (optimisticTodos (settle newId 0 (onToggle target c) w).1)
  ∧ inFlight (settle newId 0 (onToggle target c) w).1 = []
  ∧ unhandledRejections (settle newId 0 (onToggle target c) w).1
    = unhandledRejections c.
Proof.
  intros Hflight Hview Hup Hnd Hpos Hin.
  assert (inFlight (onToggle target c)
          = [mkDispatch (CallToggleTodo target) false]) as Hd.
  { unfold onToggle. simpl. by rewrite Hflight. }
  rewrite (settle_only_call _ _ _ _ Hd). cbn [fst snd call runCall].
  apply list_elem_of_fmap in Hin as (r & -> & Hr).
  rewrite (toggleTodo_run (id r) w r Hup (filter_id_unique _ _ Hnd Hr)).
  cbn [fst snd observe optimisticTodos inFlight unhandledRejections].
  split; [|done].
  rewrite fetchTodos_run by done. cbn [fst rows].
  rewrite (updateCompletedWhere_flip (id r) (rows w) r Hnd Hr eq_refl).
  unfold onToggle. simpl. rewrite Hview. f_equal.
  apply orderByPosition_fmap; [|done]. intros t. by case_decide.
Qed.

Lemma toggle_lands_on_the_view_witness :
  (fetchTodos (settle idNew 0 (onToggle idA clientFiveTen) storeFiveTen).2).1
  = Fulfilled
      (optimisticTodos (settle idNew 0 (onToggle idA clientFiveTen)
                          storeFiveTen).1)
  ∧ inFlight (settle idNew 0 (onToggle idA clientFiveTen) storeFiveTen).1 = []
  ∧ unhandledRejections
      (settle idNew 0 (onToggle idA clientFiveTen) storeFiveTen).1
    = unhandledRejections clientFiveTen.
Proof.
  apply (toggle_lands_on_the_view idNew idA clientFiveTen storeFiveTen).
  - reflexivity.
  - reflexivity.
  - reflexivity.
  - apply (bool_decide_unpack _). vm_compute. exact I.
  - apply (bool_decide_unpack _). vm_compute. exact I.
  - apply (bool_decide_unpack _). vm_compute. exact I.
Defined.

(** X12: a delete or a clear-completed on a view that is the listing of the
    store (distinct positions): once the durable call has landed, the next
    [fetchTodos] returns exactly the local view, also when the delete finds
    no such row. *)
Theorem delete_and_clear_land_on_the_view (newId target : JsString)
    (c : Client) (w : World) :
  inFlight c = [] → optimisticTodos c = orderByPosition (rows w) →
  reachable w = true → NoDup (position <$> rows w) →
  (fetchTodos (settle newId 0 (onDelete target c) w).2).1
  = Fulfilled (optimisticTodos (settle newId 0 (onDelete target c) w).1)
  ∧ (fetchTodos (settle newId 0 (onClearCompleted c) w).2).1
    = Fulfilled (optimisticTodos (settle newId 0 (onClearCompleted c) w).1)
  ∧ unhandledRejections (settle newId 0 (onDelete target c) w).1
    = unhandledRejections c
  ∧ unhandledRejections (settle newId 0 (onClearCompleted c) w).1
    = unhandledRejections c.
Proof.
  intros Hflight Hview Hup Hpos.
  assert (inFlight (onDelete target c)
          = [mkDispatch (CallDeleteTodo target) false]) as Hd.
  { unfold onDelete. simpl. by rewrite Hflight. }
  assert (inFlight (onClearCompleted c)
          = [mkDispatch CallClearCompleted false]) as Hc.
  { unfold onClearCompleted. simpl. by rewrite Hflight. }
  rewrite (settle_only_call _ _ _ _ Hd), (settle_only_call _ _ _ _ Hc).
  cbn [fst snd call runCall].
  rewrite deleteTodo_run, clearCompleted_run by done.
  cbn [fst snd observe optimisticTodos inFlight unhandledRejections].
  rewrite !fetchTodos_run by done. cbn [fst rows].
  unfold onDelete, onClearCompleted. simpl. rewrite Hview.
  by rewrite !orderByPosition_filter.
Qed.

Lemma delete_and_clear_land_on_the_view_witness :
  (fetchTodos (settle idNew 0 (onDelete idA clientFiveTen) storeFiveTen).2).1
  = Fulfilled
      (optimisticTodos (settle idNew 0 (onDelete idA clientFiveTen)
                          storeFiveTen).1)
  ∧ (fetchTodos (settle idNew 0 (onClearCompleted clientFiveTen)
                   storeFiveTen).2).1
    = Fulfilled
        (optimisticTodos (settle idNew 0 (onClearCompleted clientFiveTen)
                            storeFiveTen).1)
  ∧ unhandledRejections
      (settle idNew 0 (onDelete idA clientFiveTen) storeFiveTen).1
    = unhandledRejections clientFiveTen
  ∧ unhandledRejections
      (settle idNew 0 (onClearCompleted clientFiveTen) storeFiveTen).1
    = unhandledRejections clientFiveTen.
Proof.
  apply (delete_and_clear_land_on_the_view idNew idA clientFiveTen
           storeFiveTen).
  - reflexivity.
  - reflexivity.
  - reflexivity.
  - apply (bool_decide_unpack _). vm_compute. exact I.
Defined.

(** X13: a durable call that fails because the store does not answer.  The
    rejection of [addTodo] is swallowed by the [.catch] of [onAdd]; the
    rejections of [toggleTodo], [deleteTodo] and [clearCompleted] are left
    unhandled, since [onToggle], [onDelete] and [onClearCompleted] attach
    no handler to the call.  In every case the table is unchanged and the
    call is no longer in flight. *)
Theorem only_a_failed_add_is_caught (now : N) (newId target : JsString)
    (formData : FormData) (c : Client) (w : World) :
  inFlight c = [] → textOf formData ≠ [] → reachable w = false →
  let added := settle newId 0 (onAdd now formData c) w in
  let toggled := settle newId 0 (onToggle target c) w in
  let deleted := settle newId 0 (onDelete target c) w in
  let cleared := settle newId 0 (onClearCompleted c) w in
  unhandledRejections added.1 = unhandledRejections c
  ∧ unhandledRejections toggled.1 = unhandledRejections c ++ [StoreUnavailable]
  ∧ unhandledRejections deleted.1 = unhandledRejections c ++ [StoreUnavailable]
  ∧ unhandledRejections cleared.1 = unhandledRejections c ++ [StoreUnavailable]
  ∧ rows added.2 = rows w ∧ rows toggled.2 = rows w
  ∧ rows deleted.2 = rows w ∧ rows cleared.2 = rows w
  ∧ inFlight added.1 = [] ∧ inFlight toggled.1 = []
  ∧ inFlight deleted.1 = [] ∧ inFlight cleared.1 = [].
Proof.
  intros Hflight Htext Hdown added toggled deleted cleared.
  subst added toggled deleted cleared.
  assert (inFlight (onAdd now formData c)
          = [mkDispatch (CallAddTodo formData) true]) as Ha.
  { unfold onAdd. rewrite decide_False by done. simpl. by rewrite Hflight. }
  assert (unhandledRejections (onAdd now formData c) = unhandledRejections c)
    as Hu by (unfold onAdd; by rewrite decide_False by done).
  assert (inFlight (onToggle target c)
          = [mkDispatch (CallToggleTodo target) false]) as Ht
    by (unfold onToggle; simpl; by rewrite Hflight).
  assert (inFlight (onDelete target c)
          = [mkDispatch (CallDeleteTodo target) false]) as Hd
    by (unfold onDelete; simpl; by rewrite Hflight).
  assert (inFlight (onClearCompleted c)
          = [mkDispatch CallClearCompleted false]) as Hc
    by (unfold onClearCompleted; simpl; by rewrite Hflight).
  rewrite (settle_only_call _ _ _ _ Ha), (settle_only_call _ _ _ _ Ht),
    (settle_only_call _ _ _ _ Hd), (settle_only_call _ _ _ _ Hc).
  cbn [fst snd call runCall]. rewrite Hu.
  assert (addTodo newId formData w
          = (Rejected StoreUnavailable, (addTodo newId formData w).2)
          ∧ rows (addTodo newId formData w).2 = rows w) as [-> ->].
  { destruct w as [rs up mode tr]. simpl in Hdown. subst up.
    unfold addTodo, fetchTodos. rewrite decide_False by done. by run_store. }
  assert (toggleTodo target w
          = (Rejected StoreUnavailable, (toggleTodo target w).2)
          ∧ rows (toggleTodo target w).2 = rows w) as [-> ->].
  { destruct w as [rs up mode tr]. simpl in Hdown. subst up.
    unfold toggleTodo. by run_store. }
  assert (deleteTodo target w
          = (Rejected StoreUnavailable, (deleteTodo target w).2)
          ∧ rows (deleteTodo target w).2 = rows w) as [-> ->].
  { destruct w as [rs up mode tr]. simpl in Hdown. subst up.
    unfold deleteTodo. by run_store. }
  assert (clearCompleted w
          = (Rejected StoreUnavailable, (clearCompleted w).2)
          ∧ rows (clearCompleted w).2 = rows w) as [-> ->].
  { destruct w as [rs up mode tr]. simpl in Hdown. subst up.
    unfold clearCompleted. by run_store. }
  by cbn [fst snd observe hasCatch optimisticTodos inFlight
            unhandledRejections].
Qed.

Lemma only_a_failed_add_is_caught_witness :
  unhandledRejections
    (settle idNew 0 (onAdd 1700000000000 buyMilk clientFiveTen) storeDown).1
  = []
  ∧ unhandledRejections
      (settle idNew 0 (onToggle idA clientFiveTen) storeDown).1
    = [StoreUnavailable]
  ∧ unhandledRejections
      (settle idNew 0 (onDelete idA clientFiveTen) storeDown).1
    = [StoreUnavailable]
  ∧ unhandledRejections
      (settle idNew 0 (onClearCompleted clientFiveTen) storeDown).1
    = [StoreUnavailable]
  ∧ rows (settle idNew 0 (onAdd 1700000000000 buyMilk clientFiveTen)
            storeDown).2 = rows storeDown.
Proof.
  destruct (only_a_failed_add_is_caught 1700000000000 idNew idA buyMilk
              clientFiveTen storeDown)
    as (Ha & Ht & Hd & Hc & Hr & _).
  - reflexivity.
  - vm_compute. discriminate.
  - reflexivity.
  - by repeat split.
Defined.

(* ================================================================== *)
(** ** Moving an item in the view *)
(* ================================================================== *)

Lemma spliceStart_nat {A} (k : nat) (arr : list A) :
  spliceStart (Z.of_nat k) arr = min k (length arr).
Proof. unfold spliceStart. destruct (Z.ltb_spec (Z.of_nat k) 0); lia. Qed.

Lemma spliceOut_delete {A} (start : Z) (arr : list A) :
  spliceOut start arr
  = (arr !! spliceStart start arr, delete (spliceStart start arr) arr).
Proof. unfold spliceOut. by rewrite delete_take_drop. Qed.

Lemma spliceOut_Permutation {A} (start : Z) (arr rest : list A) (moved : A) :
  spliceOut start arr = (Some moved, rest) → arr ≡ₚ moved :: rest.
Proof.
  rewrite spliceOut_delete. intros [= Hm <-]. by apply delete_Permutation.
Qed.

Lemma spliceIn_Permutation {A} (start : Z) (x : A) (arr : list A) :
  spliceIn start x arr ≡ₚ x :: arr.
Proof.
  unfold spliceIn. rewrite <- Permutation_middle. by rewrite take_drop.
Qed.

Lemma spliceIn_lookup {A} (k : nat) (x : A) (arr : list A) :
  (k ≤ length arr)%nat → spliceIn (Z.of_nat k) x arr !! k = Some x.
Proof.
  intros Hk. unfold spliceIn. rewrite spliceStart_nat.
  replace (min k (length arr)) with k by lia.
  apply list_lookup_middle. by rewrite length_take_le.
Qed.

Lemma spliceIn_delete {A} (k : nat) (x : A) (arr : list A) :
  (k ≤ length arr)%nat → delete k (spliceIn (Z.of_nat k) x arr) = arr.
Proof.
  intros Hk. unfold spliceIn. rewrite spliceStart_nat.
  replace (min k (length arr)) with k by lia.
  rewrite <- (length_take_le arr k) at 1 by done.
  rewrite delete_middle. apply take_drop.
Qed.

Lemma findIndex_Some (x : JsString) (arr : list Todo) (i : nat) :
  findIndex x arr = Some i → ∃ t, arr !! i = Some t ∧ id t = x.
Proof.
  revert i. induction arr as [|t arr IH]; intros i; [done|]. simpl.
  case_decide as Heq.
  - intros [= <-]. by exists t.
  - destruct (findIndex x arr) as [j|]; [|done]. simpl. intros [= <-].
    by apply IH.
Qed.

Lemma findIndex_None (x : JsString) (arr : list Todo) :
  findIndex x arr = None ↔ x ∉ id <$> arr.
Proof.
  induction arr as [|t arr IH]; simpl.
  - split; [intros _; apply not_elem_of_nil|done].
  - case_decide as Heq.
    + split; [done|]. intros Hno. exfalso. apply Hno. rewrite <- Heq. left.
    + rewrite not_elem_of_cons. destruct (findIndex x arr); simpl.
      * split; [done|]. intros [_ Hno]. by apply IH in Hno.
      * split; [|done]. intros _. split; [congruence|by apply IH].
Qed.

(** The view after a drop of [draggedId] on [targetId], when both are
    found. *)
Lemma reorderTodosById_view (draggedId targetId : JsString) (c : Client)
    (fromIdx toIdx : nat) :
  findIndex draggedId (optimisticTodos c) = Some fromIdx →
  findIndex targetId (optimisticTodos c) = Some toIdx →
  ∃ moved,
    optimisticTodos c !! fromIdx = Some moved ∧ id moved = draggedId
    ∧ optimisticTodos (reorderTodosById draggedId targetId c)
      = spliceIn (Z.of_nat toIdx) moved (delete fromIdx (optimisticTodos c))
    ∧ (toIdx ≤ length (delete fromIdx (optimisticTodos c)))%nat.
Proof.
  intros Hfrom Hto. unfold reorderTodosById. rewrite Hfrom, Hto.
  destruct (findIndex_Some _ _ _ Hfrom) as (moved & Hm & Hid).
  destruct (findIndex_Some _ _ _ Hto) as (tgt & Ht & _).
  rewrite spliceOut_delete, spliceStart_nat.
  apply lookup_lt_Some in Hm as Hlt. apply lookup_lt_Some in Ht as Hlt'.
  replace (min fromIdx (length (optimisticTodos c))) with fromIdx by lia.
  rewrite Hm. exists moved. split; [done|]. split; [done|]. split.
  - by rewrite persistOrder_view.
  - rewrite length_delete by by eexists. lia.
Qed.

(** X14: a drop of an item on another one of the view loses and duplicates
    nothing: the new view is a permutation of the old one; the dragged item
    sits at the index the target had, and the other items keep their order
    (and every item its local position value). *)
Theorem drop_moves_the_dragged_item (draggedId targetId : JsString)
    (c : Client) (fromIdx toIdx : nat) :
  findIndex draggedId (optimisticTodos c) = Some fromIdx →
  findIndex targetId (optimisticTodos c) = Some toIdx →
  optimisticTodos (reorderTodosById draggedId targetId c)
  ≡ₚ optimisticTodos c
  ∧ (∃ moved,
       optimisticTodos c !! fromIdx = Some moved ∧ id moved = draggedId
       ∧ optimisticTodos (reorderTodosById draggedId targetId c) !! toIdx
         = Some moved)
  ∧ delete toIdx (optimisticTodos (reorderTodosById draggedId targetId c))
    = delete fromIdx (optimisticTodos c)
  ∧ (draggedId ≠ [] → draggedId ≠ targetId →
     handleDrop draggedId targetId c = reorderTodosById draggedId targetId c).
Proof.
  intros Hfrom Hto.
  destruct (reorderTodosById_view _ _ _ _ _ Hfrom Hto)
    as (moved & Hm & Hid & -> & Hle).
  split.
  { rewrite spliceIn_Permutation. symmetry. by apply delete_Permutation. }
  split.
  { exists moved. split; [done|]. split; [done|]. by apply spliceIn_lookup. }
  split; [by apply spliceIn_delete|].
  intros Hne Hdiff. unfold handleDrop. rewrite decide_False; [done|].
  by intros [?|?].
Qed.

Lemma drop_moves_the_dragged_item_witness :
  optimisticTodos (reorderTodosById idC idA clientABC)
  ≡ₚ optimisticTodos clientABC
  ∧ (∃ moved,
       optimisticTodos clientABC !! 2%nat = Some moved ∧ id moved = idC
       ∧ optimisticTodos (reorderTodosById idC idA clientABC) !! 0%nat
         = Some moved)
  ∧ delete 0%nat (optimisticTodos (reorderTodosById idC idA clientABC))
    = delete 2%nat (optimisticTodos clientABC)
  ∧ (idC ≠ [] → idC ≠ idA →
     handleDrop idC idA clientABC = reorderTodosById idC idA clientABC).
Proof.
  apply (drop_moves_the_dragged_item idC idA clientABC 2 0); reflexivity.
Defined.

(** X15: a drop changes nothing and sends nothing when the transferred
    identifier is empty, when the item is dropped on itself, or when either
    identifier is not in the view. *)
Theorem drop_without_effect (draggedId targetId : JsString) (c : Client) :
  draggedId = [] ∨ draggedId = targetId
  ∨ draggedId ∉ id <$> optimisticTodos c
  ∨ targetId ∉ id <$> optimisticTodos c →
  handleDrop draggedId targetId c = c.
Proof.
  intros Hcases. unfold handleDrop. case_decide as Hguard; [done|].
  destruct Hcases as [H|[H|[H|H]]]; [tauto|tauto| |];
    apply findIndex_None in H; unfold reorderTodosById; rewrite H; [done|].
  by destruct (findIndex draggedId (optimisticTodos c)).
Qed.

Lemma drop_without_effect_witness :
  handleDrop idC idA clientFiveTen = clientFiveTen
  ∧ handleDrop idA idA clientFiveTen = clientFiveTen.
Proof.
  split.
  - apply (drop_without_effect idC idA clientFiveTen). right. right. left.
    apply (bool_decide_unpack _). vm_compute. exact I.
  - apply (drop_without_effect idA idA clientFiveTen). right. by left.
Defined.

(** *** Releasing a touch *)

Lemma spliceOut_None {A} (start : Z) (arr : list A) :
  (spliceOut start arr).1 = None
  ↔ Z.of_nat (length arr) ≤ start ∨ arr = [].
Proof.
  rewrite spliceOut_delete. cbn [fst]. rewrite lookup_ge_None.
  unfold spliceStart. destruct arr as [|x arr]; simpl length.
  - split; [by right|]. intros _. destruct (Z.ltb_spec start 0); lia.
  - split.
    + intros H. left. destruct (Z.ltb_spec start 0); lia.
    + intros [H|H]; [|done]. destruct (Z.ltb_spec start 0); lia.
Qed.

(** X16: when [handleTouchEnd] completes, the view holds the same items as
    before (a permutation), and at most one reorder request was added,
    carrying the identifiers of the new view that do not start with
    [temp-]. *)
Theorem touch_end_keeps_the_items (touch : option TouchState)
    (c c' : Client) :
  handleTouchEnd touch c = Some c' →
  optimisticTodos c' ≡ₚ optimisticTodos c
  ∧ (inFlight c' = inFlight c
     ∨ inFlight c'
       = inFlight c
         ++ [mkDispatch (CallReorderTodos (stableIdsOf (optimisticTodos c')))
               false])
  ∧ unhandledRejections c' = unhandledRejections c.
Proof.
  unfold handleTouchEnd. destruct touch as [t|]; [|by intros [= <-]; auto].
  case_decide as Hsame; [by intros [= <-]; auto|].
  destruct (spliceOut (initialIndex t) (optimisticTodos c))
    as [[moved|] rest] eqn:Hout; [|done].
  intros [= <-]. rewrite persistOrder_view.
  cbn [setOptimisticTodos optimisticTodos]. split.
  { rewrite spliceIn_Permutation. symmetry.
    by eapply spliceOut_Permutation. }
  split.
  - destruct (persistOrder_inFlight
                (stableIdsOf (spliceIn (currentIndex t) moved rest))
                (setOptimisticTodos (spliceIn (currentIndex t) moved rest) c))
      as [[_ H]|[_ H]]; [by left|by right].
  - unfold persistOrder. by case_decide.
Qed.

Lemma touch_end_keeps_the_items_witness :
  optimisticTodos
    (default clientABC (handleTouchEnd (Some (mkTouchState 2 0)) clientABC))
  ≡ₚ optimisticTodos clientABC
  ∧ id <$> optimisticTodos
             (default clientABC
                (handleTouchEnd (Some (mkTouchState 2 0)) clientABC))
    = [idC; idA; idB].
Proof.
  split; [|reflexivity].
  apply (touch_end_keeps_the_items (Some (mkTouchState 2 0)) clientABC).
  reflexivity.
Defined.

(** X17: [handleTouchEnd] does nothing when no touch is recorded or when
    the index has not changed, in particular when a touch start is followed
    at once by the release; it throws (on [undefined.id]) exactly when the
    index has changed and the start index is not an index of the view any
    more (the view is empty, or shorter than the start index). *)
Theorem touch_end_edge_cases (t : TouchState) (target : JsString)
    (c : Client) :
  handleTouchEnd None c = Some c
  ∧ (initialIndex t = currentIndex t → handleTouchEnd (Some t) c = Some c)
  ∧ handleTouchEnd (Some (handleTouchStart target c)) c = Some c
  ∧ (handleTouchEnd (Some t) c = None
     ↔ initialIndex t ≠ currentIndex t
       ∧ (Z.of_nat (length (optimisticTodos c)) ≤ initialIndex t
          ∨ optimisticTodos c = [])).
Proof.
  split; [done|]. split.
  { intros Heq. unfold handleTouchEnd. by rewrite decide_True. }
  split.
  { unfold handleTouchEnd, handleTouchStart. simpl. by rewrite decide_True. }
  unfold handleTouchEnd. case_decide as Heq.
  { split; [done|]. by intros [? _]. }
  rewrite <- spliceOut_None.
  destruct (spliceOut (initialIndex t) (optimisticTodos c)) as [[moved|] rest];
    simpl; split; try done.
  by intros [_ ?].
Qed.

Lemma touch_end_edge_cases_witness :
  handleTouchEnd (Some (mkTouchState 5 0)) clientABC = None
  ∧ handleTouchEnd (Some (mkTouchState 1 1)) clientABC = Some clientABC.
Proof.
  destruct (touch_end_edge_cases (mkTouchState 5 0) idA clientABC)
    as (_ & _ & _ & Hthrows).
  destruct (touch_end_edge_cases (mkTouchState 1 1) idA clientABC)
    as (_ & Htap & _).
  split.
  - apply Hthrows. split; [done|]. left. simpl. lia.
  - by apply Htap.
Defined.

(* ================================================================== *)
(** ** The index a touch move computes *)
(* ================================================================== *)

Lemma scan_all_dragged {num} (lessThan : num → num → bool) (d : num)
    (init : Z) (i : nat) (els : list (TodoElement num)) (acc : Z) :
  Forall (λ x, isDragged x = true) els →
  scanTodoElements lessThan d init i els acc = acc.
Proof.
  revert i. induction els as [|x els IH]; intros i Hall; [done|].
  apply Forall_cons in Hall as [Hx Hall]. simpl. rewrite Hx. by apply IH.
Qed.

Lemma scan_first_below {num} (lessThan : num → num → bool) (d : num)
    (init : Z) (i : nat) (pre post : list (TodoElement num))
    (el : TodoElement num) (acc : Z) :
  Forall (λ x, isDragged x = true ∨ lessThan d (centerY x) = false) pre →
  isDragged el = false → lessThan d (centerY el) = true →
  scanTodoElements lessThan d init i (pre ++ el :: post) acc
  = Z.min (Z.of_nat (i + length pre)) init.
Proof.
  intros Hpre Hel Hbelow. revert i acc.
  induction Hpre as [|x pre Hx _ IH]; intros i acc; simpl.
  - rewrite Hel, Hbelow. by rewrite Nat.add_0_r.
  - replace (i + S (length pre))%nat with (S i + length pre)%nat by lia.
    destruct (isDragged x) eqn:Hdx; [apply IH|].
    destruct Hx as [Hx|Hx]; [done|]. rewrite Hx. apply IH.
Qed.

Lemma scan_none_below {num} (lessThan : num → num → bool) (d : num)
    (init : Z) (i : nat) (pre post : list (TodoElement num))
    (el : TodoElement num) (acc : Z) :
  Forall (λ x, isDragged x = true ∨ lessThan d (centerY x) = false) pre →
  isDragged el = false → lessThan d (centerY el) = false →
  Forall (λ x, isDragged x = true) post →
  scanTodoElements lessThan d init i (pre ++ el :: post) acc
  = Z.max (Z.of_nat (i + length pre)) init.
Proof.
  intros Hpre Hel Hnot Hpost. revert i acc.
  induction Hpre as [|x pre Hx _ IH]; intros i acc; simpl.
  - rewrite Hel, Hnot. rewrite scan_all_dragged by done.
    by rewrite Nat.add_0_r.
  - replace (i + S (length pre))%nat with (S i + length pre)%nat by lia.
    destruct (isDragged x) eqn:Hdx; [apply IH|].
    destruct Hx as [Hx|Hx]; [done|]. rewrite Hx. apply IH.
Qed.

Lemma scan_bounds {num} (lessThan : num → num → bool) (d : num)
    (init : Z) (i : nat) (els : list (TodoElement num)) (acc : Z) :
  0 ≤ init →
  init ≤ acc ≤ Z.max init (Z.of_nat (i + length els) - 1) →
  0 ≤ scanTodoElements lessThan d init i els acc
    ≤ Z.max init (Z.of_nat (i + length els) - 1).
Proof.
  intros Hinit. revert i acc.
  induction els as [|x els IH]; intros i acc Hacc; simpl in *; [lia|].
  replace (i + S (length els))%nat with (S i + length els)%nat in * by lia.
  destruct (isDragged x); [by apply IH|].
  destruct (lessThan d (centerY x)); [lia|]. apply IH. lia.
Qed.

Lemma scan_le_initial {num} (lessThan : num → num → bool) (d : num)
    (init : Z) (i : nat) (els : list (TodoElement num)) (acc : Z) :
  Exists (λ x, isDragged x = false ∧ lessThan d (centerY x) = true) els →
  scanTodoElements lessThan d init i els acc ≤ init.
Proof.
  intros Hex. revert i acc.
  induction els as [|x els IH]; intros i acc; [by apply Exists_nil in Hex|].
  apply Exists_cons in Hex. simpl.
  destruct (isDragged x) eqn:Hdx.
  - destruct Hex as [[? _]|Hex]; [done|]. by apply IH.
  - destruct (lessThan d (centerY x)) eqn:Hx; [lia|].
    destruct Hex as [[_ ?]|Hex]; [done|]. by apply IH.
Qed.

(** X18: the index a touch move computes, when some other element lies
    below the dragged centre: it is the index of the first such element if
    that is before the start index, and the start index otherwise, however
    many elements after the start index the dragged centre has passed. *)
Theorem touch_index_first_element_below {num} (lessThan : num → num → bool)
    (draggedCenterY : num) (initialIndex : Z)
    (pre post : list (TodoElement num)) (el : TodoElement num) :
  Forall (λ x, isDragged x = true
               ∨ lessThan draggedCenterY (centerY x) = false) pre →
  isDragged el = false → lessThan draggedCenterY (centerY el) = true →
  targetIndex lessThan draggedCenterY initialIndex (pre ++ el :: post)
  = Z.min (Z.of_nat (length pre)) initialIndex
  ∧ (Z.of_nat (length pre) ≤ initialIndex →
     targetIndex lessThan draggedCenterY initialIndex (pre ++ el :: post)
     = Z.of_nat (length pre))
  ∧ (initialIndex ≤ Z.of_nat (length pre) →
     targetIndex lessThan draggedCenterY initialIndex (pre ++ el :: post)
     = initialIndex).
Proof.
  intros Hpre Hel Hbelow. unfold targetIndex.
  rewrite (scan_first_below lessThan draggedCenterY initialIndex 0 pre post el)
    by done.
  simpl. repeat split; lia.
Qed.

Lemma touch_index_first_element_below_witness :
  targetIndex Z.ltb 15 2 elementsDragLast = Z.min 1 2
  ∧ (1 ≤ 2 → targetIndex Z.ltb 15 2 elementsDragLast = 1)
  ∧ (2 ≤ 1 → targetIndex Z.ltb 15 2 elementsDragLast = 2).
Proof.
  apply (touch_index_first_element_below Z.ltb 15 2
           [mkTodoElement false 10] [mkTodoElement true 30]
           (mkTodoElement false 20)).
  - constructor; [by right|constructor].
  - reflexivity.
  - reflexivity.
Defined.

(** X19: when no other element lies below the dragged centre, the index is
    the index of the last other element, or the start index if that is
    larger. *)
Theorem touch_index_below_all_elements {num} (lessThan : num → num → bool)
    (draggedCenterY : num) (initialIndex : Z)
    (pre post : list (TodoElement num)) (el : TodoElement num) :
  Forall (λ x, isDragged x = true
               ∨ lessThan draggedCenterY (centerY x) = false) pre →
  isDragged el = false → lessThan draggedCenterY (centerY el) = false →
  Forall (λ x, isDragged x = true) post →
  targetIndex lessThan draggedCenterY initialIndex (pre ++ el :: post)
  = Z.max (Z.of_nat (length pre)) initialIndex.
Proof.
  intros Hpre Hel Hnot Hpost. unfold targetIndex.
  by rewrite (scan_none_below lessThan draggedCenterY initialIndex 0 pre post
                el).
Qed.

Lemma touch_index_below_all_elements_witness :
  targetIndex Z.ltb 50 0 elementsDragFirst = Z.max 2 0.
Proof.
  apply (touch_index_below_all_elements Z.ltb 50 0
           [mkTodoElement true 10; mkTodoElement false 20] []
           (mkTodoElement false 30)).
  - constructor; [by left|]. constructor; [by right|constructor].
  - reflexivity.
  - reflexivity.
  - constructor.
Defined.

Lemma targetIndex_range {num} (lessThan : num → num → bool)
    (draggedCenterY : num) (initialIndex : Z)
    (todoElements : list (TodoElement num)) :
  0 ≤ initialIndex →
  0 ≤ targetIndex lessThan draggedCenterY initialIndex todoElements
    ≤ Z.max initialIndex (Z.of_nat (length todoElements) - 1).
Proof.
  intros Hinit. unfold targetIndex.
  pose proof (scan_bounds lessThan draggedCenterY initialIndex 0
                todoElements initialIndex Hinit) as H.
  simpl in H. apply H. lia.
Qed.

(** X20: from a start index that is not negative, the index computed is
    never negative and never beyond the larger of the start index and the
    last index of the rendered list; and it is at most the start index as
    soon as one other element lies below the dragged centre. *)
Theorem touch_index_bounds {num} (lessThan : num → num → bool)
    (draggedCenterY : num) (initialIndex : Z)
    (todoElements : list (TodoElement num)) :
  0 ≤ initialIndex →
  0 ≤ targetIndex lessThan draggedCenterY initialIndex todoElements
    ≤ Z.max initialIndex (Z.of_nat (length todoElements) - 1)
  ∧ (Exists (λ x, isDragged x = false
                  ∧ lessThan draggedCenterY (centerY x) = true)
       todoElements →
     targetIndex lessThan draggedCenterY initialIndex todoElements
     ≤ initialIndex).
Proof.
  intros Hinit. split.
  - unfold targetIndex.
    pose proof (scan_bounds lessThan draggedCenterY initialIndex 0
                  todoElements initialIndex Hinit) as H.
    simpl in H. apply H. lia.
  - apply scan_le_initial.
Qed.

Lemma touch_index_bounds_witness :
  0 ≤ targetIndex Z.ltb 15 2 elementsDragLast
    ≤ Z.max 2 (Z.of_nat (length elementsDragLast) - 1)
  ∧ (Exists (λ x, isDragged x = false ∧ Z.ltb 15 (centerY x) = true)
       elementsDragLast →
     targetIndex Z.ltb 15 2 elementsDragLast ≤ 2).
Proof. apply (touch_index_bounds Z.ltb 15 2 elementsDragLast). lia. Defined.

(* ================================================================== *)
(** ** The preview of a touch drag and the release *)
(* ================================================================== *)

Lemma spliceIn_lookup_any {A} (k j : nat) (x : A) (arr : list A) :
  (k ≤ length arr)%nat →
  spliceIn (Z.of_nat k) x arr !! j
  = if decide (j < k)%nat then arr !! j
    else if decide (j = k) then Some x else arr !! (j - 1)%nat.
Proof.
  intros Hk. unfold spliceIn. rewrite spliceStart_nat.
  replace (min k (length arr)) with k by lia.
  case_decide as Hlt.
  - rewrite lookup_app_l by (rewrite length_take_le; lia).
    by apply lookup_take_lt.
  - rewrite lookup_app_r by (rewrite length_take_le; lia).
    rewrite length_take_le by done. case_decide as Heq.
    + subst j. by rewrite Nat.sub_diag.
    + destruct (j - k)%nat as [|n] eqn:Hn; [lia|]. simpl.
      rewrite lookup_drop. f_equal. lia.
Qed.

(** Where the items of a list are after the item at [fromIdx] has been
    taken out and put back at [toIdx]. *)
Lemma moved_lookup {A} (l : list A) (fromIdx toIdx i : nat) (m : A) :
  l !! fromIdx = Some m → (toIdx < length l)%nat → i ≠ fromIdx →
  spliceIn (Z.of_nat toIdx) m (delete fromIdx l)
    !! Z.to_nat (Z.of_nat i
                 + shiftOffset (Z.of_nat fromIdx) (Z.of_nat toIdx) (Z.of_nat i))
  = l !! i.
Proof.
  intros Hm Hto Hi. apply lookup_lt_Some in Hm as Hfrom.
  assert (length (delete fromIdx l) = (length l - 1)%nat) as Hlen
    by (apply length_delete; by eexists).
  rewrite spliceIn_lookup_any by lia.
  unfold shiftOffset.
  destruct (Z.ltb_spec (Z.of_nat fromIdx) (Z.of_nat toIdx)).
  - destruct (Z.ltb_spec (Z.of_nat fromIdx) (Z.of_nat i));
      destruct (Z.leb_spec (Z.of_nat i) (Z.of_nat toIdx)); simpl;
      repeat case_decide; try lia; rewrite list_lookup_delete;
      case_decide; try lia; f_equal; lia.
  - destruct (Z.leb_spec (Z.of_nat toIdx) (Z.of_nat i));
      destruct (Z.ltb_spec (Z.of_nat i) (Z.of_nat fromIdx)); simpl;
      repeat case_decide; try lia; rewrite list_lookup_delete;
      case_decide; try lia; f_equal; lia.
Qed.

(** X21: the displacement [updateTodoPositions] shows during a touch drag
    agrees with what the release does: after [handleTouchEnd], the dragged
    item is at the current index and every other item is at its old index
    plus the offset it was shown with. *)
Theorem preview_offsets_match_release (fromIdx toIdx : nat) (c : Client) :
  (fromIdx < length (optimisticTodos c))%nat →
  (toIdx < length (optimisticTodos c))%nat →
  ∃ c',
    handleTouchEnd
      (Some (mkTouchState (Z.of_nat fromIdx) (Z.of_nat toIdx))) c = Some c'
    ∧ optimisticTodos c' !! toIdx = optimisticTodos c !! fromIdx
    ∧ ∀ i, i ≠ fromIdx →
           optimisticTodos c'
             !! Z.to_nat (Z.of_nat i
                          + shiftOffset (Z.of_nat fromIdx) (Z.of_nat toIdx)
                              (Z.of_nat i))
           = optimisticTodos c !! i.
Proof.
  intros Hfrom Hto. unfold handleTouchEnd. cbn [initialIndex currentIndex].
  case_decide as Hsame.
  - apply Nat2Z.inj in Hsame as ->. exists c. split; [done|]. split; [done|].
    intros i Hi. f_equal. unfold shiftOffset.
    rewrite Z.ltb_irrefl.
    destruct (Z.leb_spec (Z.of_nat toIdx) (Z.of_nat i));
      destruct (Z.ltb_spec (Z.of_nat i) (Z.of_nat toIdx)); simpl; lia.
  - destruct (lookup_lt_is_Some_2 _ _ Hfrom) as [m Hm].
    rewrite spliceOut_delete, spliceStart_nat.
    replace (min fromIdx (length (optimisticTodos c))) with fromIdx by lia.
    rewrite Hm. eexists. split; [reflexivity|].
    rewrite persistOrder_view. cbn [setOptimisticTodos optimisticTodos].
    assert (length (delete fromIdx (optimisticTodos c))
            = (length (optimisticTodos c) - 1)%nat) as Hlen
      by (apply length_delete; by eexists).
    split.
    + apply spliceIn_lookup. lia.
    + intros i Hi. by apply moved_lookup.
Qed.

Lemma preview_offsets_match_release_witness :
  ∃ c',
    handleTouchEnd (Some (mkTouchState (Z.of_nat 2) (Z.of_nat 0))) clientABC
    = Some c'
    ∧ optimisticTodos c' !! 0%nat = optimisticTodos clientABC !! 2%nat
    ∧ ∀ i, i ≠ 2%nat →
           optimisticTodos c'
             !! Z.to_nat (Z.of_nat i
                          + shiftOffset (Z.of_nat 2) (Z.of_nat 0) (Z.of_nat i))
           = optimisticTodos clientABC !! i.
Proof.
  apply (preview_offsets_match_release 2 0 clientABC); simpl; lia.
Defined.

Lemma handleTouchEnd_in_range (fromIdx toIdx : nat) (c : Client) :
  (fromIdx < length (optimisticTodos c))%nat →
  (toIdx < length (optimisticTodos c))%nat →
  ∃ c',
    handleTouchEnd
      (Some (mkTouchState (Z.of_nat fromIdx) (Z.of_nat toIdx))) c = Some c'
    ∧ optimisticTodos c' ≡ₚ optimisticTodos c
    ∧ optimisticTodos c' !! toIdx = optimisticTodos c !! fromIdx.
Proof.
  intros Hfrom Hto. unfold handleTouchEnd. cbn [initialIndex currentIndex].
  case_decide as Hsame.
  - apply Nat2Z.inj in Hsame as ->. by exists c.
  - destruct (lookup_lt_is_Some_2 _ _ Hfrom) as [m Hm].
    rewrite spliceOut_delete, spliceStart_nat.
    replace (min fromIdx (length (optimisticTodos c))) with fromIdx by lia.
    rewrite Hm. eexists. split; [reflexivity|].
    rewrite persistOrder_view. cbn [setOptimisticTodos optimisticTodos].
    split.
    + rewrite spliceIn_Permutation. symmetry. by apply delete_Permutation.
    + apply spliceIn_lookup.
      rewrite length_delete by by eexists. lia.
Qed.

(** X22: a whole touch drag.  A touch that starts on an item of the view,
    moves over a rendered list as long as the view, and is released.  When
    the move is by more than the threshold, or the component is in delete
    mode (whatever the size of the move), the release does not throw, the
    view keeps its items, and the touched item ends at the index the move
    computed, which is an index of the view.  A move within the threshold
    outside delete mode is ignored: the recorded touch is unchanged and the
    release changes nothing. *)
Theorem touch_drag_moves_the_item {num} (lessThan : num → num → bool)
    (draggedCenterY : num) (todoElements : list (TodoElement num))
    (smallMove isDeleteMode : bool) (target : JsString) (c : Client)
    (k : nat) :
  findIndex target (optimisticTodos c) = Some k →
  length todoElements = length (optimisticTodos c) →
  smallMove = false ∨ isDeleteMode = true →
  (∃ (t : TouchState) (c' : Client),
     handleTouchMove lessThan smallMove isDeleteMode draggedCenterY
       todoElements (Some (handleTouchStart target c)) = Some t
     ∧ initialIndex t = Z.of_nat k
     ∧ currentIndex t
       = targetIndex lessThan draggedCenterY (Z.of_nat k) todoElements
     ∧ 0 ≤ currentIndex t < Z.of_nat (length (optimisticTodos c))
     ∧ handleTouchEnd (Some t) c = Some c'
     ∧ optimisticTodos c' ≡ₚ optimisticTodos c
     ∧ optimisticTodos c' !! Z.to_nat (currentIndex t)
       = optimisticTodos c !! k)
  ∧ handleTouchMove lessThan true false draggedCenterY todoElements
      (Some (handleTouchStart target c))
    = Some (handleTouchStart target c)
  ∧ handleTouchEnd
      (handleTouchMove lessThan true false draggedCenterY todoElements
         (Some (handleTouchStart target c))) c
    = Some c.
Proof.
  intros Hk Hlen Hmove.
  assert (smallMove && negb isDeleteMode = false) as Hguard.
  { destruct Hmove as [-> | ->]; [done|]. by destruct smallMove. }
  split; [|split; [done|]].
  2:{ unfold handleTouchMove, handleTouchEnd, handleTouchStart. simpl.
      by rewrite decide_True. }
  destruct (findIndex_Some _ _ _ Hk) as (item & Hitem & _).
  apply lookup_lt_Some in Hitem as Hlt.
  set (j := targetIndex lessThan draggedCenterY (Z.of_nat k) todoElements).
  assert (0 ≤ j < Z.of_nat (length (optimisticTodos c))) as Hj.
  { destruct (targetIndex_range lessThan draggedCenterY (Z.of_nat k)
                todoElements) as [H0 H1]; [lia|]. fold j in H0, H1. lia. }
  destruct (handleTouchEnd_in_range k (Z.to_nat j) c)
    as (c' & Hend & Hperm & Hat); [lia..|].
  rewrite Z2Nat.id in Hend by lia.
  exists (mkTouchState (Z.of_nat k) j), c'.
  split.
  { unfold handleTouchMove. rewrite Hguard.
    unfold handleTouchStart, findIndexNumber. rewrite Hk.
    simpl. fold j. case_decide as Heq; [|done]. by rewrite <- Heq. }
  cbn [initialIndex currentIndex]. split; [done|]. split; [done|].
  split; [lia|]. by repeat split.
Qed.

(** A move of a few pixels in delete mode. *)
Lemma touch_drag_moves_the_item_witness :
  (∃ (t : TouchState) (c' : Client),
     handleTouchMove Z.ltb true true 15 elementsDragLast
       (Some (handleTouchStart idC clientABC)) = Some t
     ∧ initialIndex t = Z.of_nat 2
     ∧ currentIndex t = targetIndex Z.ltb 15 (Z.of_nat 2) elementsDragLast
     ∧ 0 ≤ currentIndex t < Z.of_nat (length (optimisticTodos clientABC))
     ∧ handleTouchEnd (Some t) clientABC = Some c'
     ∧ optimisticTodos c' ≡ₚ optimisticTodos clientABC
     ∧ optimisticTodos c' !! Z.to_nat (currentIndex t)
       = optimisticTodos clientABC !! 2%nat)
  ∧ handleTouchMove Z.ltb true false 15 elementsDragLast
      (Some (handleTouchStart idC clientABC))
    = Some (handleTouchStart idC clientABC)
  ∧ handleTouchEnd
      (handleTouchMove Z.ltb true false 15 elementsDragLast
         (Some (handleTouchStart idC clientABC))) clientABC
    = Some clientABC.
Proof.
  apply (touch_drag_moves_the_item Z.ltb 15 elementsDragLast true true idC
           clientABC 2); [reflexivity|reflexivity|right; reflexivity].
Defined.

(* ================================================================== *)
(** ** The Supabase client *)
(* ================================================================== *)

Lemma getSupabase_cached {C} (createClient : JsString → JsString → option C)
    (env : ProcessEnv) (client : C) :
  getSupabase createClient env (Some client)
  = (ClientReturned client, Some client).
Proof. reflexivity. Qed.

Lemma getSupabase_result {C} (createClient : JsString → JsString → option C)
    (env : ProcessEnv) (cached cached' : option C) (r : ClientResult C) :
  getSupabase createClient env cached = (r, cached') →
  match r with
  | ClientReturned client => cached' = Some client
  | ThrowsEnvMissing | ThrowsInCreateClient => cached = None ∧ cached' = None
  end.
Proof.
  unfold getSupabase. destruct cached as [client|]; [by intros [= <- <-]|].
  destruct (isFalsy _ || isFalsy _); [by intros [= <- <-]|].
  destruct (NEXT_PUBLIC_SUPABASE_URL env) as [url|]; [|by intros [= <- <-]].
  destruct (NEXT_PUBLIC_SUPABASE_ANON_KEY env) as [key|];
    [|by intros [= <- <-]].
  destruct (createClient url key); by intros [= <- <-].
Qed.

Lemma getSupabaseCalls_cached {C}
    (createClient : JsString → JsString → option C)
    (envs : list ProcessEnv) (client : C) :
  getSupabaseCalls createClient envs (Some client)
  = replicate (length envs) (ClientReturned client).
Proof. induction envs as [|env envs IH]; [done|]. simpl. by rewrite IH. Qed.

(** X23: [getSupabase] builds at most one client per process.  In any
    sequence of calls, whatever the environment each call sees and whatever
    [createClient] does, all the clients returned are the same one; the
    calls that throw all come before the first that returns, and from then
    on every call returns the cached client without reading the
    environment. *)
Theorem supabase_client_is_built_once {C}
    (createClient : JsString → JsString → option C)
    (envs : list ProcessEnv) :
  ∃ (n : nat) (rest : list (ClientResult C)),
    getSupabaseCalls createClient envs None
    = take n (getSupabaseCalls createClient envs None) ++ rest
    ∧ Forall (λ r, r = ThrowsEnvMissing ∨ r = ThrowsInCreateClient)
        (take n (getSupabaseCalls createClient envs None))
    ∧ (rest = [] ∨ ∃ client, rest = replicate (length rest)
                                      (ClientReturned client)).
Proof.
  induction envs as [|env envs (n & rest & Heq & Hthrows & Hrest)].
  - exists 0%nat, []. split; [done|]. split; [constructor|by left].
  - cbn [getSupabaseCalls].
    destruct (getSupabase createClient env None) as [r cached'] eqn:Hcall.
    pose proof (getSupabase_result _ _ _ _ _ Hcall) as Hr.
    destruct r as [client| |].
    + subst cached'. rewrite getSupabaseCalls_cached.
      exists 0%nat, (ClientReturned client
                       :: replicate (length envs) (ClientReturned client)).
      split; [done|]. split; [constructor|]. right. exists client.
      simpl. by rewrite length_replicate.
    + destruct Hr as [_ ->]. exists (S n), rest. simpl.
      split; [by rewrite <- Heq|]. split; [|done]. constructor; [by left|done].
    + destruct Hr as [_ ->]. exists (S n), rest. simpl.
      split; [by rewrite <- Heq|]. split; [|done]. constructor; [by right|done].
Qed.

(** X24: a first call of [getSupabase] throws the missing-variables error
    exactly when the URL or the key is undefined or empty, and leaves
    nothing cached, so a later call tries again; once a client is cached it
    is returned whatever the environment has become. *)
Theorem supabase_client_needs_both_variables {C}
    (createClient : JsString → JsString → option C)
    (env env' : ProcessEnv) (client : C) :
  ((getSupabase createClient env None).1 = ThrowsEnvMissing
   ↔ isFalsy (NEXT_PUBLIC_SUPABASE_URL env) = true
     ∨ isFalsy (NEXT_PUBLIC_SUPABASE_ANON_KEY env) = true)
  ∧ ((getSupabase createClient env None).1 = ThrowsEnvMissing →
     (getSupabase createClient env None).2 = None)
  ∧ ((getSupabase createClient env None).1 = ClientReturned client →
     getSupabase createClient env'
       (getSupabase createClient env None).2
     = (ClientReturned client, Some client)).
Proof.
  split; [|split].
  - unfold getSupabase.
    destruct (NEXT_PUBLIC_SUPABASE_URL env) as [[|u url]|];
      destruct (NEXT_PUBLIC_SUPABASE_ANON_KEY env) as [[|k key]|]; simpl;
      try (split; [auto|done]).
    destruct (createClient _ _); simpl; split; try done;
      by intros [?|?].
  - intros Hthrow.
    destruct (getSupabase createClient env None) as [r cached'] eqn:Hcall.
    pose proof (getSupabase_result _ _ _ _ _ Hcall) as Hr.
    simpl in *. subst r. by destruct Hr.
  - intros Hret.
    destruct (getSupabase createClient env None) as [r cached'] eqn:Hcall.
    pose proof (getSupabase_result _ _ _ _ _ Hcall) as Hr.
    simpl in *. subst r. by subst cached'.
Qed.

Lemma supabase_client_needs_both_variables_witness :
  (getSupabase pairClient envNoKey None).1 = ThrowsEnvMissing
  ∧ (getSupabase pairClient envNoKey None).2 = None
  ∧ getSupabase pairClient envNoKey (getSupabase pairClient envReady None).2
    = (ClientReturned (lit "https://db.example", lit "anon-key"),
       Some (lit "https://db.example", lit "anon-key")).
Proof.
  destruct (supabase_client_needs_both_variables pairClient envNoKey envNoKey
              (lit "https://db.example", lit "anon-key"))
    as (Hiff & Hnone & _).
  destruct (supabase_client_needs_both_variables pairClient envReady envNoKey
              (lit "https://db.example", lit "anon-key"))
    as (_ & _ & Hcached).
  assert ((getSupabase pairClient envNoKey None).1 = ThrowsEnvMissing) as Hthrow
    by (apply Hiff; by right).
  split; [done|]. split; [by apply Hnone|]. by apply Hcached.
Defined.

(* ================================================================== *)
(** ** A drop, then the next read *)
(* ================================================================== *)

Lemma durable_not_temp (x : JsString) :
  isUuid x = true → startsWith x (lit "temp-") = false.
Proof.
  intros Hx. destruct (startsWith x (lit "temp-")) eqn:Htemp; [|done].
  apply temp_prefix_not_uuid in Htemp. congruence.
Qed.

Lemma filter_durable_stableIdsOf (current : list Todo) :
  filter (λ x, isUuid x = true) (stableIdsOf current)
  = filter (λ x, isUuid x = true) (id <$> current).
Proof.
  unfold stableIdsOf. apply list_filter_filter_l. apply durable_not_temp.
Qed.

Lemma stableIdsOf_all_durable (current : list Todo) :
  Forall (λ x, isUuid x = true) (id <$> current) →
  stableIdsOf current = id <$> current.
Proof.
  intros Hall. unfold stableIdsOf. apply list_filter_all.
  eapply Forall_impl; [exact Hall|]. apply durable_not_temp.
Qed.

(** X25: the client's prefix filter never changes what the server does:
    [reorderTodos] behaves the same on the identifiers the client keeps as
    on all the identifiers of the view, since every identifier the server's
    expression accepts passes the prefix test; and on a view whose
    identifiers are all durable the client removes nothing. *)
Theorem prefix_filter_does_not_change_the_writes (current : list Todo)
    (w : World) :
  reorderTodos (stableIdsOf current) w = reorderTodos (id <$> current) w
  ∧ (∀ x, isUuid x = true → startsWith x (lit "temp-") = false)
  ∧ (Forall (λ x, isUuid x = true) (id <$> current) →
     stableIdsOf current = id <$> current).
Proof.
  split; [|split].
  - unfold reorderTodos. by rewrite filter_durable_stableIdsOf.
  - apply durable_not_temp.
  - apply stableIdsOf_all_durable.
Qed.

Lemma settle_at (newId : JsString) (k : nat) (c : Client) (w : World)
    (d : Dispatch) :
  inFlight c !! k = Some d →
  settle newId k c w
  = (observe d (runCall newId (call d) w).1
       (mkClient (optimisticTodos c) (delete k (inFlight c))
          (unhandledRejections c)),
     (runCall newId (call d) w).2).
Proof.
  intros Hd. unfold settle. rewrite Hd.
  by destruct (runCall newId (call d) w).
Qed.

Lemma reorderTodosById_found (draggedId targetId : JsString) (c : Client)
    (fromIdx toIdx : nat) :
  findIndex draggedId (optimisticTodos c) = Some fromIdx →
  findIndex targetId (optimisticTodos c) = Some toIdx →
  ∃ view',
    view' ≡ₚ optimisticTodos c
    ∧ reorderTodosById draggedId targetId c
      = persistOrder (stableIdsOf view') (setOptimisticTodos view' c).
Proof.
  intros Hfrom Hto. unfold reorderTodosById. rewrite Hfrom, Hto.
  destruct (findIndex_Some _ _ _ Hfrom) as (moved & Hm & Hid).
  apply lookup_lt_Some in Hm as Hlt.
  rewrite spliceOut_delete, spliceStart_nat.
  replace (min fromIdx (length (optimisticTodos c))) with fromIdx by lia.
  rewrite Hm. eexists. split; [|reflexivity].
  rewrite spliceIn_Permutation. symmetry. by apply delete_Permutation.
Qed.

(** X26: a drop on a view that shows the rows of the store, all with
    distinct durable identifiers: once the reorder request has landed, the
    next [fetchTodos] lists the rows in exactly the order of the local
    view, whether the atomic call or the fallback wrote the positions. *)
Theorem drop_then_refresh_matches_view (newId draggedId targetId : JsString)
    (c : Client) (w : World) (fromIdx toIdx : nat) :
  inFlight c = [] → optimisticTodos c ≡ₚ rows w → reachable w = true →
  NoDup (id <$> rows w) →
  Forall (λ x, isUuid x = true) (id <$> rows w) →
  findIndex draggedId (optimisticTodos c) = Some fromIdx →
  findIndex targetId (optimisticTodos c) = Some toIdx →
  draggedId ≠ targetId →
  ∃ listing,
    (fetchTodos (settle newId 0 (handleDrop draggedId targetId c) w).2).1
    = Fulfilled listing
    ∧ id <$> listing
      = id <$> optimisticTodos
                 (settle newId 0 (handleDrop draggedId targetId c) w).1
    ∧ inFlight (settle newId 0 (handleDrop draggedId targetId c) w).1 = []
    ∧ unhandledRejections
        (settle newId 0 (handleDrop draggedId targetId c) w).1
      = unhandledRejections c.
Proof.
  intros Hflight Hview Hup Hnd Hall Hfrom Hto Hdiff.
  destruct (findIndex_Some _ _ _ Hfrom) as (moved & Hm & Hid).
  assert (draggedId ≠ []) as Hne.
  { intros ->. rewrite Forall_forall in Hall.
    assert (isUuid [] = true) as Hbad; [|done].
    apply Hall. rewrite <- Hview, <- Hid. apply list_elem_of_fmap_2.
    by eapply list_elem_of_lookup_2. }
  assert (handleDrop draggedId targetId c
          = reorderTodosById draggedId targetId c) as ->.
  { unfold handleDrop. rewrite decide_False; [done|]. by intros [?|?]. }
  destruct (reorderTodosById_found _ _ _ _ _ Hfrom Hto)
    as (view' & Hperm & ->).
  set (ids := id <$> view').
  assert (ids ≡ₚ id <$> rows w) as Hids.
  { unfold ids. by rewrite Hperm, Hview. }
  assert (Forall (λ x, isUuid x = true) ids) as Hdur by by rewrite Hids.
  assert (NoDup ids) as Hnd' by by rewrite Hids.
  assert (ids ≠ []) as Hnonempty.
  { intros Hnil. apply (f_equal length) in Hnil.
    unfold ids in Hnil. rewrite length_fmap in Hnil.
    rewrite (Permutation_length Hperm) in Hnil.
    apply lookup_lt_Some in Hm. simpl in Hnil. lia. }
  rewrite stableIdsOf_all_durable by done. fold ids.
  assert (persistOrder ids (setOptimisticTodos view' c)
          = mkClient view' [mkDispatch (CallReorderTodos ids) false]
              (unhandledRejections c)) as ->.
  { unfold persistOrder. rewrite decide_False by (by destruct ids).
    unfold dispatch, setOptimisticTodos. simpl. by rewrite Hflight. }
  rewrite (settle_at newId 0 _ w (mkDispatch (CallReorderTodos ids) false))
    by done.
  cbn [fst snd call runCall optimisticTodos inFlight unhandledRejections].
  destruct (reorderTodos_writes ids w) as [Hok _].
  destruct (reorderTodos_rows ids w) as (Hrows & Hup' & _).
  rewrite Hup, filter_all_durable in Hrows by done.
  rewrite Hok. cbn [observe optimisticTodos inFlight unhandledRejections].
  rewrite fetchTodos_run by by rewrite Hup'. cbn [fst]. rewrite Hrows.
  destruct (assigned_rows_listing ids (rows w)
              (orderByPosition (applyFullOrder 0 ids (rows w))) Hnd' Hids
              (orderByPosition_Permutation _) (orderByPosition_Sorted _))
    as [Hlisting _].
  eexists. split; [reflexivity|]. by split.
Qed.

Lemma drop_then_refresh_matches_view_witness :
  ∃ listing,
    (fetchTodos (settle idNew 0 (handleDrop idC idA clientABC)
                   (storeABC RpcInstalled)).2).1
    = Fulfilled listing
    ∧ id <$> listing
      = id <$> optimisticTodos
                 (settle idNew 0 (handleDrop idC idA clientABC)
                    (storeABC RpcInstalled)).1
    ∧ inFlight (settle idNew 0 (handleDrop idC idA clientABC)
                  (storeABC RpcInstalled)).1 = []
    ∧ unhandledRejections
        (settle idNew 0 (handleDrop idC idA clientABC)
           (storeABC RpcInstalled)).1
      = unhandledRejections clientABC.
Proof.
  apply (drop_then_refresh_matches_view idNew idC idA clientABC
           (storeABC RpcInstalled) 2 0).
  - reflexivity.
  - reflexivity.
  - reflexivity.
  - apply (bool_decide_unpack _). vm_compute. exact I.
  - repeat constructor.
  - reflexivity.
  - reflexivity.
  - discriminate.
Defined.

(* ================================================================== *)
(** ** The order and the counters of the view *)
(* ================================================================== *)

(** X27: a view in ascending position order stays so under an add, a
    toggle, a delete and a clear-completed: the placeholder goes first with
    a position below all others, and the other three keep order and
    positions.  (Only a drop or a touch drag puts the view out of position
    order.) *)
Theorem view_stays_in_position_order (now : N) (formData : FormData)
    (target : JsString) (c : Client) :
  StronglySorted positionLe (optimisticTodos c) →
  StronglySorted positionLe (optimisticTodos (onAdd now formData c))
  ∧ StronglySorted positionLe (optimisticTodos (onToggle target c))
  ∧ StronglySorted positionLe (optimisticTodos (onDelete target c))
  ∧ StronglySorted positionLe (optimisticTodos (onClearCompleted c)).
Proof.
  intros Hsorted. split; [|split; [|split]].
  - unfold onAdd. case_decide; [done|]. simpl. constructor; [done|].
    apply Forall_forall. intros t Ht. unfold positionLe. simpl.
    rewrite optimisticMinPos_minPos.
    pose proof (newPos_below (optimisticTodos c) t Ht) as Hlt.
    unfold newPos in Hlt. lia.
  - unfold onToggle. simpl.
    eapply (StronglySorted_fmap _ positionLe positionLe); [|done].
    intros x y. unfold positionLe. by repeat case_decide.
  - unfold onDelete. simpl. by apply StronglySorted_filter.
  - unfold onClearCompleted. simpl. by apply StronglySorted_filter.
Qed.

Lemma view_stays_in_position_order_witness :
  StronglySorted positionLe
    (optimisticTodos (onAdd 1700000000000 buyMilk clientFiveTen))
  ∧ StronglySorted positionLe (optimisticTodos (onToggle idA clientFiveTen))
  ∧ StronglySorted positionLe (optimisticTodos (onDelete idA clientFiveTen))
  ∧ StronglySorted positionLe
      (optimisticTodos (onClearCompleted clientFiveTen)).
Proof.
  apply (view_stays_in_position_order 1700000000000 buyMilk idA
           clientFiveTen).
  apply (bool_decide_unpack _). vm_compute. exact I.
Defined.

Lemma filter_none {A} (P : A → Prop) `{!∀ x, Decision (P x)} (l : list A) :
  (∀ x, x ∈ l → ¬ P x) → filter P l = [].
Proof.
  induction l as [|x l IH]; intros Hno; [done|].
  rewrite filter_cons_False by (apply Hno; left).
  apply IH. intros y Hy. apply Hno. by right.
Qed.

Lemma completed_active_split (todos : list Todo) :
  (length (filter (λ t, completed t = true) todos)
   + length (filter (λ t, completed t = false) todos))%nat
  = length todos.
Proof.
  induction todos as [|t todos IH]; [done|].
  rewrite !filter_cons.
  destruct (completed t) eqn:Ht; repeat case_decide; try done; simpl; lia.
Qed.

(** X28: the two counters of the footer add up to the number of items;
    after a clear-completed the completed counter is zero (the button is no
    longer shown) and the active counter is what it was; an add with a
    non-empty text raises the active counter by one. *)
Theorem footer_counters (now : N) (formData : FormData) (c : Client) :
  (activeCount (optimisticTodos c) + completedCount (optimisticTodos c))%nat
  = length (optimisticTodos c)
  ∧ completedCount (optimisticTodos (onClearCompleted c)) = 0%nat
  ∧ activeCount (optimisticTodos (onClearCompleted c))
    = activeCount (optimisticTodos c)
  ∧ (textOf formData ≠ [] →
     activeCount (optimisticTodos (onAdd now formData c))
     = S (activeCount (optimisticTodos c))
     ∧ completedCount (optimisticTodos (onAdd now formData c))
       = completedCount (optimisticTodos c)).
Proof.
  pose proof (completed_active_split (optimisticTodos c)) as Hsplit.
  assert (filter (λ t, completed t = true)
            (filter (λ t, completed t = false) (optimisticTodos c)) = [])
    as Hnone.
  { apply filter_none. intros t Ht Hdone.
    apply list_elem_of_filter in Ht as [Hactive _]. congruence. }
  unfold activeCount, completedCount, onClearCompleted. simpl.
  split; [lia|]. split; [by rewrite Hnone|]. split; [rewrite Hnone; simpl; lia|].
  intros Htext. unfold onAdd. rewrite decide_False by done. simpl.
  rewrite filter_cons_False by done. lia.
Qed.

Lemma footer_counters_witness :
  activeCount (optimisticTodos (onAdd 1700000000000 buyMilk clientFiveTen))
  = S (activeCount (optimisticTodos clientFiveTen))
  ∧ completedCount
      (optimisticTodos (onAdd 1700000000000 buyMilk clientFiveTen))
    = completedCount (optimisticTodos clientFiveTen).
Proof.
  apply (footer_counters 1700000000000 buyMilk clientFiveTen).
  vm_compute. discriminate.
Defined.

(* ================================================================== *)
(** ** Acting on a placeholder *)
(* ================================================================== *)

Lemma tempId_not_stored (now : N) (rs : list Todo) :
  Forall (λ x, isUuid x = true) (id <$> rs) → tempId now ∉ id <$> rs.
Proof.
  intros Hall Hin. rewrite Forall_forall in Hall. apply Hall in Hin.
  assert (isUuid (tempId now) = false) as Hre
    by (apply temp_prefix_not_uuid, startsWith_app).
  congruence.
Qed.

Lemma settleBoth_pair (newId : JsString) (k : nat) (c : Client) (w : World)
    (d1 d2 : Dispatch) :
  inFlight c = [d1; d2] → (k < 2)%nat →
  let first := match k with O => d1 | S _ => d2 end in
  let second := match k with O => d2 | S _ => d1 end in
  let r1 := runCall newId (call first) w in
  let r2 := runCall newId (call second) r1.2 in
  (settleBoth newId k c w).2 = r2.2
  ∧ optimisticTodos (settleBoth newId k c w).1 = optimisticTodos c
  ∧ inFlight (settleBoth newId k c w).1 = []
  ∧ unhandledRejections (settleBoth newId k c w).1
    = unhandledRejections
        (observe second r2.1
           (observe first r1.1
              (mkClient (optimisticTodos c) [] (unhandledRejections c)))).
Proof.
  intros Hd Hk. unfold settleBoth, settle. rewrite Hd.
  destruct k as [|[|k]]; [| |lia]; simpl.
  - destruct (runCall newId (call d1) w) as [o1 w1]. simpl.
    assert (inFlight (observe d1 o1
              (mkClient (optimisticTodos c) [d2] (unhandledRejections c)))
            = [d2]) as ->.
    { destruct o1 as [?|?]; simpl; [done|]. by destruct (hasCatch d1). }
    simpl. destruct (runCall newId (call d2) w1) as [o2 w2]. simpl.
    destruct o1 as [?|?], o2 as [?|?]; simpl;
      destruct (hasCatch d1), (hasCatch d2); done.
  - destruct (runCall newId (call d2) w) as [o1 w1]. simpl.
    assert (inFlight (observe d2 o1
              (mkClient (optimisticTodos c) [d1] (unhandledRejections c)))
            = [d1]) as ->.
    { destruct o1 as [?|?]; simpl; [done|]. by destruct (hasCatch d2). }
    simpl. destruct (runCall newId (call d1) w1) as [o2 w2]. simpl.
    destruct o1 as [?|?], o2 as [?|?]; simpl;
      destruct (hasCatch d1), (hasCatch d2); done.
Qed.

(** X29: toggling a placeholder has no durable effect.  An item added and
    then toggled before the page is refreshed is addressed by its [temp-]
    identifier, which no row carries: in either landing order of the two
    calls the flag of no row is written, the table ends with the new row,
    not completed, and the rejection of [toggleTodo] is left unhandled. *)
Theorem placeholder_toggle_is_not_durable (now : N) (newId : JsString)
    (formData : FormData) (c : Client) (w : World) (k : nat) :
  inFlight c = [] → textOf formData ≠ [] → reachable w = true →
  Forall (λ x, isUuid x = true) (id <$> rows w) → hasRoomBelow (rows w) →
  isUuid newId = true → newId ∉ id <$> rows w → (k < 2)%nat →
  let row := mkTodo newId (textOf formData) false (newPos (rows w)) in
  let toggled :=
    settleBoth newId k (onToggle (tempId now) (onAdd now formData c)) w in
  rows toggled.2 = rows w ++ [row]
  ∧ (∀ e, e ∈ trace toggled.2 →
          (∀ target value, e ≠ EvUpdateCompleted target value) ∨ e ∈ trace w)
  ∧ (∃ e, unhandledRejections toggled.1 = unhandledRejections c ++ [e])
  ∧ inFlight toggled.1 = [].
Proof.
  intros Hflight Htext Hup Hall Hroom Hnew Hfresh Hk row toggled.
  assert (tempId now ∉ id <$> rows w) as Htemp by by apply tempId_not_stored.
  assert (tempId now ∉ id <$> rows w ++ [row]) as Htemp'.
  { apply (tempId_not_stored now (rows w ++ [row])).
    rewrite fmap_app. apply Forall_app. split; [done|].
    constructor; [done|constructor]. }
  assert (addTodo newId formData w
          = (Fulfilled ResOk,
             mkWorld (rows w ++ [row]) true (rpcMode w)
               (trace w ++ [EvSelectOrdered; EvInsert row; EvRevalidate])))
    as Hadd.
  { rewrite addTodo_run by done. unfold row.
    by rewrite newPos_orderByPosition. }
  assert (onAdd now formData c
          = mkClient (mkTodo (tempId now) (textOf formData) false
                        (optimisticMinPos (optimisticTodos c) - 1)
                      :: optimisticTodos c)
              [mkDispatch (CallAddTodo formData) true]
              (unhandledRejections c)) as Hc1.
  { unfold onAdd, dispatch, setOptimisticTodos. rewrite decide_False by done.
    cbn [optimisticTodos inFlight unhandledRejections]. by rewrite Hflight. }
  assert (inFlight (onToggle (tempId now) (onAdd now formData c))
          = [mkDispatch (CallAddTodo formData) true;
             mkDispatch (CallToggleTodo (tempId now)) false]) as Ht
    by by rewrite Hc1.
  destruct (settleBoth_pair newId k _ w _ _ Ht Hk) as (Htw & _ & Htf & Htr).
  subst toggled. rewrite Htw, Htf, Htr.
  assert (unhandledRejections (onToggle (tempId now) (onAdd now formData c))
          = unhandledRejections c) as -> by by rewrite Hc1.
  destruct k as [|[|k]]; [| |lia]; cbn [call runCall].
  - rewrite Hadd. cbn [fst snd].
    rewrite (toggleTodo_no_row (tempId now)) by done.
    cbn [fst snd rows trace observe hasCatch unhandledRejections].
    split; [done|]. split; [|split; [by eexists|done]].
    intros e He. rewrite !elem_of_app in He.
    destruct He as [[He|He]|He]; [by right| |].
    + left. intros target value Heq. subst e.
      repeat (apply elem_of_cons in He as [He|He]; [discriminate He|]).
      by apply elem_of_nil in He.
    + left. intros target value Heq. subst e.
      repeat (apply elem_of_cons in He as [He|He]; [discriminate He|]).
      by apply elem_of_nil in He.
  - rewrite (toggleTodo_no_row (tempId now)) by done. cbn [fst snd].
    rewrite addTodo_run by done.
    cbn [fst snd rows trace observe hasCatch unhandledRejections].
    split; [unfold row; by rewrite newPos_orderByPosition|].
    split; [|split; [by eexists|done]].
    intros e He. rewrite !elem_of_app in He.
    destruct He as [[He|He]|He]; [by right| |].
    + left. intros target value Heq. subst e.
      repeat (apply elem_of_cons in He as [He|He]; [discriminate He|]).
      by apply elem_of_nil in He.
    + left. intros target value Heq. subst e.
      repeat (apply elem_of_cons in He as [He|He]; [discriminate He|]).
      by apply elem_of_nil in He.
Qed.

(** The toggle lands before the add. *)
Lemma placeholder_toggle_is_not_durable_witness :
  let row := mkTodo idNew (textOf buyMilk) false (newPos (rows storeFiveTen)) in
  let toggled :=
    settleBoth idNew 1
      (onToggle (tempId 1700000000000)
         (onAdd 1700000000000 buyMilk clientFiveTen)) storeFiveTen in
  rows toggled.2 = rows storeFiveTen ++ [row]
  ∧ (∀ e, e ∈ trace toggled.2 →
          (∀ target value, e ≠ EvUpdateCompleted target value)
          ∨ e ∈ trace storeFiveTen)
  ∧ (∃ e, unhandledRejections toggled.1
          = unhandledRejections clientFiveTen ++ [e])
  ∧ inFlight toggled.1 = [].
Proof.
  apply (placeholder_toggle_is_not_durable 1700000000000 idNew buyMilk
           clientFiveTen storeFiveTen 1).
  - reflexivity.
  - vm_compute. discriminate.
  - reflexivity.
  - apply (bool_decide_unpack _). vm_compute. exact I.
  - apply (bool_decide_unpack _). vm_compute. exact I.
  - reflexivity.
  - apply (bool_decide_unpack _). vm_compute. exact I.
  - lia.
Defined.

(* ================================================================== *)
(** ** The page *)
(* ================================================================== *)

(** X30: the page [Home] starts the client on the listing of the table:
    with the store reachable the first view holds every row exactly once,
    in ascending position order, with no call in flight, and rendering
    writes nothing; when the store does not answer, the page rejects with
    the store's error instead of showing an empty list. *)
Theorem home_renders_the_listing (w : World) :
  (reachable w = true →
   ∃ c, (Home w).1 = Fulfilled c
        ∧ optimisticTodos c = orderByPosition (rows w)
        ∧ optimisticTodos c ≡ₚ rows w
        ∧ StronglySorted positionLe (optimisticTodos c)
        ∧ inFlight c = [] ∧ unhandledRejections c = [])
  ∧ (reachable w = false → (Home w).1 = Rejected StoreUnavailable)
  ∧ rows (Home w).2 = rows w
  ∧ trace (Home w).2 = trace w ++ [EvSelectOrdered].
Proof.
  destruct w as [rs [] mode tr]; unfold Home, readTodos, fetchTodos;
    run_store.
  - split; [|done]. intros _. eexists. split; [reflexivity|]. simpl.
    split; [done|]. split; [apply orderByPosition_Permutation|].
    split; [apply orderByPosition_Sorted|done].
  - split; [done|]. by split.
Qed.
